(** * AI-PBX gateway: call tracker, voice pipeline and transcription runner

    A shallow embedding of the gateway's record store
    (database/init.js, call-repository.js, transcription-repository.js),
    of the event-stream client (services/ami-client.js), of the
    control-channel client (services/ari-client.js) and of the
    transcription runner (AIProcessor), followed by the properties the
    specification states about them.

    Conventions of the embedding:
    - JavaScript strings are [string]; a value that may be [undefined] or
      [null] is an [option]; the falsy strings are [None] and the empty
      string.
    - A JavaScript [Map] that is only read, written and deleted by key
      (the active-call cache) is a [gmap]; a [Map] that is iterated (the
      channel-session index) keeps its insertion order and is an
      association list.
    - SQL tables are lists of rows in rowid order; a DATETIME column holds
      whole seconds since the epoch (the text SQLite stores orders the same
      way); the JavaScript clock is in milliseconds.
    - Every handler is a function from the state to the new state and the
      list of things it lets out (log records, emitted events, commands,
      timers).  The repository's [await]s resolve without input or output,
      so a handler that awaits nothing else is one step.  A handler whose
      state changes straddle real input/output (the answer command) is
      cut at that point; its second half is a continuation the state
      remembers.  Commands whose outcome changes no state have their
      outcome given with the event whose handler issues them.
    - Of init.js only the schema is embedded; [saveDatabase], which writes
      the database file, is left out. *)

From stdpp Require Import gmap strings list pretty.
From Stdlib Require Import ZArith Sorting.Sorted.

Local Open Scope string_scope.
Local Open Scope list_scope.

(** ** JavaScript odds and ends *)

(** An exception-or-value outcome of a call. *)
Inductive result (A : Type) : Type :=
| Ok (a : A)
| Throw (msg : string).
Arguments Ok {A} a.
Arguments Throw {A} msg.

(** What a handler lets out, in order. *)
Inductive output : Type :=
| Log (level msg : string)
| Emit (name : string)
| SetTimeout (ms : Z) (callback : string)
| ClearTimeout (timer : string)
| AnswerCmd (channelId : string)
| PlayCmd (channelId media : string) (playbackId : option string)
| RecordCmd (channelId name : string) (maxDurationSeconds : Z)
| HangupCmd (channelId reason : string)
| StopCmd (recordingName : string)
| SetImmediate (callback : string) (transcriptionId : Z) (recordingPath : string).

Definition is_timer (o : output) : bool :=
  match o with SetTimeout _ _ => true | _ => false end.

(** [x || d] on an optional string: the falsy values are [undefined] and
    the empty string. *)
Definition js_or (o : option string) (d : string) : string :=
  match o with
  | Some s => if String.eqb s EmptyString then d else s
  | None => d
  end.

(** [s.includes(pat)] *)
Definition includes (pat s : string) : bool :=
  match String.index 0 pat s with Some _ => true | None => false end.

(** What the host reads when a handler runs: the clock (one reading for
    the whole run of the handler, in milliseconds), and the offset at
    which the JavaScript engine reads a timestamp text that names no zone
    (['YYYY-MM-DD HH:MM:SS'], as SQLite's [datetime('now')] writes it in
    UTC, and as [new Date(text)] reads it in the host's zone).  The offset
    is 0 on a host kept in UTC. *)
Record env : Type := {
  now_ms : Z;
  zone_offset_ms : Z
}.

(** SQLite's [datetime('now')] and [CURRENT_TIMESTAMP]: whole seconds. *)
Definition datetime_now (e : env) : Z := (now_ms e / 1000)%Z.

(** [new Date(text)] on a stored DATETIME, in milliseconds. *)
Definition Date_parse (e : env) (stored : Z) : Z :=
  (1000 * stored + zone_offset_ms e)%Z.

(** ** The record store (database/init.js) *)

(** Table [calls]. *)
Record call_row : Type := {
  call_id : Z;
  unique_id : string;
  caller_id : string;
  caller_name : string;
  destination : string;
  channel : string;
  dest_channel : option string;
  start_time : Z;
  answer_time : option Z;
  end_time : option Z;
  duration_seconds : option Z;
  hangup_cause : option string;
  hangup_cause_txt : option string;
  call_state : string;
  call_created_at : Z;
  call_updated_at : Z
}.

(** Table [transcriptions]. *)
Record transcription_row : Type := {
  transcription_id : Z;
  t_call_id : Z;
  recording_path : string;
  transcription_text : option string;
  transcription_status : string;
  processing_started_at : option Z;
  processing_completed_at : option Z;
  error_message : option string;
  t_created_at : Z;
  t_updated_at : Z
}.

(** Table [call_events]; [event_data] is the JSON text of the payload,
    kept here as the name of the event it was made from. *)
Record event_row : Type := {
  event_id : Z;
  e_call_id : Z;
  event_type : string;
  event_data : string;
  e_timestamp : Z
}.

(** The database: the three tables and, for each, the last rowid that
    AUTOINCREMENT handed out. *)
Record database : Type := {
  calls : list call_row;
  calls_seq : Z;
  transcriptions : list transcription_row;
  transcriptions_seq : Z;
  call_events : list event_row;
  call_events_seq : Z
}.

Definition empty_database : database :=
  {| calls := []; calls_seq := 0;
     transcriptions := []; transcriptions_seq := 0;
     call_events := []; call_events_seq := 0 |}.

Definition with_calls (db : database) (cs : list call_row) (seq : Z) : database :=
  {| calls := cs; calls_seq := seq;
     transcriptions := transcriptions db; transcriptions_seq := transcriptions_seq db;
     call_events := call_events db; call_events_seq := call_events_seq db |}.

Definition with_transcriptions (db : database) (ts : list transcription_row) (seq : Z) : database :=
  {| calls := calls db; calls_seq := calls_seq db;
     transcriptions := ts; transcriptions_seq := seq;
     call_events := call_events db; call_events_seq := call_events_seq db |}.

Definition with_call_events (db : database) (es : list event_row) (seq : Z) : database :=
  {| calls := calls db; calls_seq := calls_seq db;
     transcriptions := transcriptions db; transcriptions_seq := transcriptions_seq db;
     call_events := es; call_events_seq := seq |}.

(** [UPDATE t SET ... WHERE p]: the rows that satisfy [p] are rewritten in
    place; [getRowsModified] is their number. *)
Definition sql_update {A : Type} (p : A -> bool) (f : A -> A) (rows : list A) : list A :=
  map (fun r => if p r then f r else r) rows.

Definition rows_modified {A : Type} (p : A -> bool) (rows : list A) : Z :=
  Z.of_nat (length (List.filter p rows)).

(** The message sql.js throws when a bound parameter is [undefined]. *)
Definition sql_bind_error : string :=
  "Wrong API use : tried to bind a value of an unknown type (undefined).".

(** The message SQLite gives when [calls.unique_id] would repeat. *)
Definition unique_constraint_error : string :=
  "UNIQUE constraint failed: calls.unique_id".

(** ** call-repository.js *)

Module CallRepository.

(** The object [createCall] receives. *)
Record call_data : Type := {
  uniqueId : string;
  callerId : string;
  callerName : string;
  cd_destination : string;
  cd_channel : string;
  destChannel : option string;
  callState : option string
}.

Definition has_unique_id (uid : string) (r : call_row) : bool :=
  String.eqb (unique_id r) uid.

(** [SELECT * FROM calls WHERE unique_id = ?], first row or [null]. *)
Definition getCallByUniqueId (uid : string) (db : database) : option call_row :=
  find (has_unique_id uid) (calls db).

(** The INSERT of [createCall]: refused by the UNIQUE constraint on
    [unique_id] when a row already has it, otherwise a new row with the
    next rowid and the column defaults. *)
Definition insert_call (e : env) (cd : call_data) (db : database) : string + database :=
  if existsb (has_unique_id (uniqueId cd)) (calls db)
  then inl unique_constraint_error
  else
    let id := (calls_seq db + 1)%Z in
    let dest := match destChannel cd with
                | Some s => if String.eqb s EmptyString then None else Some s
                | None => None
                end in
    inr (with_calls db
           (calls db ++
            [{| call_id := id;
                unique_id := uniqueId cd;
                caller_id := callerId cd;
                caller_name := callerName cd;
                destination := cd_destination cd;
                channel := cd_channel cd;
                dest_channel := dest;
                start_time := datetime_now e;
                answer_time := None;
                end_time := None;
                duration_seconds := None;
                hangup_cause := None;
                hangup_cause_txt := None;
                call_state := js_or (callState cd) "initiated";
                call_created_at := datetime_now e;
                call_updated_at := datetime_now e |}])
           id).

(** [createCall]: the new rowid; on a UNIQUE failure the id of the row
    that is already there ([existing?.id]); any other failure is thrown
    on. *)
Definition createCall (e : env) (cd : call_data) (db : database)
  : database * result (option Z) * list output :=
  match insert_call e cd db with
  | inr db' => (db', Ok (Some (calls_seq db')), [Log "debug" "Created call record"])
  | inl errMsg =>
      if includes "UNIQUE constraint failed" errMsg
      then (db, Ok (call_id <$> getCallByUniqueId (uniqueId cd) db),
            [Log "debug" "Call record already exists"])
      else (db, Throw errMsg, [])
  end.

Definition set_answered (e : env) (r : call_row) : call_row :=
  {| call_id := call_id r;
     unique_id := unique_id r;
     caller_id := caller_id r;
     caller_name := caller_name r;
     destination := destination r;
     channel := channel r;
     dest_channel := dest_channel r;
     start_time := start_time r;
     answer_time := Some (datetime_now e);
     end_time := end_time r;
     duration_seconds := duration_seconds r;
     hangup_cause := hangup_cause r;
     hangup_cause_txt := hangup_cause_txt r;
     call_state := "answered";
     call_created_at := call_created_at r;
     call_updated_at := datetime_now e |}.

(** [updateCallAnswered]: the UPDATE has no condition on the state the
    row is in. *)
Definition updateCallAnswered (e : env) (uid : string) (db : database)
  : database * bool * list output :=
  (with_calls db (sql_update (has_unique_id uid) (set_answered e) (calls db)) (calls_seq db),
   (0 <? rows_modified (has_unique_id uid) (calls db))%Z,
   [Log "debug" "Call answered"]).

Definition set_ended (e : env) (durationSeconds : Z) (hangupCause hangupCauseTxt : string)
    (r : call_row) : call_row :=
  {| call_id := call_id r;
     unique_id := unique_id r;
     caller_id := caller_id r;
     caller_name := caller_name r;
     destination := destination r;
     channel := channel r;
     dest_channel := dest_channel r;
     start_time := start_time r;
     answer_time := answer_time r;
     end_time := Some (datetime_now e);
     duration_seconds := Some durationSeconds;
     hangup_cause := Some hangupCause;
     hangup_cause_txt := Some hangupCauseTxt;
     call_state := "ended";
     call_created_at := call_created_at r;
     call_updated_at := datetime_now e |}.

(** The duration [updateCallEnded] computes for the row it found:
    [Math.floor((endTime - answerTime) / 1000)] with [endTime = new Date()]
    and [answerTime = new Date(call.answer_time)], or 0 when
    [answer_time] is null.  [Z.div] rounds down, as [Math.floor] does. *)
Definition durationSeconds (e : env) (call : call_row) : Z :=
  match answer_time call with
  | Some stored =>
      let answerTime := Date_parse e stored in
      let endTime := now_ms e in
      ((endTime - answerTime) / 1000)%Z
  | None => 0%Z
  end.

(** [updateCallEnded]: nothing but a warning when no row has the
    [uniqueId]. *)
Definition updateCallEnded (e : env) (uid hangupCause hangupCauseTxt : string)
    (db : database) : database * bool * list output :=
  match getCallByUniqueId uid db with
  | None => (db, false, [Log "warn" "Call not found for hangup"])
  | Some call =>
      let d := durationSeconds e call in
      (with_calls db
         (sql_update (has_unique_id uid) (set_ended e d hangupCause hangupCauseTxt) (calls db))
         (calls_seq db),
       (0 <? rows_modified (has_unique_id uid) (calls db))%Z,
       [Log "info" "Call ended"])
  end.

(** [logCallEvent]: one more row in [call_events].  [call_id] is bound
    from [callId]; an [undefined] there is refused by sql.js. *)
Definition logCallEvent (e : env) (callId : option Z) (eventType eventData : string)
    (db : database) : database * result unit :=
  match callId with
  | None => (db, Throw sql_bind_error)
  | Some cid =>
      let id := (call_events_seq db + 1)%Z in
      (with_call_events db
         (call_events db ++
          [{| event_id := id; e_call_id := cid; event_type := eventType;
              event_data := eventData; e_timestamp := datetime_now e |}])
         id,
       Ok tt)
  end.

End CallRepository.

(** ** transcription-repository.js *)

Module TranscriptionRepository.

Definition has_id (id : Z) (r : transcription_row) : bool :=
  (transcription_id r =? id)%Z.

(** [createTranscription]: a new row in status ['pending'].  [call_id]
    is bound from [callId]; an [undefined] there is refused by sql.js. *)
Definition createTranscription (e : env) (callId : option Z) (recordingPath : string)
    (db : database) : database * result Z * list output :=
  match callId with
  | None => (db, Throw sql_bind_error, [])
  | Some cid =>
      let id := (transcriptions_seq db + 1)%Z in
      (with_transcriptions db
         (transcriptions db ++
          [{| transcription_id := id;
              t_call_id := cid;
              recording_path := recordingPath;
              transcription_text := None;
              transcription_status := "pending";
              processing_started_at := None;
              processing_completed_at := None;
              error_message := None;
              t_created_at := datetime_now e;
              t_updated_at := datetime_now e |}])
         id,
       Ok id,
       [Log "debug" "Created transcription record"])
  end.

Definition set_processing (e : env) (r : transcription_row) : transcription_row :=
  {| transcription_id := transcription_id r;
     t_call_id := t_call_id r;
     recording_path := recording_path r;
     transcription_text := transcription_text r;
     transcription_status := "processing";
     processing_started_at := Some (datetime_now e);
     processing_completed_at := processing_completed_at r;
     error_message := error_message r;
     t_created_at := t_created_at r;
     t_updated_at := datetime_now e |}.

(** [markAsProcessing]: [WHERE id = ?] and nothing else. *)
Definition markAsProcessing (e : env) (id : Z) (db : database) : database * bool :=
  (with_transcriptions db
     (sql_update (has_id id) (set_processing e) (transcriptions db))
     (transcriptions_seq db),
   (0 <? rows_modified (has_id id) (transcriptions db))%Z).

Definition set_completed (e : env) (text : string) (r : transcription_row)
  : transcription_row :=
  {| transcription_id := transcription_id r;
     t_call_id := t_call_id r;
     recording_path := recording_path r;
     transcription_text := Some text;
     transcription_status := "completed";
     processing_started_at := processing_started_at r;
     processing_completed_at := Some (datetime_now e);
     error_message := error_message r;
     t_created_at := t_created_at r;
     t_updated_at := datetime_now e |}.

(** [completeTranscription]: [WHERE id = ?] and nothing else. *)
Definition completeTranscription (e : env) (id : Z) (text : string) (db : database)
  : database * bool * list output :=
  (with_transcriptions db
     (sql_update (has_id id) (set_completed e text) (transcriptions db))
     (transcriptions_seq db),
   (0 <? rows_modified (has_id id) (transcriptions db))%Z,
   [Log "info" "Transcription completed"]).

Definition set_failed (e : env) (errorMessage : string) (r : transcription_row)
  : transcription_row :=
  {| transcription_id := transcription_id r;
     t_call_id := t_call_id r;
     recording_path := recording_path r;
     transcription_text := transcription_text r;
     transcription_status := "failed";
     processing_started_at := processing_started_at r;
     processing_completed_at := Some (datetime_now e);
     error_message := Some errorMessage;
     t_created_at := t_created_at r;
     t_updated_at := datetime_now e |}.

(** [failTranscription]: [WHERE id = ?] and nothing else. *)
Definition failTranscription (e : env) (id : Z) (errorMessage : string) (db : database)
  : database * bool * list output :=
  (with_transcriptions db
     (sql_update (has_id id) (set_failed e errorMessage) (transcriptions db))
     (transcriptions_seq db),
   (0 <? rows_modified (has_id id) (transcriptions db))%Z,
   [Log "error" "Transcription failed"]).

Definition getTranscriptionById (id : Z) (db : database) : option transcription_row :=
  find (has_id id) (transcriptions db).

(** [ORDER BY created_at ASC] as an insertion sort that keeps rows of
    equal [created_at] in rowid order. *)
Fixpoint insert_by_created_at (r : transcription_row) (rows : list transcription_row)
  : list transcription_row :=
  match rows with
  | [] => [r]
  | r' :: rest =>
      if (t_created_at r <? t_created_at r')%Z
      then r :: r' :: rest
      else r' :: insert_by_created_at r rest
  end.

Definition order_by_created_at (rows : list transcription_row) : list transcription_row :=
  foldl (fun acc r => insert_by_created_at r acc) [] rows.

Definition is_pending (r : transcription_row) : bool :=
  String.eqb (transcription_status r) "pending".

(** [getPendingTranscriptions]:
    [WHERE transcription_status = 'pending' ORDER BY created_at ASC]. *)
Definition getPendingTranscriptions (db : database) : list transcription_row :=
  order_by_created_at (List.filter is_pending (transcriptions db)).

End TranscriptionRepository.

(** ** services/ami-client.js: the event-stream client *)

Module AMIClient.

Import CallRepository.

(** What the client receives: the switch's events (payload fields the
    handlers read; [channelstate] is the payload field after [parseInt],
    where a text that is no number behaves as any value other than 6), the
    connection's own signals and the client's two timers.  Only
    [handleNewChannel] guards against a payload without [uniqueid]. *)
Inductive ami_event : Type :=
| Newchannel (uniqueid : option string) (channel calleridnum calleridname exten : string)
| Newstate (uniqueid channel : string) (channelstate : Z) (calleridnum : string)
| Dial (uniqueid subevent : string) (destination : option string)
       (dialstring destchannel : string)
| Bridge
| Hangup (uniqueid channel cause cause_txt calleridnum : string)
| DTMF
| AmiConnect
| AmiError
| AmiClose
| ConnectionTimeout
| ReconnectTimer.

(** An entry of [activeCalls]: [{ id: callId, ...callData }]. *)
Record active_call : Type := {
  ac_id : option Z;
  ac_data : call_data
}.

Record ami_client : Type := {
  isConnected : bool;
  reconnectAttempts : Z;
  reconnectTimer : bool;
  shouldReconnect : bool;
  maxReconnectAttempts : Z;
  reconnectInterval : Z;
  activeCalls : gmap string active_call
}.

(** The constructor; the two numbers come from the environment
    ([MAX_RECONNECT_ATTEMPTS], 0 when unset, and [RECONNECT_INTERVAL_MS],
    5000 when unset). *)
Definition new_client (maxAttempts interval : Z) : ami_client :=
  {| isConnected := false;
     reconnectAttempts := 0;
     reconnectTimer := false;
     shouldReconnect := true;
     maxReconnectAttempts := maxAttempts;
     reconnectInterval := interval;
     activeCalls := ∅ |}.

Definition with_activeCalls (c : ami_client) (m : gmap string active_call) : ami_client :=
  {| isConnected := isConnected c;
     reconnectAttempts := reconnectAttempts c;
     reconnectTimer := reconnectTimer c;
     shouldReconnect := shouldReconnect c;
     maxReconnectAttempts := maxReconnectAttempts c;
     reconnectInterval := reconnectInterval c;
     activeCalls := m |}.

Definition with_connection (c : ami_client) (connected : bool) (attempts : Z)
    (timer should : bool) : ami_client :=
  {| isConnected := connected;
     reconnectAttempts := attempts;
     reconnectTimer := timer;
     shouldReconnect := should;
     maxReconnectAttempts := maxReconnectAttempts c;
     reconnectInterval := reconnectInterval c;
     activeCalls := activeCalls c |}.

(** [handleNewChannel] *)
Definition handleNewChannel (e : env) (uniqueid : option string)
    (channel calleridnum calleridname exten : string)
    (c : ami_client) (db : database) : ami_client * database * list output :=
  match uniqueid with
  | None => (c, db, [])
  | Some uniqueId =>
      if String.eqb uniqueId EmptyString then (c, db, [])
      else
        let callData :=
          {| uniqueId := uniqueId;
             callerId := calleridnum;
             callerName := calleridname;
             cd_destination := exten;
             cd_channel := channel;
             destChannel := None;
             callState := Some "initiated" |} in
        let '(db1, created, out1) := createCall e callData db in
        match created with
        | Throw _ =>
            (c, db1,
             [Log "debug" "New channel created"] ++ out1 ++
             [Log "error" "Error creating call record:"; Emit "newchannel"])
        | Ok callId =>
            let c1 := with_activeCalls c
                        (<[uniqueId := {| ac_id := callId; ac_data := callData |}]>
                           (activeCalls c)) in
            let '(db2, logged) := logCallEvent e callId "newchannel" "Newchannel" db1 in
            match logged with
            | Throw _ =>
                (c1, db2,
                 [Log "debug" "New channel created"] ++ out1 ++
                 [Log "error" "Error creating call record:"; Emit "newchannel"])
            | Ok _ =>
                (c1, db2,
                 [Log "debug" "New channel created"] ++ out1 ++ [Emit "newchannel"])
            end
        end
  end.

(** [handleNewState]; 6 is the switch's code for an answered channel. *)
Definition handleNewState (e : env) (uniqueId channel : string) (channelState : Z)
    (calleridnum : string) (c : ami_client) (db : database)
  : ami_client * database * list output :=
  if (channelState =? 6)%Z then
    let '(db1, _, out1) := updateCallAnswered e uniqueId db in
    match activeCalls c !! uniqueId with
    | Some call =>
        let '(db2, logged) := logCallEvent e (ac_id call) "answered" "Newstate" db1 in
        match logged with
        | Throw _ =>
            (c, db2,
             [Log "debug" "Channel state change"; Log "info" "Call ANSWERED"] ++ out1 ++
             [Log "error" "Error updating call answered:";
              Emit "callanswered"; Emit "newstate"])
        | Ok _ =>
            (c, db2,
             [Log "debug" "Channel state change"; Log "info" "Call ANSWERED"] ++ out1 ++
             [Emit "callanswered"; Emit "newstate"])
        end
    | None =>
        (c, db1,
         [Log "debug" "Channel state change"; Log "info" "Call ANSWERED"] ++ out1 ++
         [Emit "callanswered"; Emit "newstate"])
    end
  else (c, db, [Log "debug" "Channel state change"; Emit "newstate"]).

(** [handleDial]: on the sub-event ['Begin'] the cache entry gets the
    destination; the event log write is outside any [try], so a failure
    there ends the handler before it emits. *)
Definition handleDial (e : env) (uniqueId subevent : string) (destination : option string)
    (dialstring destchannel : string) (c : ami_client) (db : database)
  : ami_client * database * list output :=
  if String.eqb subevent "Begin" then
    match activeCalls c !! uniqueId with
    | Some call =>
        let d := ac_data call in
        let call' :=
          {| ac_id := ac_id call;
             ac_data := {| uniqueId := CallRepository.uniqueId d;
                           callerId := callerId d;
                           callerName := callerName d;
                           cd_destination := js_or destination dialstring;
                           cd_channel := cd_channel d;
                           destChannel := Some destchannel;
                           callState := callState d |} |} in
        let c1 := with_activeCalls c (<[uniqueId := call']> (activeCalls c)) in
        let '(db1, logged) := logCallEvent e (ac_id call) "dial" "Dial" db in
        match logged with
        | Throw _ => (c1, db1, [Log "debug" "Dial event"; Log "error" "Unhandled Rejection at:"])
        | Ok _ => (c1, db1, [Log "debug" "Dial event"; Emit "dial"])
        end
    | None => (c, db, [Log "debug" "Dial event"; Emit "dial"])
    end
  else (c, db, [Log "debug" "Dial event"; Emit "dial"]).

Definition handleBridge (c : ami_client) (db : database)
  : ami_client * database * list output :=
  (c, db, [Log "debug" "Bridge event"; Emit "bridge"]).

(** [handleHangup] *)
Definition handleHangup (e : env) (uniqueId channel cause causeTxt calleridnum : string)
    (c : ami_client) (db : database) : ami_client * database * list output :=
  let '(db1, _, out1) := updateCallEnded e uniqueId cause causeTxt db in
  match activeCalls c !! uniqueId with
  | Some call =>
      let '(db2, logged) := logCallEvent e (ac_id call) "hangup" "Hangup" db1 in
      match logged with
      | Throw _ =>
          (c, db2,
           [Log "info" "Call HANGUP"] ++ out1 ++
           [Log "error" "Error updating call hangup:"; Emit "hangup"])
      | Ok _ =>
          (with_activeCalls c (delete uniqueId (activeCalls c)), db2,
           [Log "info" "Call HANGUP"] ++ out1 ++ [Emit "hangup"])
      end
  | None => (c, db1, [Log "info" "Call HANGUP"] ++ out1 ++ [Emit "hangup"])
  end.

Definition handleDTMF (c : ami_client) (db : database)
  : ami_client * database * list output :=
  (c, db, [Log "debug" "DTMF received"; Emit "dtmf"]).

(** [scheduleReconnect] *)
Definition scheduleReconnect (c : ami_client) : ami_client * list output :=
  if negb (shouldReconnect c) then (c, [])
  else if ((0 <? maxReconnectAttempts c) && (maxReconnectAttempts c <=? reconnectAttempts c))%Z
  then (c, [Log "error" "Max reconnect attempts reached"])
  else
    (with_connection c (isConnected c) (reconnectAttempts c + 1) true (shouldReconnect c),
     (if reconnectTimer c then [ClearTimeout "reconnectTimer"] else []) ++
     [Log "info" "Scheduling AMI reconnect attempt";
      SetTimeout (reconnectInterval c) "reconnectTimer"]).

(** [connect], up to the point where it waits for the connection's
    signals: the manager object is made, the ten-second timeout is armed
    and the handlers are registered. *)
Definition connect (c : ami_client) : ami_client * list output :=
  (c, [Log "info" "Connecting to AMI..."; SetTimeout 10000 "connectionTimeout"]).

(** The ['connect'] signal of the connection. *)
Definition on_connect (c : ami_client) : ami_client * list output :=
  (with_connection c true 0 (reconnectTimer c) (shouldReconnect c),
   [ClearTimeout "connectionTimeout"; Log "info" "AMI Connected successfully";
    Emit "connected"]).

(** The ['error'] signal.  Nobody listens for the client's own ['error']
    event, so the [emit] throws and the error lands in the
    [uncaughtException] handler of index.js, which logs it and, unless it
    is a refused connection, shuts the gateway down: the run ends there.
    That ending is not embedded: a run goes on after [Emit "error"],
    which adds runs and takes none away. *)
Definition on_error (c : ami_client) : ami_client * list output :=
  (c, (if (reconnectAttempts c =? 0)%Z then [Log "error" "AMI Error:"] else []) ++
      [Emit "error"]).

(** The ['close'] signal. *)
Definition on_close (c : ami_client) : ami_client * list output :=
  if isConnected c then
    let c1 := with_connection c false (reconnectAttempts c) (reconnectTimer c)
                (shouldReconnect c) in
    let '(c2, out) := scheduleReconnect c1 in
    (c2, [Log "warn" "AMI Connection closed"; Emit "disconnected"] ++ out)
  else (c, []).

(** The ten-second connection timeout fires. *)
Definition on_connectionTimeout (c : ami_client) : ami_client * list output :=
  if negb (isConnected c) then
    let '(c1, out) := scheduleReconnect c in
    (c1, [Log "warn" "AMI connection timeout, will retry..."] ++ out)
  else (c, []).

(** The reconnect timer fires. *)
Definition on_reconnectTimer (c : ami_client) : ami_client * list output :=
  let '(c1, out) := connect c in
  (c1, [Log "info" "Attempting AMI reconnection..."] ++ out).

(** [disconnect] *)
Definition disconnect (c : ami_client) : ami_client * list output :=
  (with_connection c false (reconnectAttempts c) (reconnectTimer c) false,
   (if reconnectTimer c then [ClearTimeout "reconnectTimer"] else []) ++
   [Log "info" "AMI disconnected"]).

(** What [getStatus] returns, less the host and port of the
    configuration. *)
Record status : Type := {
  connected : bool;
  st_reconnectAttempts : Z;
  st_activeCalls : nat
}.

Definition getStatus (c : ami_client) : status :=
  {| connected := isConnected c;
     st_reconnectAttempts := reconnectAttempts c;
     st_activeCalls := size (activeCalls c) |}.

(** The client's reaction to whatever it receives. *)
Definition handle (e : env) (ev : ami_event) (c : ami_client) (db : database)
  : ami_client * database * list output :=
  match ev with
  | Newchannel uniqueid channel calleridnum calleridname exten =>
      handleNewChannel e uniqueid channel calleridnum calleridname exten c db
  | Newstate uniqueid channel channelstate calleridnum =>
      handleNewState e uniqueid channel channelstate calleridnum c db
  | Dial uniqueid subevent destination dialstring destchannel =>
      handleDial e uniqueid subevent destination dialstring destchannel c db
  | Bridge => handleBridge c db
  | Hangup uniqueid channel cause cause_txt calleridnum =>
      handleHangup e uniqueid channel cause cause_txt calleridnum c db
  | DTMF => handleDTMF c db
  | AmiConnect => let '(c1, out) := on_connect c in (c1, db, out)
  | AmiError => let '(c1, out) := on_error c in (c1, db, out)
  | AmiClose => let '(c1, out) := on_close c in (c1, db, out)
  | ConnectionTimeout => let '(c1, out) := on_connectionTimeout c in (c1, db, out)
  | ReconnectTimer => let '(c1, out) := on_reconnectTimer c in (c1, db, out)
  end.

End AMIClient.

(** ** services/ari-client.js: the control-channel client *)

Module ARIClient.

Import CallRepository TranscriptionRepository.

(** A value of [activeChannels].  [s_channel] is the channel handle the
    session keeps, known by its id; [pendingRecording] unset reads as
    false. *)
Record session : Type := {
  s_channel : string;
  s_callerId : string;
  s_callerName : string;
  startTime : Z;
  state : string;
  currentPlayback : option string;
  pendingRecording : bool;
  recordingName : option string
}.

Definition set_state (st : string) (d : session) : session :=
  {| s_channel := s_channel d; s_callerId := s_callerId d; s_callerName := s_callerName d;
     startTime := startTime d; state := st;
     currentPlayback := currentPlayback d; pendingRecording := pendingRecording d;
     recordingName := recordingName d |}.

Definition set_playback (playbackId : string) (d : session) : session :=
  {| s_channel := s_channel d; s_callerId := s_callerId d; s_callerName := s_callerName d;
     startTime := startTime d; state := state d;
     currentPlayback := Some playbackId; pendingRecording := true;
     recordingName := recordingName d |}.

Definition clear_pending (d : session) : session :=
  {| s_channel := s_channel d; s_callerId := s_callerId d; s_callerName := s_callerName d;
     startTime := startTime d; state := state d;
     currentPlayback := currentPlayback d; pendingRecording := false;
     recordingName := recordingName d |}.

Definition set_recording (name : string) (d : session) : session :=
  {| s_channel := s_channel d; s_callerId := s_callerId d; s_callerName := s_callerName d;
     startTime := startTime d; state := "recording";
     currentPlayback := currentPlayback d; pendingRecording := pendingRecording d;
     recordingName := Some name |}.

(** The [Map] of sessions, in insertion order. *)
Definition sessions : Type := list (string * session).

Fixpoint map_get (k : string) (m : sessions) : option session :=
  match m with
  | [] => None
  | (k', d) :: rest => if String.eqb k' k then Some d else map_get k rest
  end.

(** [Map.set]: a key that is there keeps its place. *)
Fixpoint map_set (k : string) (v : session) (m : sessions) : sessions :=
  match m with
  | [] => [(k, v)]
  | (k', d) :: rest =>
      if String.eqb k' k then (k, v) :: rest else (k', d) :: map_set k v rest
  end.

Fixpoint map_delete (k : string) (m : sessions) : sessions :=
  match m with
  | [] => []
  | (k', d) :: rest =>
      if String.eqb k' k then rest else (k', d) :: map_delete k rest
  end.

(** An assignment to a field of the object the map holds under [k]. *)
Fixpoint map_modify (k : string) (f : session -> session) (m : sessions) : sessions :=
  match m with
  | [] => []
  | (k', d) :: rest =>
      if String.eqb k' k then (k', f d) :: rest else (k', d) :: map_modify k f rest
  end.

(** The [for ... of] scans with their [break]: the first entry, in
    insertion order, that passes the test. *)
Definition scan (test : session -> bool) (m : sessions) : option (string * session) :=
  find (fun kd => test (snd kd)) m.

Definition holds_playback (playbackId : string) (d : session) : bool :=
  match currentPlayback d with
  | Some p => String.eqb p playbackId && pendingRecording d
  | None => false
  end.

Definition holds_recording (name : string) (d : session) : bool :=
  match recordingName d with
  | Some n => String.eqb n name
  | None => false
  end.

(** [awaiting_answer] lists the calls of [handleStasisStart] that are
    suspended on [channel.answer()], by channel id. *)
Record ari_client : Type := {
  isConnected : bool;
  reconnectAttempts : Z;
  reconnectTimer : bool;
  shouldReconnect : bool;
  maxReconnectAttempts : Z;
  reconnectInterval : Z;
  recordingDuration : Z;
  activeChannels : sessions;
  awaiting_answer : list string
}.

Definition new_client (maxAttempts interval duration : Z) : ari_client :=
  {| isConnected := false; reconnectAttempts := 0; reconnectTimer := false;
     shouldReconnect := true; maxReconnectAttempts := maxAttempts;
     reconnectInterval := interval; recordingDuration := duration;
     activeChannels := []; awaiting_answer := [] |}.

Definition with_sessions (c : ari_client) (m : sessions) (waiting : list string)
  : ari_client :=
  {| isConnected := isConnected c; reconnectAttempts := reconnectAttempts c;
     reconnectTimer := reconnectTimer c; shouldReconnect := shouldReconnect c;
     maxReconnectAttempts := maxReconnectAttempts c;
     reconnectInterval := reconnectInterval c; recordingDuration := recordingDuration c;
     activeChannels := m; awaiting_answer := waiting |}.

Definition with_connection (c : ari_client) (connected : bool) (attempts : Z)
    (timer should : bool) : ari_client :=
  {| isConnected := connected; reconnectAttempts := attempts;
     reconnectTimer := timer; shouldReconnect := should;
     maxReconnectAttempts := maxReconnectAttempts c;
     reconnectInterval := reconnectInterval c; recordingDuration := recordingDuration c;
     activeChannels := activeChannels c; awaiting_answer := awaiting_answer c |}.

(** What the client receives.  [AnswerReturned] is the return of
    [channel.answer()] to the suspended [handleStasisStart]; it carries
    what the rest of that call draws from outside: the id [uuidv4()] gives
    and whether the play command succeeds.  The other command outcomes
    ride on the event whose handler issues the command; [hangup_ok] is
    the outcome of the hangup command, should the handler come to issue
    one.  The id of a finished playback and the name of a finished
    recording are strings, as the control channel sends them.
    [HangupTimer] is the firing of the two-second timer that
    [handleRecordingFinished] arms once the goodbye has been played, for
    the channel its callback holds; [StopRecordingTimer] is the firing of
    the timer that [startRecording] arms, for the recording its callback
    holds.  Which timers are armed is not kept track of: as with the
    timers of the connection, a timer event may come at any time, which
    adds runs and takes none away. *)
Inductive ari_event : Type :=
| StasisStart (channelId callerNumber callerName : string)
| AnswerReturned (channelId : string) (answer_ok : bool) (playbackId : string)
                 (play_ok hangup_ok : bool)
| StasisEnd (channelId : string)
| PlaybackFinished (playbackId : string) (record_ok hangup_ok : bool)
| RecordingFinished (name : string) (goodbye_ok hangup_ok : bool)
| HangupTimer (channelId : string) (hangup_ok : bool)
| StopRecordingTimer (recordingName : string) (stop_ok : bool)
| ConnectReturned (ok : bool)
| WsClose
| WsError
| ReconnectTimer.

(** [hangupChannel]; a hangup that fails is only logged. *)
Definition hangupChannel (channelId reason : string) (hangup_ok : bool) : list output :=
  [Log "info" "Hanging up channel"; HangupCmd channelId reason] ++
  if hangup_ok then []
  else [Log "debug" "Error hanging up (channel may already be gone):"].

(** [stopRecording]; a stop that fails is only logged. *)
Definition stopRecording (recordingName : string) (stop_ok : bool) : list output :=
  [StopCmd recordingName] ++
  if stop_ok then [Log "info" "Recording stopped"]
  else [Log "debug" "Error stopping recording:"].

(** [handleStasisStart] up to [await channel.answer()]. *)
Definition handleStasisStart (e : env) (channelId callerNumber callerName : string)
    (c : ari_client) : ari_client * list output :=
  (with_sessions c
     (map_set channelId
        {| s_channel := channelId; s_callerId := callerNumber;
           s_callerName := callerName; startTime := now_ms e; state := "started";
           currentPlayback := None; pendingRecording := false;
           recordingName := None |}
        (activeChannels c))
     (awaiting_answer c ++ [channelId]),
   [Log "info" "Stasis call received"; Log "info" "Answering call..."; AnswerCmd channelId]).

(** [playPrompt]: the playback id goes into the session before the play
    command; a failed command is thrown on. *)
Definition playPrompt (channelId sound playbackId : string) (play_ok : bool) (m : sessions)
  : sessions * result unit * list output :=
  let m1 := match map_get channelId m with
            | Some _ => map_modify channelId (set_playback playbackId) m
            | None => m
            end in
  if play_ok
  then (m1, Ok tt,
        [Log "debug" "Starting playback";
         PlayCmd channelId ("sound:" +:+ sound) (Some playbackId);
         Log "info" "Playback started"])
  else (m1, Throw "play",
        [Log "debug" "Starting playback";
         PlayCmd channelId ("sound:" +:+ sound) (Some playbackId);
         Log "error" "Failed to play prompt:"]).

Fixpoint remove_first (k : string) (l : list string) : list string :=
  match l with
  | [] => []
  | k' :: rest => if String.eqb k' k then rest else k' :: remove_first k rest
  end.

(** The rest of [handleStasisStart], once [channel.answer()] has returned.
    A session that is gone by then makes the assignment to its state
    throw, which the handler catches like any command failure. *)
Definition answer_returned (channelId : string) (answer_ok : bool) (playbackId : string)
    (play_ok hangup_ok : bool) (c : ari_client) : ari_client * list output :=
  if negb (existsb (String.eqb channelId) (awaiting_answer c)) then (c, [])
  else
    let waiting := remove_first channelId (awaiting_answer c) in
    let failed := [Log "error" "Error handling Stasis call:"] ++
                  hangupChannel channelId "error" hangup_ok in
    if answer_ok then
      match map_get channelId (activeChannels c) with
      | None => (with_sessions c (activeChannels c) waiting, failed)
      | Some _ =>
          let m1 := map_modify channelId (set_state "answered") (activeChannels c) in
          let '(m2, played, out) :=
            playPrompt channelId "demo-congrats" playbackId play_ok m1 in
          (with_sessions c m2 waiting,
           [Log "info" "Call answered"; Log "info" "Playing system prompt..."] ++ out ++
           match played with Ok _ => [] | Throw _ => failed end)
      end
    else (with_sessions c (activeChannels c) waiting, failed).

(** ['recording-' + channel.id + '-' + Date.now()] *)
Definition recording_name (e : env) (channelId : string) : string :=
  "recording-" +:+ channelId +:+ "-" +:+ pretty (now_ms e).

(** [startRecording]; the beep before the recording may fail unnoticed. *)
Definition startRecording (e : env) (channelId : string) (record_ok hangup_ok : bool)
    (c : ari_client) : ari_client * list output :=
  let recordingName := recording_name e channelId in
  let m1 := match map_get channelId (activeChannels c) with
            | Some _ => map_modify channelId (set_recording recordingName) (activeChannels c)
            | None => activeChannels c
            end in
  (with_sessions c m1 (awaiting_answer c),
   [Log "info" "Starting recording";
    PlayCmd channelId "sound:beep" None;
    RecordCmd channelId recordingName (recordingDuration c)] ++
   if record_ok
   then [Log "info" "Recording started";
         SetTimeout ((recordingDuration c + 1) * 1000) "stopRecording"]
   else [Log "error" "Failed to start recording:"] ++
        hangupChannel channelId "recording_error" hangup_ok).

(** [handlePlaybackFinished] *)
Definition handlePlaybackFinished (e : env) (playbackId : string)
    (record_ok hangup_ok : bool) (c : ari_client) : ari_client * list output :=
  match scan (holds_playback playbackId) (activeChannels c) with
  | Some (channelId, data) =>
      let c1 := with_sessions c (map_modify channelId clear_pending (activeChannels c))
                  (awaiting_answer c) in
      let '(c2, out) := startRecording e (s_channel data) record_ok hangup_ok c1 in
      (c2, [Log "debug" "Playback finished";
            Log "info" "Starting recording after prompt..."] ++ out)
  | None => (c, [Log "debug" "Playback finished"])
  end.

(** [handleRecordingFinished] *)
Definition handleRecordingFinished (e : env) (recordingName : string)
    (goodbye_ok hangup_ok : bool) (c : ari_client) (db : database)
  : ari_client * database * list output :=
  match scan (holds_recording recordingName) (activeChannels c) with
  | Some (channelId, data) =>
      let c1 := with_sessions c
                  (map_modify channelId (set_state "processing") (activeChannels c))
                  (awaiting_answer c) in
      let recordingPath := "/var/spool/asterisk/recording/" +:+ recordingName +:+ ".wav" in
      let '(db1, callId, out1) :=
        match getCallByUniqueId channelId db with
        | Some existingCall => (db, Ok (Some (call_id existingCall)), [])
        | None =>
            createCall e
              {| uniqueId := channelId;
                 callerId := s_callerId data;
                 callerName := s_callerName data;
                 cd_destination := "777";
                 cd_channel := "ARI/" +:+ channelId;
                 destChannel := None;
                 callState := Some "in_stasis" |} db
        end in
      let '(db2, out2) :=
        match callId with
        | Throw _ => (db1, out1 ++ [Log "error" "Error saving recording info:"])
        | Ok cid =>
            let '(db2, transcriptionId, out) := createTranscription e cid recordingPath db1 in
            match transcriptionId with
            | Throw _ => (db2, out1 ++ out ++ [Log "error" "Error saving recording info:"])
            | Ok tid =>
                (db2, out1 ++ out ++
                      [Log "info" "Triggering AI processing...";
                       SetImmediate "processRecording" tid recordingPath])
            end
        end in
      (c1, db2,
       [Log "info" "Recording finished";
        Log "info" "Recording completed, triggering AI processing"] ++ out2 ++
       [PlayCmd (s_channel data) "sound:vm-goodbye" None] ++
       if goodbye_ok
       then [SetTimeout 2000 "hangupChannel"]
       else [Log "error" "Error playing goodbye:"] ++
            hangupChannel (s_channel data) "normal" hangup_ok)
  | None => (c, db, [Log "info" "Recording finished"])
  end.

(** [handleStasisEnd] *)
Definition handleStasisEnd (channelId : string) (c : ari_client)
  : ari_client * list output :=
  (with_sessions c (map_delete channelId (activeChannels c)) (awaiting_answer c),
   [Log "info" "Stasis end"; Emit "stasisend"]).

(** [scheduleReconnect] *)
Definition scheduleReconnect (c : ari_client) : ari_client * list output :=
  if negb (shouldReconnect c) then (c, [])
  else if ((0 <? maxReconnectAttempts c) && (maxReconnectAttempts c <=? reconnectAttempts c))%Z
  then (c, [Log "error" "Max reconnect attempts reached"])
  else
    (with_connection c (isConnected c) (reconnectAttempts c + 1) true (shouldReconnect c),
     (if reconnectTimer c then [ClearTimeout "reconnectTimer"] else []) ++
     [Log "info" "Scheduling ARI reconnect attempt";
      SetTimeout (reconnectInterval c) "reconnectTimer"]).

(** [connect], once [ARI.connect] has returned or thrown. *)
Definition connect_returned (ok : bool) (c : ari_client) : ari_client * list output :=
  if ok then
    (with_connection c true 0 (reconnectTimer c) (shouldReconnect c),
     [Log "info" "ARI Connected successfully";
      Log "info" "Starting Stasis application"; Emit "connected"])
  else
    let '(c1, out) :=
      scheduleReconnect
        (with_connection c false (reconnectAttempts c) (reconnectTimer c)
           (shouldReconnect c)) in
    (c1, [Log "error" "Failed to connect to ARI:"] ++ out).

(** The WebSocket's ['close']. *)
Definition on_ws_close (c : ari_client) : ari_client * list output :=
  let '(c1, out) :=
    scheduleReconnect
      (with_connection c false (reconnectAttempts c) (reconnectTimer c)
         (shouldReconnect c)) in
  (c1, [Log "warn" "ARI WebSocket closed"; Emit "disconnected"] ++ out).

(** The WebSocket's ['error']; what is said of [AMIClient.on_error]
    holds of the [emit] here too. *)
Definition on_ws_error (c : ari_client) : ari_client * list output :=
  (c, [Log "error" "ARI WebSocket error:"; Emit "error"]).

(** The client's reaction to whatever it receives. *)
Definition handle (e : env) (ev : ari_event) (c : ari_client) (db : database)
  : ari_client * database * list output :=
  match ev with
  | StasisStart channelId callerNumber callerName =>
      let '(c1, out) := handleStasisStart e channelId callerNumber callerName c in
      (c1, db, out)
  | AnswerReturned channelId answer_ok playbackId play_ok hangup_ok =>
      let '(c1, out) :=
        answer_returned channelId answer_ok playbackId play_ok hangup_ok c in
      (c1, db, out)
  | StasisEnd channelId =>
      let '(c1, out) := handleStasisEnd channelId c in (c1, db, out)
  | PlaybackFinished playbackId record_ok hangup_ok =>
      let '(c1, out) := handlePlaybackFinished e playbackId record_ok hangup_ok c in
      (c1, db, out)
  | RecordingFinished name goodbye_ok hangup_ok =>
      handleRecordingFinished e name goodbye_ok hangup_ok c db
  | HangupTimer channelId hangup_ok => (c, db, hangupChannel channelId "normal" hangup_ok)
  | StopRecordingTimer recordingName stop_ok => (c, db, stopRecording recordingName stop_ok)
  | ConnectReturned ok =>
      let '(c1, out) := connect_returned ok c in (c1, db, out)
  | WsClose => let '(c1, out) := on_ws_close c in (c1, db, out)
  | WsError => let '(c1, out) := on_ws_error c in (c1, db, out)
  | ReconnectTimer =>
      (c, db, [Log "info" "Attempting ARI reconnection..."; Log "info" "Connecting to ARI..."])
  end.

End ARIClient.

(** ** AIProcessor: the transcription runner *)

Module AIProcessor.

Import TranscriptionRepository.

Definition mockTranscriptions : list string :=
  [ "Hello, I'm calling to inquire about your services. Can you please provide more information about pricing and availability?";
    "Hi there, I need to schedule an appointment for next week. What times do you have available on Tuesday or Wednesday?";
    "Good afternoon, I'm following up on my previous inquiry. Has there been any update on my case?";
    "Yes, I'd like to place an order for the premium package. Can you walk me through the process?";
    "I'm experiencing an issue with my account and need assistance resolving it as soon as possible.";
    "Thank you for your help earlier. I have a few additional questions about the service.";
    "I'm interested in learning more about your AI integration capabilities for our business.";
    "Could you please transfer me to the technical support department? I have a system-related question.";
    "I'd like to provide feedback about my recent experience with your company.";
    "Hello, I'm returning your call from earlier today. What did you need to discuss?" ].

(** [generateMockTranscription]; [draw] stands for what [Math.random]
    gives, taken into the range of the pool. *)
Definition generateMockTranscription (draw : nat) : string :=
  nth (draw mod length mockTranscriptions) mockTranscriptions EmptyString.

(** What one run of [processRecording] takes from outside: the clock when
    it starts and when the simulated delay is over, the random draw, and
    the error, if any, raised inside the [try] block once the job has
    been marked.  Nothing the block calls raises one as it is written
    (the repository calls are not awaited); [fault] stands for the case
    the [catch] branch is there for. *)
Record run_input : Type := {
  at_start : env;
  at_end : env;
  draw : nat;
  fault : option string
}.

Inductive outcome : Type :=
| Success (transcriptionId : Z) (transcription : string)
| Failure (transcriptionId : Z) (error : string).

(** [processRecording]: mark, wait, pick a text, complete; on an error
    fail the job and return the failure. *)
Definition processRecording (i : run_input) (transcriptionId : Z) (recordingPath : string)
    (db : database) : database * outcome * list output :=
  let '(db1, _) := markAsProcessing (at_start i) transcriptionId db in
  match fault i with
  | None =>
      let transcription := generateMockTranscription (draw i) in
      let '(db2, _, out) := completeTranscription (at_end i) transcriptionId transcription db1 in
      (db2, Success transcriptionId transcription,
       [Log "info" "Starting AI transcription processing...";
        Log "info" "AI transcription completed"] ++ out)
  | Some message =>
      let '(db2, _, out) := failTranscription (at_end i) transcriptionId message db1 in
      (db2, Failure transcriptionId message,
       [Log "info" "Starting AI transcription processing...";
        Log "error" "AI transcription failed"] ++ out)
  end.

(** What a call of an [async] function gives its caller: the value once
    awaited, the promise itself when the [await] is left out. *)
Inductive js_value (A : Type) : Type :=
| Awaited (a : A)
| Promise (a : A).
Arguments Awaited {A} a.
Arguments Promise {A} a.

(** [for (const x of v)]: an array is gone through; a promise is not
    iterable. *)
Definition iterate {A : Type} (v : js_value (list A)) : result (list A) :=
  match v with
  | Awaited rows => Ok rows
  | Promise _ => Throw "TypeError: pending is not iterable"
  end.

(** The body of the loop of [retryFailed], one job after the other, each
    awaited before the next. *)
Fixpoint process_each (inputs : Z -> run_input) (rows : list transcription_row)
    (db : database) : database * list output :=
  match rows with
  | [] => (db, [])
  | r :: rest =>
      let '(db1, _, out1) :=
        processRecording (inputs (transcription_id r)) (transcription_id r)
          (recording_path r) db in
      let '(db2, out2) := process_each inputs rest db1 in
      (db2, out1 ++ out2)
  end.

(** [retryFailed]: [getPendingTranscriptions()] is called without
    [await], so [pending] is the promise. *)
Definition retryFailed (inputs : Z -> run_input) (db : database)
  : database * result unit * list output :=
  let pending := Promise (getPendingTranscriptions db) in
  match iterate pending with
  | Throw msg => (db, Throw msg, [Log "info" "Retrying undefined pending transcriptions"])
  | Ok rows =>
      let '(db1, out) := process_each inputs rows db in
      (db1, Ok tt, [Log "info" "Retrying pending transcriptions"] ++ out)
  end.

End AIProcessor.

(** ** The gateway as a whole *)

Record system : Type := {
  db : database;
  ami : AMIClient.ami_client;
  ari : ARIClient.ari_client
}.

(** The gateway started on the database [db0], with the clients as their
    constructors leave them. *)
Definition start (db0 : database) (maxAttempts interval duration : Z) : system :=
  {| db := db0;
     ami := AMIClient.new_client maxAttempts interval;
     ari := ARIClient.new_client maxAttempts interval duration |}.

(** Whatever happens to the gateway: something for the event-stream
    client, something for the control-channel client, or the callback that
    [triggerAIProcessing] handed to [setImmediate]. *)
Inductive event : Type :=
| AMI (ev : AMIClient.ami_event)
| ARI (ev : ARIClient.ari_event)
| Process (i : AIProcessor.run_input) (transcriptionId : Z) (recordingPath : string).

Definition step (e : env) (ev : event) (s : system) : system * list output :=
  match ev with
  | AMI a =>
      let '(c, d, out) := AMIClient.handle e a (ami s) (db s) in
      ({| db := d; ami := c; ari := ari s |}, out)
  | ARI a =>
      let '(c, d, out) := ARIClient.handle e a (ari s) (db s) in
      ({| db := d; ami := ami s; ari := c |}, out)
  | Process i transcriptionId recordingPath =>
      let '(d, _, out) := AIProcessor.processRecording i transcriptionId recordingPath (db s) in
      ({| db := d; ami := ami s; ari := ari s |}, out)
  end.

(** The events of a trace applied in receipt order. *)
Definition run (trace : list (env * event)) (s : system) : system :=
  foldl (fun s '(e, ev) => fst (step e ev s)) s trace.

(** ** call-repository.js: the state write and the read queries *)

Module CallQueries.

Import CallRepository.

Definition set_call_state (e : env) (state : string) (r : call_row) : call_row :=
  {| call_id := call_id r;
     unique_id := unique_id r;
     caller_id := caller_id r;
     caller_name := caller_name r;
     destination := destination r;
     channel := channel r;
     dest_channel := dest_channel r;
     start_time := start_time r;
     answer_time := answer_time r;
     end_time := end_time r;
     duration_seconds := duration_seconds r;
     hangup_cause := hangup_cause r;
     hangup_cause_txt := hangup_cause_txt r;
     call_state := state;
     call_created_at := call_created_at r;
     call_updated_at := datetime_now e |}.

(** [updateCallState]: any text goes into [call_state]. *)
Definition updateCallState (e : env) (uid state : string) (db : database)
  : database * bool :=
  (with_calls db (sql_update (has_unique_id uid) (set_call_state e state) (calls db))
     (calls_seq db),
   (0 <? rows_modified (has_unique_id uid) (calls db))%Z).

(** A row of [calls c LEFT JOIN transcriptions t ON c.id = t.call_id]:
    the call and the columns taken from the transcription, all null when
    the call has none. *)
Record call_details : Type := {
  d_call : call_row;
  d_transcription_text : option string;
  d_transcription_status : option string;
  d_recording_path : option string;
  d_processing_started_at : option Z;
  d_processing_completed_at : option Z;
  d_transcription_error : option string
}.

Definition join_row (c : call_row) (t : option transcription_row) : call_details :=
  match t with
  | Some t =>
      {| d_call := c;
         d_transcription_text := transcription_text t;
         d_transcription_status := Some (transcription_status t);
         d_recording_path := Some (recording_path t);
         d_processing_started_at := processing_started_at t;
         d_processing_completed_at := processing_completed_at t;
         d_transcription_error := error_message t |}
  | None =>
      {| d_call := c;
         d_transcription_text := None;
         d_transcription_status := None;
         d_recording_path := None;
         d_processing_started_at := None;
         d_processing_completed_at := None;
         d_transcription_error := None |}
  end.

Definition of_call (c : call_row) (t : transcription_row) : bool :=
  (t_call_id t =? call_id c)%Z.

(** The rows the LEFT JOIN gives for one call: one for each of its
    transcriptions, in rowid order, or the single null-extended row. *)
Definition left_join (ts : list transcription_row) (c : call_row) : list call_details :=
  match List.filter (of_call c) ts with
  | [] => [join_row c None]
  | t :: rest => map (fun t => join_row c (Some t)) (t :: rest)
  end.

(** [getCallById]: the first row of the join for [c.id = ?], or [null]. *)
Definition getCallById (id : Z) (db : database) : option call_details :=
  head (flat_map (left_join (transcriptions db))
          (List.filter (fun c => (call_id c =? id)%Z) (calls db))).

(** [ORDER BY c.start_time DESC]: the calls newest first.  Calls of
    equal [start_time] come later rowid first, as the engine returns them
    when it reads the index on [start_time] backwards; the rows the join
    gives for one call stay together, in the order of the join. *)
Fixpoint insert_by_start_time (c : call_row) (rows : list call_row) : list call_row :=
  match rows with
  | [] => [c]
  | c' :: rest =>
      if (start_time c' <=? start_time c)%Z
      then c :: c' :: rest
      else c' :: insert_by_start_time c rest
  end.

Definition order_by_start_time_desc (rows : list call_row) : list call_row :=
  foldl (fun acc c => insert_by_start_time c acc) [] rows.

(** [LIMIT ? OFFSET ?] as SQLite reads them: a negative offset is no
    offset, a negative limit is no limit. *)
Definition limit_offset {A : Type} (limit offset : Z) (rows : list A) : list A :=
  let rest := drop (Z.to_nat offset) rows in
  if (limit <? 0)%Z then rest else take (Z.to_nat limit) rest.

(** A row of the list [getAllCalls] gives: the call and three columns of
    the transcription. *)
Record call_listing : Type := {
  l_call : call_row;
  l_transcription_text : option string;
  l_transcription_status : option string;
  l_recording_path : option string
}.

Definition listed (r : call_details) : call_listing :=
  {| l_call := d_call r;
     l_transcription_text := d_transcription_text r;
     l_transcription_status := d_transcription_status r;
     l_recording_path := d_recording_path r |}.

(** What [getAllCalls] returns. *)
Record page : Type := {
  p_calls : list call_listing;
  p_total : Z;
  p_limit : Z;
  p_offset : Z;
  hasMore : bool
}.

(** [getAllCalls].  [matches] is the WHERE clause the filters build, as it
    holds or not of a row of [calls] (it mentions columns of [c] only;
    with no filter it is [1=1]).  The count is taken over [calls], the
    page over the join. *)
Definition getAllCalls (limit offset : Z) (matches : call_row -> bool) (db : database)
  : page :=
  let total := Z.of_nat (length (List.filter matches (calls db))) in
  let joined :=
    flat_map (left_join (transcriptions db))
      (order_by_start_time_desc (List.filter matches (calls db))) in
  let calls := map listed (limit_offset limit offset joined) in
  {| p_calls := calls;
     p_total := total;
     p_limit := limit;
     p_offset := offset;
     hasMore := (offset + Z.of_nat (length calls) <? total)%Z |}.

(** [ORDER BY timestamp ASC] as an insertion sort that keeps rows of equal
    [timestamp] in rowid order. *)
Fixpoint insert_by_timestamp (r : event_row) (rows : list event_row) : list event_row :=
  match rows with
  | [] => [r]
  | r' :: rest =>
      if (e_timestamp r <? e_timestamp r')%Z
      then r :: r' :: rest
      else r' :: insert_by_timestamp r rest
  end.

Definition order_by_timestamp (rows : list event_row) : list event_row :=
  foldl (fun acc r => insert_by_timestamp r acc) [] rows.

Definition of_call_id (callId : Z) (r : event_row) : bool := (e_call_id r =? callId)%Z.

(** [getCallEvents]: [WHERE call_id = ? ORDER BY timestamp ASC]. *)
Definition getCallEvents (callId : Z) (db : database) : list event_row :=
  order_by_timestamp (List.filter (of_call_id callId) (call_events db)).

End CallQueries.

(** ** transcription-repository.js: the read queries *)

Module TranscriptionQueries.

(** [getTranscriptionByCallId]: the first row for the call, or [null]. *)
Definition getTranscriptionByCallId (callId : Z) (db : database)
  : option transcription_row :=
  find (fun r => (t_call_id r =? callId)%Z) (transcriptions db).

(** [SUM(CASE WHEN transcription_status = s THEN 1 ELSE 0 END)]: the
    number of rows in status [s], and NULL over no row at all. *)
Definition sum_status (s : string) (rows : list transcription_row) : option Z :=
  match rows with
  | [] => None
  | _ :: _ =>
      Some (Z.of_nat (length (List.filter (fun r => String.eqb (transcription_status r) s) rows)))
  end.

(** What [getStatistics] returns. *)
Record statistics : Type := {
  total : Z;
  pending : option Z;
  processing : option Z;
  completed : option Z;
  failed : option Z
}.

(** [getStatistics].  An aggregate query without GROUP BY always gives
    one row, so the all-zero fallback of the function is never taken. *)
Definition getStatistics (db : database) : statistics :=
  {| total := Z.of_nat (length (transcriptions db));
     pending := sum_status "pending" (transcriptions db);
     processing := sum_status "processing" (transcriptions db);
     completed := sum_status "completed" (transcriptions db);
     failed := sum_status "failed" (transcriptions db) |}.

End TranscriptionQueries.

(** ** ari-client.js: shutdown and status *)

Module ARIShutdown.

Import ARIClient.

(** [disconnect]: no more reconnects, the pending timer cleared, a
    hangup with reason ['shutdown'] for every session in the index, in
    its order.  The sessions stay in the index.  [hangup_ok] tells, for
    each channel, whether its hangup command succeeds. *)
Definition disconnect (hangup_ok : string -> bool) (c : ari_client)
  : ari_client * list output :=
  (with_connection c false (reconnectAttempts c) (reconnectTimer c) false,
   (if reconnectTimer c then [ClearTimeout "reconnectTimer"] else []) ++
   flat_map (fun kd => hangupChannel (s_channel (snd kd)) "shutdown"
                         (hangup_ok (s_channel (snd kd))))
     (activeChannels c) ++
   [Log "info" "ARI disconnected"]).

(** What [getStatus] returns, less the configuration. *)
Record status : Type := {
  connected : bool;
  st_reconnectAttempts : Z;
  st_activeChannels : nat
}.

Definition getStatus (c : ari_client) : status :=
  {| connected := isConnected c;
     st_reconnectAttempts := reconnectAttempts c;
     st_activeChannels := length (activeChannels c) |}.

End ARIShutdown.

(** ** AIProcessor.processMultiple *)

Module AIBatch.

Import TranscriptionRepository AIProcessor.

(** A recording handed to [processMultiple]. *)
Record recording : Type := {
  transcriptionId : Z;
  recordingPath : string
}.

(** The part of [processRecording] before the simulated delay. *)
Definition begin_processing (i : run_input) (r : recording) (db : database)
  : database * list output :=
  ((markAsProcessing (at_start i) (transcriptionId r) db).1,
   [Log "info" "Starting AI transcription processing..."]).

(** The part of [processRecording] after the simulated delay. *)
Definition finish_processing (i : run_input) (r : recording) (db : database)
  : database * outcome * list output :=
  match fault i with
  | None =>
      let transcription := generateMockTranscription (draw i) in
      let '(db1, _, out) :=
        completeTranscription (at_end i) (transcriptionId r) transcription db in
      (db1, Success (transcriptionId r) transcription,
       [Log "info" "AI transcription completed"] ++ out)
  | Some message =>
      let '(db1, _, out) := failTranscription (at_end i) (transcriptionId r) message db in
      (db1, Failure (transcriptionId r) message,
       [Log "error" "AI transcription failed"] ++ out)
  end.

Fixpoint begin_all (inputs : list run_input) (recordings : list recording) (db : database)
  : database * list output :=
  match inputs, recordings with
  | i :: inputs', r :: recordings' =>
      let '(db1, out1) := begin_processing i r db in
      let '(db2, out2) := begin_all inputs' recordings' db1 in
      (db2, out1 ++ out2)
  | _, _ => (db, [])
  end.

Fixpoint finish_all (inputs : list run_input) (recordings : list recording) (db : database)
  : database * list outcome * list output :=
  match inputs, recordings with
  | i :: inputs', r :: recordings' =>
      let '(db1, o, out1) := finish_processing i r db in
      let '(db2, os, out2) := finish_all inputs' recordings' db1 in
      (db2, o :: os, out1 ++ out2)
  | _, _ => (db, [], [])
  end.

(** [processMultiple]: every run is started before any is awaited, so all
    jobs are marked, in the order of the list, before the first delay is
    over; the delays being equal, the runs then finish in the same
    order.  The result lists what each run settled with.  [inputs] gives
    each run, by position, what it takes from outside. *)
Definition processMultiple (inputs : list run_input) (recordings : list recording)
    (db : database) : database * list outcome * list output :=
  let '(db1, out1) := begin_all inputs recordings db in
  let '(db2, os, out2) := finish_all inputs recordings db1 in
  (db2, os, out1 ++ out2).

(** The same recordings taken through [processRecording] one after the
    other. *)
Fixpoint process_in_turn (inputs : list run_input) (recordings : list recording)
    (db : database) : database * list outcome :=
  match inputs, recordings with
  | i :: inputs', r :: recordings' =>
      let '(db1, o, _) := processRecording i (transcriptionId r) (recordingPath r) db in
      let '(db2, os) := process_in_turn inputs' recordings' db1 in
      (db2, o :: os)
  | _, _ => (db, [])
  end.

End AIBatch.

(** * Vocabulary of the properties *)

(** The [unique_id] column, in rowid order. *)
Definition unique_ids (d : database) : list string := map unique_id (calls d).

(** From one database to a later one the [unique_id] column stays as it
    is or gets one new value at its end. *)
Definition ids_grow (d d' : database) : Prop :=
  unique_ids d' = unique_ids d \/
  exists uid, (uid ∉ unique_ids d) /\ unique_ids d' = unique_ids d ++ [uid].

(** Every call the tracker's cache knows has a record in the store. *)
Definition cache_backed (s : system) : Prop :=
  forall uid, is_Some (AMIClient.activeCalls (ami s) !! uid) -> uid ∈ unique_ids (db s).

(** A clock reading on a host kept in UTC. *)
Definition utc_at (t : Z) : env := {| now_ms := t; zone_offset_ms := 0 |}.

(** Creation-time order of transcription jobs. *)
Definition created_before (r r' : transcription_row) : Prop :=
  (t_created_at r <= t_created_at r')%Z.

(** A job that reached one of the two final statuses. *)
Definition settled (r : transcription_row) : Prop :=
  transcription_status r = "completed" \/ transcription_status r = "failed".

(** The status of the job with a given id, if there is one. *)
Definition status_of (id : Z) (d : database) : option string :=
  transcription_status <$> TranscriptionRepository.getTranscriptionById id d.

(** A store with one transcription job, as the pipeline creates it, and
    the same job taken through the runner half way and all the way. *)
Definition sample_run : AIProcessor.run_input :=
  {| AIProcessor.at_start := utc_at 10000;
     AIProcessor.at_end := utc_at 13000;
     AIProcessor.draw := 4;
     AIProcessor.fault := None |}.

Definition one_pending_job : database :=
  (TranscriptionRepository.createTranscription (utc_at 9000) (Some 1%Z)
     "/var/spool/asterisk/recording/recording-c1-9000.wav" empty_database).1.1.

Definition one_processing_job : database :=
  (TranscriptionRepository.markAsProcessing (utc_at 10000) 1 one_pending_job).1.

Definition one_completed_job : database :=
  (AIProcessor.processRecording sample_run 1
     "/var/spool/asterisk/recording/recording-c1-9000.wav" one_pending_job).1.1.

(** The state of the record of call [uid], if there is one. *)
Definition call_state_of (uid : string) (s : system) : option string :=
  call_state <$> CallRepository.getCallByUniqueId uid (db s).

(** A call that was created, answered and hung up, on a fresh gateway. *)
Definition ended_call : system :=
  run [ (utc_at 1000, AMI (AMIClient.Newchannel (Some "abc.1") "SIP/100-0001" "100" "Alice" "777"));
        (utc_at 2000, AMI (AMIClient.Newstate "abc.1" "SIP/100-0001" 6 "100"));
        (utc_at 4000, AMI (AMIClient.Hangup "abc.1" "SIP/100-0001" "16" "Normal Clearing" "100")) ]
      (start empty_database 0 5000 10).

(** A connection failure as the supervisor sees it: an established
    connection drops, or an attempt runs into the ten-second timeout. *)
Definition connection_failure (c : AMIClient.ami_client)
  : AMIClient.ami_client * list output :=
  if AMIClient.isConnected c then AMIClient.on_close c
  else AMIClient.on_connectionTimeout c.

(** The event-stream client after [n] connection failures in a row. *)
Fixpoint after_failures (n : nat) (c : AMIClient.ami_client) : AMIClient.ami_client :=
  match n with
  | O => c
  | S k => (connection_failure (after_failures k c)).1
  end.

(** The session index is well formed: one entry per channel id, and each
    session keeps the handle of the channel it is filed under. *)
Definition wf_sessions (m : ARIClient.sessions) : Prop :=
  NoDup (map fst m) /\ Forall (fun kd => ARIClient.s_channel (snd kd) = fst kd) m.

(** A handler touched the session of channel [k]. *)
Definition touched (m m' : ARIClient.sessions) (k : string) : Prop :=
  ARIClient.map_get k m' <> ARIClient.map_get k m.

(** The state of the session of channel [c], if there is one. *)
Definition session_state (c : string) (s : system) : option string :=
  ARIClient.state <$> ARIClient.map_get c (ARIClient.activeChannels (ari s)).

(** The moves of a session's state that the pipeline makes. *)
Inductive next_state : string -> string -> Prop :=
| answer_step : next_state "started" "answered"
| record_step : next_state "answered" "recording"
| process_step : next_state "recording" "processing".

(** The channels whose session-start event a trace holds, in order. *)
Definition started_by (ev : event) : list string :=
  match ev with
  | ARI (ARIClient.StasisStart c _ _) => [c]
  | _ => []
  end.

Definition started (trace : list (env * event)) : list string :=
  flat_map (fun p => started_by (snd p)) trace.

(** How often a channel id occurs in a list of channel ids. *)
Fixpoint occurrences (k : string) (l : list string) : nat :=
  match l with
  | [] => 0
  | k' :: rest => (if String.eqb k' k then 1 else 0) + occurrences k rest
  end.

(** The control channel starts a session for channel [k] once at most
    along the trace; what it does with other channels is left open. *)
Definition started_once (k : string) (trace : list (env * event)) : Prop :=
  (occurrences k (started trace) <= 1)%nat.

(** What holds of a session, given whether the handler that started it
    still waits for the answer command. *)
Definition session_inv (waiting : bool) (d : ARIClient.session) : Prop :=
  (waiting = true ->
     ARIClient.state d = "started" /\ ARIClient.pendingRecording d = false /\
     ARIClient.recordingName d = None) /\
  (ARIClient.pendingRecording d = true ->
     ARIClient.state d = "answered" /\ ARIClient.recordingName d = None) /\
  (ARIClient.recordingName d <> None ->
     ARIClient.state d = "recording" \/ ARIClient.state d = "processing").

(** What holds of channel [k] in the orchestrator once its session has
    been started [n] times, [n] being 0 or 1: no more than [n] handlers
    wait for its answer, and a session it has was started and is as
    [session_inv] says. *)
Definition channel_inv (k : string) (n : nat) (c : ARIClient.ari_client) : Prop :=
  (occurrences k (ARIClient.awaiting_answer c) <= n)%nat /\
  (forall d, ARIClient.map_get k (ARIClient.activeChannels c) = Some d ->
     (1 <= n)%nat /\ session_inv (bool_decide (k ∈ ARIClient.awaiting_answer c)) d).

(** The states the session of channel [c] goes through along a trace. *)
Fixpoint states_along (c : string) (trace : list (env * event)) (s : system)
  : list (option string) :=
  match trace with
  | [] => []
  | (e, ev) :: rest =>
      let s1 := (step e ev s).1 in
      session_state c s1 :: states_along c rest s1
  end.

(** One call through the pipeline with every command succeeding. *)
Definition normal_path : list (env * event) :=
  [ (utc_at 1000, ARI (ARIClient.StasisStart "c1" "100" "Alice"));
    (utc_at 1200, ARI (ARIClient.AnswerReturned "c1" true "pb-1" true true));
    (utc_at 6000, ARI (ARIClient.PlaybackFinished "pb-1" true true));
    (utc_at 16000, ARI (ARIClient.RecordingFinished "recording-c1-6000" true true)) ].

(** A call that was created and answered, on a fresh gateway. *)
Definition answered_call : system :=
  run [ (utc_at 1000, AMI (AMIClient.Newchannel (Some "abc.1") "SIP/100-0001" "100" "Alice" "777"));
        (utc_at 2000, AMI (AMIClient.Newstate "abc.1" "SIP/100-0001" 6 "100")) ]
      (start empty_database 0 5000 10).

(** A clock reading on a host kept five hours behind UTC. *)
Definition behind_utc_at (t : Z) : env := {| now_ms := t; zone_offset_ms := 18000000 |}.

(** The same call, created and answered, on such a host. *)
Definition answered_call_behind_utc : system :=
  run [ (behind_utc_at 1000,
         AMI (AMIClient.Newchannel (Some "abc.1") "SIP/100-0001" "100" "Alice" "777"));
        (behind_utc_at 2000, AMI (AMIClient.Newstate "abc.1" "SIP/100-0001" 6 "100")) ]
      (start empty_database 0 5000 10).

(** Two calls in the pipeline at once, each listening to its prompt. *)
Definition two_sessions : system :=
  run [ (utc_at 1000, ARI (ARIClient.StasisStart "c1" "100" "Alice"));
        (utc_at 1100, ARI (ARIClient.StasisStart "c2" "200" "Bob"));
        (utc_at 1200, ARI (ARIClient.AnswerReturned "c1" true "pb-1" true true));
        (utc_at 1300, ARI (ARIClient.AnswerReturned "c2" true "pb-2" true true)) ]
      (start empty_database 0 5000 10).

(** The same call while another channel enters the application twice. *)
Definition beside_a_restarted_channel : list (env * event) :=
  [ (utc_at 900, ARI (ARIClient.StasisStart "c2" "200" "Bob"));
    (utc_at 1000, ARI (ARIClient.StasisStart "c1" "100" "Alice"));
    (utc_at 1100, ARI (ARIClient.StasisStart "c2" "200" "Bob"));
    (utc_at 1200, ARI (ARIClient.AnswerReturned "c1" true "pb-1" true true)) ].

(** A channel whose session-start event is delivered twice, the second
    answer returning after the prompt has been played. *)
Definition started_twice : list (env * event) :=
  [ (utc_at 1000, ARI (ARIClient.StasisStart "c1" "100" "Alice"));
    (utc_at 1001, ARI (ARIClient.StasisStart "c1" "100" "Alice"));
    (utc_at 1200, ARI (ARIClient.AnswerReturned "c1" true "pb-1" true true));
    (utc_at 6000, ARI (ARIClient.PlaybackFinished "pb-1" true true));
    (utc_at 6001, ARI (ARIClient.AnswerReturned "c1" true "pb-2" true true)) ].

(** ** Further vocabulary *)

(** The ids of the call records are distinct and none is beyond the last
    one AUTOINCREMENT handed out. *)
Definition call_ids_ok (d : database) : Prop :=
  NoDup (map call_id (calls d)) /\
  Forall (fun r => (call_id r <= calls_seq d)%Z) (calls d).

(** The same for the transcription jobs, whose status is moreover one of
    the four the repository writes. *)
Definition valid_status (s : string) : Prop :=
  s = "pending" \/ s = "processing" \/ s = "completed" \/ s = "failed".

Definition jobs_ok (d : database) : Prop :=
  NoDup (map transcription_id (transcriptions d)) /\
  Forall (fun t => (transcription_id t <= transcriptions_seq d)%Z) (transcriptions d) /\
  Forall (fun t => valid_status (transcription_status t)) (transcriptions d).

(** Every transcription job and every logged event belongs to a call that
    is in the store. *)
Definition references_ok (d : database) : Prop :=
  Forall (fun t => t_call_id t ∈ map call_id (calls d)) (transcriptions d) /\
  Forall (fun ev => e_call_id ev ∈ map call_id (calls d)) (call_events d).

(** The tracker's cache agrees with the store: an entry is filed under
    the [uniqueId] it carries and holds the id of the record of that
    call. *)
Definition cache_agrees (s : system) : Prop :=
  forall uid call,
    AMIClient.activeCalls (ami s) !! uid = Some call ->
    CallRepository.uniqueId (AMIClient.ac_data call) = uid /\
    exists r, CallRepository.getCallByUniqueId uid (db s) = Some r /\
              AMIClient.ac_id call = Some (call_id r).

(** Time order of logged events. *)
Definition logged_before (r r' : event_row) : Prop := (e_timestamp r <= e_timestamp r')%Z.

(** Newest-first order of listed calls. *)
Definition started_after (r r' : CallQueries.call_listing) : Prop :=
  (start_time (CallQueries.l_call r') <= start_time (CallQueries.l_call r))%Z.

(** No call has more than one transcription job. *)
Definition one_job_per_call (d : database) : Prop :=
  NoDup (map t_call_id (transcriptions d)).

(** What the steps of a trace let out, in order. *)
Fixpoint outputs_of (trace : list (env * event)) (s : system) : list output :=
  match trace with
  | [] => []
  | (e, ev) :: rest => (step e ev s).2 ++ outputs_of rest (step e ev s).1
  end.

(** An output that arms a reconnect timer. *)
Definition arms_reconnect (o : output) : bool :=
  match o with
  | SetTimeout _ callback => String.eqb callback "reconnectTimer"
  | _ => false
  end.

(** An output that hangs a channel up. *)
Definition is_hangup (o : output) : bool :=
  match o with HangupCmd _ _ => true | _ => false end.

(** What marking and finishing one recording do to a row of
    [transcriptions], and what they do to the table. *)
Definition mark_row (i : AIProcessor.run_input) (r : AIBatch.recording)
    (x : transcription_row) : transcription_row :=
  if TranscriptionRepository.has_id (AIBatch.transcriptionId r) x
  then TranscriptionRepository.set_processing (AIProcessor.at_start i) x
  else x.

Definition finish_row (i : AIProcessor.run_input) (r : AIBatch.recording)
    (x : transcription_row) : transcription_row :=
  if TranscriptionRepository.has_id (AIBatch.transcriptionId r) x
  then match AIProcessor.fault i with
       | None =>
           TranscriptionRepository.set_completed (AIProcessor.at_end i)
             (AIProcessor.generateMockTranscription (AIProcessor.draw i)) x
       | Some message =>
           TranscriptionRepository.set_failed (AIProcessor.at_end i) message x
       end
  else x.

Definition apply_rows (f : transcription_row -> transcription_row) (d : database)
  : database :=
  with_transcriptions d (map f (transcriptions d)) (transcriptions_seq d).

Fixpoint marks (inputs : list AIProcessor.run_input) (recordings : list AIBatch.recording)
    (x : transcription_row) : transcription_row :=
  match inputs, recordings with
  | i :: inputs', r :: recordings' => marks inputs' recordings' (mark_row i r x)
  | _, _ => x
  end.

Fixpoint finishes (inputs : list AIProcessor.run_input) (recordings : list AIBatch.recording)
    (x : transcription_row) : transcription_row :=
  match inputs, recordings with
  | i :: inputs', r :: recordings' => finishes inputs' recordings' (finish_row i r x)
  | _, _ => x
  end.

Fixpoint turns (inputs : list AIProcessor.run_input) (recordings : list AIBatch.recording)
    (x : transcription_row) : transcription_row :=
  match inputs, recordings with
  | i :: inputs', r :: recordings' =>
      turns inputs' recordings' (finish_row i r (mark_row i r x))
  | _, _ => x
  end.

(** Two rows that differ in [transcription_status] and [updated_at] at
    most. *)
Definition same_but_status (x y : transcription_row) : Prop :=
  transcription_id x = transcription_id y /\
  t_call_id x = t_call_id y /\
  recording_path x = recording_path y /\
  transcription_text x = transcription_text y /\
  processing_started_at x = processing_started_at y /\
  processing_completed_at x = processing_completed_at y /\
  error_message x = error_message y /\
  t_created_at x = t_created_at y.

(** Some recording of the batch has the id. *)
Fixpoint in_batch (id : Z) (inputs : list AIProcessor.run_input)
    (recordings : list AIBatch.recording) : bool :=
  match inputs, recordings with
  | _ :: inputs', r :: recordings' =>
      (AIBatch.transcriptionId r =? id)%Z || in_batch id inputs' recordings'
  | _, _ => false
  end.

(** What the run for one recording settles with. *)
Definition settles_with (i : AIProcessor.run_input) (r : AIBatch.recording)
  : AIProcessor.outcome :=
  match AIProcessor.fault i with
  | None =>
      AIProcessor.Success (AIBatch.transcriptionId r)
        (AIProcessor.generateMockTranscription (AIProcessor.draw i))
  | Some message => AIProcessor.Failure (AIBatch.transcriptionId r) message
  end.

Fixpoint settle_all (inputs : list AIProcessor.run_input)
    (recordings : list AIBatch.recording) : list AIProcessor.outcome :=
  match inputs, recordings with
  | i :: inputs', r :: recordings' => settles_with i r :: settle_all inputs' recordings'
  | _, _ => []
  end.

(** The [id] column of [calls], in rowid order, and how a step may change
    it: not at all, or by the next rowid at its end. *)
Definition call_ids (d : database) : list Z := map call_id (calls d).

Definition call_ids_grow (d d' : database) : Prop :=
  (call_ids d' = call_ids d /\ calls_seq d' = calls_seq d) \/
  (call_ids d' = call_ids d ++ [(calls_seq d + 1)%Z] /\
   calls_seq d' = (calls_seq d + 1)%Z).

(** The call a transcription job belongs to and the call an event is
    logged for, column-wise. *)
Definition job_calls (d : database) : list Z := map t_call_id (transcriptions d).

Definition event_calls (d : database) : list Z := map e_call_id (call_events d).

(** A column of references that stays as it is or gets, at its end, the
    id of a call on record. *)
Definition refs_grow (ids before after : list Z) : Prop :=
  after = before \/ exists cid, cid ∈ ids /\ after = before ++ [cid].

(** A text with a hyphen in it. *)
Fixpoint has_dash (s : string) : bool :=
  match s with
  | EmptyString => false
  | String a rest => String.eqb (String a EmptyString) "-" || has_dash rest
  end.

(** Samples: the data of a second call, a call the tracker has just
    seen, and a session whose recording is running. *)
Definition second_call : CallRepository.call_data :=
  {| CallRepository.uniqueId := "abc.2";
     CallRepository.callerId := "200";
     CallRepository.callerName := "Bob";
     CallRepository.cd_destination := "777";
     CallRepository.cd_channel := "SIP/200-0002";
     CallRepository.destChannel := None;
     CallRepository.callState := None |}.

Definition tracked_call : list (env * event) :=
  [ (utc_at 1000,
     AMI (AMIClient.Newchannel (Some "abc.1") "SIP/100-0001" "100" "Alice" "777")) ].

Definition recording_session : system :=
  run (take 3 normal_path) (start empty_database 0 5000 10).

Definition three_timeouts : list (env * event) :=
  [ (utc_at 10000, AMI AMIClient.ConnectionTimeout);
    (utc_at 25000, AMI AMIClient.ConnectionTimeout);
    (utc_at 40000, AMI AMIClient.ConnectionTimeout);
    (utc_at 55000, AMI AMIClient.ConnectionTimeout) ].

(** * Properties *)

(** ** The call repository *)

Section CallRepositoryFacts.

Import CallRepository.

Lemma has_unique_id_true uid r : has_unique_id uid r = true <-> unique_id r = uid.
Proof. unfold has_unique_id. apply String.eqb_eq. Qed.

Lemma getCall_has_id uid d r :
  getCallByUniqueId uid d = Some r -> unique_id r = uid /\ In r (calls d).
Proof.
  unfold getCallByUniqueId. intros H. apply find_some in H as [Hin Hid].
  split; [by apply has_unique_id_true | done].
Qed.

Lemma getCall_None uid d :
  getCallByUniqueId uid d = None <-> ~ In uid (unique_ids d).
Proof.
  unfold getCallByUniqueId, unique_ids. induction (calls d) as [|r rows IH]; simpl.
  - tauto.
  - destruct (has_unique_id uid r) eqn:E.
    + apply has_unique_id_true in E. split; [done | intros H; exfalso; apply H; by left].
    + rewrite IH. split.
      * intros Hn [Heq | Hin]; [| done].
        apply has_unique_id_true in Heq. congruence.
      * intros Hn Hin. apply Hn. by right.
Qed.

Lemma getCall_Some uid d :
  is_Some (getCallByUniqueId uid d) <-> In uid (unique_ids d).
Proof.
  destruct (getCallByUniqueId uid d) eqn:E.
  - split; [intros _ | by eauto].
    apply getCall_has_id in E as [<- Hin]. unfold unique_ids. by apply in_map.
  - split; [by intros [? ?] |]. intros Hin. by apply getCall_None in E.
Qed.

Lemma existsb_has_unique_id uid d :
  existsb (has_unique_id uid) (calls d) = true <-> In uid (unique_ids d).
Proof.
  rewrite existsb_exists. unfold unique_ids. rewrite in_map_iff. split.
  - intros (r & Hin & Hid). exists r. split; [by apply has_unique_id_true | done].
  - intros (r & Hid & Hin). exists r. split; [done | by apply has_unique_id_true].
Qed.

(** Rewriting rows in place keeps the [unique_id] column when the rewrite
    keeps each row's [unique_id]. *)
Lemma sql_update_unique_ids p f rows :
  (forall r, unique_id (f r) = unique_id r) ->
  map unique_id (sql_update p f rows) = map unique_id rows.
Proof.
  intros Hf. unfold sql_update. rewrite map_map. apply map_ext.
  intros r. by destruct (p r).
Qed.

(** The first row with a given [unique_id], after an in-place rewrite. *)
Lemma find_sql_update uid q f rows :
  (forall r, unique_id (f r) = unique_id r) ->
  find (has_unique_id uid) (sql_update q f rows) =
  (fun r => if q r then f r else r) <$> find (has_unique_id uid) rows.
Proof.
  intros Hf. induction rows as [|r rows IH]; simpl; [done |].
  assert (has_unique_id uid (if q r then f r else r) = has_unique_id uid r) as ->.
  { unfold has_unique_id. destruct (q r); [by rewrite Hf | done]. }
  by destruct (has_unique_id uid r).
Qed.

Lemma insert_call_fresh e cd d :
  ~ In (uniqueId cd) (unique_ids d) ->
  exists d', insert_call e cd d = inr d' /\
             unique_ids d' = unique_ids d ++ [uniqueId cd] /\
             calls_seq d' = (calls_seq d + 1)%Z /\
             transcriptions d' = transcriptions d.
Proof.
  intros Hfresh. unfold insert_call.
  destruct (existsb (has_unique_id (uniqueId cd)) (calls d)) eqn:E.
  { by apply existsb_has_unique_id in E. }
  eexists. split; [done |]. unfold unique_ids. simpl.
  by rewrite map_app.
Qed.

Lemma createCall_unique_ids e cd d :
  unique_ids (createCall e cd d).1.1 =
  if decide (uniqueId cd ∈ unique_ids d) then unique_ids d
  else unique_ids d ++ [uniqueId cd].
Proof.
  unfold createCall. case_decide as Hin; rewrite list_elem_of_In in Hin.
  - unfold insert_call. apply existsb_has_unique_id in Hin. by rewrite Hin.
  - destruct (insert_call_fresh e cd d Hin) as (d' & -> & Hids & _). done.
Qed.

Lemma createCall_transcriptions e cd d :
  transcriptions (createCall e cd d).1.1 = transcriptions d.
Proof.
  unfold createCall, insert_call.
  by destruct (existsb (has_unique_id (uniqueId cd)) (calls d)).
Qed.

(** [createCall] never returns [undefined] and never throws. *)
Lemma createCall_returns_id e cd d :
  exists id, (createCall e cd d).1.2 = Ok (Some id).
Proof.
  unfold createCall, insert_call.
  destruct (existsb (has_unique_id (uniqueId cd)) (calls d)) eqn:E; simpl.
  - apply existsb_has_unique_id, getCall_Some in E as [r Hr]. rewrite Hr. by eexists.
  - by eexists.
Qed.

Lemma updateCallAnswered_unique_ids e uid d :
  unique_ids (updateCallAnswered e uid d).1.1 = unique_ids d.
Proof. unfold updateCallAnswered, unique_ids. simpl. by apply sql_update_unique_ids. Qed.

Lemma updateCallEnded_unique_ids e uid cause txt d :
  unique_ids (updateCallEnded e uid cause txt d).1.1 = unique_ids d.
Proof.
  unfold updateCallEnded. destruct (getCallByUniqueId uid d); [| done].
  unfold unique_ids. simpl. by apply sql_update_unique_ids.
Qed.

Lemma logCallEvent_calls e callId ty data d :
  calls (logCallEvent e callId ty data d).1 = calls d.
Proof. unfold logCallEvent. by destruct callId. Qed.

Lemma logCallEvent_transcriptions e callId ty data d :
  transcriptions (logCallEvent e callId ty data d).1 = transcriptions d.
Proof. unfold logCallEvent. by destruct callId. Qed.

End CallRepositoryFacts.

(** ** How the gateway's steps treat the [calls] table *)

Section StoreSteps.

Import CallRepository TranscriptionRepository.

Lemma ids_grow_refl d : ids_grow d d.
Proof. by left. Qed.

Lemma ids_grow_eq d d' : unique_ids d' = unique_ids d -> ids_grow d d'.
Proof. by left. Qed.

Lemma ids_grow_NoDup d d' : ids_grow d d' -> NoDup (unique_ids d) -> NoDup (unique_ids d').
Proof.
  intros [-> | (uid & Hfresh & ->)] Hnd; [done |].
  apply NoDup_app. split_and!; [done | | apply NoDup_singleton].
  intros x Hx Hx'. apply list_elem_of_singleton in Hx'. by subst.
Qed.

Lemma ids_grow_elem d d' uid : ids_grow d d' -> uid ∈ unique_ids d -> uid ∈ unique_ids d'.
Proof.
  intros [-> | (uid' & _ & ->)] Hin; [done |]. apply elem_of_app. by left.
Qed.

Lemma createCall_ids_grow e cd d : ids_grow d (createCall e cd d).1.1.
Proof.
  unfold ids_grow. rewrite createCall_unique_ids. case_decide; [by left |].
  right. by exists (uniqueId cd).
Qed.

Lemma createCall_has_id e cd d : uniqueId cd ∈ unique_ids (createCall e cd d).1.1.
Proof.
  rewrite createCall_unique_ids. case_decide; [done |].
  apply elem_of_app. right. by apply list_elem_of_singleton.
Qed.

Lemma createTranscription_calls e callId path d :
  calls (createTranscription e callId path d).1.1 = calls d.
Proof. unfold createTranscription. by destruct callId. Qed.

Lemma processRecording_calls i id path d :
  calls (AIProcessor.processRecording i id path d).1.1 = calls d.
Proof. unfold AIProcessor.processRecording. simpl. by destruct (AIProcessor.fault i). Qed.

Lemma unique_ids_calls d d' : calls d' = calls d -> unique_ids d' = unique_ids d.
Proof. unfold unique_ids. by intros ->. Qed.

Lemma handleNewChannel_ids_grow e uniqueid ch num name exten c d :
  ids_grow d (AMIClient.handleNewChannel e uniqueid ch num name exten c d).1.2.
Proof.
  unfold AMIClient.handleNewChannel. destruct uniqueid as [uid|]; [| apply ids_grow_refl].
  destruct (String.eqb uid EmptyString); [apply ids_grow_refl |].
  match goal with |- context [createCall e ?cd d] =>
    pose proof (createCall_ids_grow e cd d) as Hg;
    destruct (createCall e cd d) as [[d1 created] out1] end.
  simpl in Hg. destruct created as [callId | msg]; [| done].
  destruct (logCallEvent e callId "newchannel" "Newchannel" d1) as [d2 logged] eqn:El.
  assert (calls d2 = calls d1) as Hc.
  { pose proof (logCallEvent_calls e callId "newchannel" "Newchannel" d1) as H.
    by rewrite El in H. }
  assert (ids_grow d d2) as Hg2.
  { unfold ids_grow in *. by rewrite (unique_ids_calls _ _ Hc). }
  by destruct logged.
Qed.

Lemma handleNewState_unique_ids e uid ch st num c d :
  unique_ids (AMIClient.handleNewState e uid ch st num c d).1.2 = unique_ids d.
Proof.
  unfold AMIClient.handleNewState. destruct (st =? 6)%Z; [| done].
  pose proof (updateCallAnswered_unique_ids e uid d) as Hu.
  destruct (updateCallAnswered e uid d) as [[d1 b] out1]. simpl in Hu.
  destruct (AMIClient.activeCalls c !! uid) as [call|]; [| done].
  pose proof (logCallEvent_calls e (AMIClient.ac_id call) "answered" "Newstate" d1) as Hl.
  destruct (logCallEvent e (AMIClient.ac_id call) "answered" "Newstate" d1) as [d2 logged].
  simpl in Hl. rewrite <- Hu, <- (unique_ids_calls _ _ Hl). by destruct logged.
Qed.

Lemma handleDial_calls e uid sub dest dial dch c d :
  calls (AMIClient.handleDial e uid sub dest dial dch c d).1.2 = calls d.
Proof.
  unfold AMIClient.handleDial. destruct (String.eqb sub "Begin"); [| done].
  destruct (AMIClient.activeCalls c !! uid) as [call|]; [| done].
  pose proof (logCallEvent_calls e (AMIClient.ac_id call) "dial" "Dial" d) as Hl.
  destruct (logCallEvent e (AMIClient.ac_id call) "dial" "Dial" d) as [d1 logged].
  by destruct logged.
Qed.

Lemma handleHangup_unique_ids e uid ch cause txt num c d :
  unique_ids (AMIClient.handleHangup e uid ch cause txt num c d).1.2 = unique_ids d.
Proof.
  unfold AMIClient.handleHangup.
  pose proof (updateCallEnded_unique_ids e uid cause txt d) as Hu.
  destruct (updateCallEnded e uid cause txt d) as [[d1 b] out1]. simpl in Hu.
  destruct (AMIClient.activeCalls c !! uid) as [call|]; [| done].
  pose proof (logCallEvent_calls e (AMIClient.ac_id call) "hangup" "Hangup" d1) as Hl.
  destruct (logCallEvent e (AMIClient.ac_id call) "hangup" "Hangup" d1) as [d2 logged].
  simpl in Hl. rewrite <- Hu, <- (unique_ids_calls _ _ Hl). by destruct logged.
Qed.

Lemma ami_handle_ids_grow e ev c d : ids_grow d (AMIClient.handle e ev c d).1.2.
Proof.
  destruct ev; unfold AMIClient.handle;
    try apply handleNewChannel_ids_grow;
    try (apply ids_grow_eq, handleNewState_unique_ids);
    try (apply ids_grow_eq, unique_ids_calls, handleDial_calls);
    try (apply ids_grow_eq, handleHangup_unique_ids);
    try apply ids_grow_refl;
    match goal with |- context [let '(_, _) := ?x in _] => destruct x end;
    apply ids_grow_refl.
Qed.

Lemma handleRecordingFinished_ids_grow e name ok hok c d :
  ids_grow d (ARIClient.handleRecordingFinished e name ok hok c d).1.2.
Proof.
  unfold ARIClient.handleRecordingFinished.
  destruct (ARIClient.scan _ _) as [[channelId data]|]; [| apply ids_grow_refl].
  destruct (getCallByUniqueId channelId d) as [existing|].
  - cbn -[createTranscription].
    match goal with |- context [createTranscription e ?cid ?p d] =>
      pose proof (createTranscription_calls e cid p d) as Hc;
      destruct (createTranscription e cid p d) as [[d2 tid] out] end.
    simpl in Hc. apply ids_grow_eq, unique_ids_calls. by destruct tid.
  - match goal with |- context [createCall e ?cd d] =>
      pose proof (createCall_ids_grow e cd d) as Hg;
      destruct (createCall e cd d) as [[d1 callId] out1] end.
    simpl in Hg. destruct callId as [cid | msg]; [| done].
    match goal with |- context [createTranscription e cid ?p d1] =>
      pose proof (createTranscription_calls e cid p d1) as Hc;
      destruct (createTranscription e cid p d1) as [[d2 tid] out] end.
    simpl in Hc. assert (ids_grow d d2) as Hg2.
    { unfold ids_grow in *. by rewrite (unique_ids_calls _ _ Hc). }
    by destruct tid.
Qed.

Lemma ari_handle_ids_grow e ev c d : ids_grow d (ARIClient.handle e ev c d).1.2.
Proof.
  destruct ev; unfold ARIClient.handle;
    try apply handleRecordingFinished_ids_grow;
    try apply ids_grow_refl;
    match goal with |- context [let '(_, _) := ?x in _] => destruct x end;
    apply ids_grow_refl.
Qed.

Lemma step_ids_grow e ev s : ids_grow (db s) (db (step e ev s).1).
Proof.
  destruct ev as [a | a | i tid path]; simpl.
  - pose proof (ami_handle_ids_grow e a (ami s) (db s)) as H.
    by destruct (AMIClient.handle e a (ami s) (db s)) as [[c d] out].
  - pose proof (ari_handle_ids_grow e a (ari s) (db s)) as H.
    by destruct (ARIClient.handle e a (ari s) (db s)) as [[c d] out].
  - pose proof (processRecording_calls i tid path (db s)) as H.
    destruct (AIProcessor.processRecording i tid path (db s)) as [[d o] out].
    simpl in *. by apply ids_grow_eq, unique_ids_calls.
Qed.

Lemma run_snoc trace e ev s :
  run (trace ++ [(e, ev)]) s = (step e ev (run trace s)).1.
Proof. unfold run. by rewrite foldl_app. Qed.

Lemma run_NoDup trace s :
  NoDup (unique_ids (db s)) -> NoDup (unique_ids (db (run trace s))).
Proof.
  intros Hnd. induction trace as [|[e ev] trace IH] using rev_ind; [done |].
  rewrite run_snoc. eapply ids_grow_NoDup; [apply step_ids_grow | done].
Qed.

End StoreSteps.

(** ** Ending a call, creating a call *)

Section CallRecords.

Import CallRepository.

Lemma duration_floor (a b : Z) :
  (1000 * ((a - b) / 1000) <= a - b < 1000 * ((a - b) / 1000) + 1000)%Z.
Proof.
  pose proof (Z.mul_div_le (a - b) 1000) as H1.
  pose proof (Z.mul_succ_div_gt (a - b) 1000) as H2. lia.
Qed.

Lemma duration_utc (now stored : Z) :
  ((now - (1000 * stored + 0)) / 1000 = now / 1000 - stored)%Z.
Proof.
  replace (now - (1000 * stored + 0))%Z with (now + (- stored) * 1000)%Z by lia.
  rewrite Z.div_add by lia. lia.
Qed.

(** What [updateCallEnded] does on a call that is in the store: it leaves
    the record in state ['ended'] with [end_time], [hangup_cause] and
    [hangup_cause_txt] stamped.  When the record has an [answer_time], its
    [duration_seconds] is [endTime - answerTime] in milliseconds rounded
    down to whole seconds, [endTime] being the clock and [answerTime] the
    stored answer time as the handler reads it back; on a host that reads
    it back in UTC this is the stored [end_time] minus the stored
    [answer_time].  When the call was never answered, [duration_seconds]
    is 0. *)
Lemma updateCallEnded_stamps_duration :
  forall (e : env) (uid cause causeTxt : string) (d : database) (call : call_row),
    getCallByUniqueId uid d = Some call ->
    exists ended : call_row,
      getCallByUniqueId uid (updateCallEnded e uid cause causeTxt d).1.1 = Some ended /\
      call_state ended = "ended" /\
      end_time ended = Some (datetime_now e) /\
      hangup_cause ended = Some cause /\
      hangup_cause_txt ended = Some causeTxt /\
      (answer_time call = None -> duration_seconds ended = Some 0%Z) /\
      (forall stored, answer_time call = Some stored ->
         exists secs,
           duration_seconds ended = Some secs /\
           secs = ((now_ms e - Date_parse e stored) / 1000)%Z /\
           (1000 * secs <= now_ms e - Date_parse e stored < 1000 * secs + 1000)%Z /\
           (zone_offset_ms e = 0%Z -> secs = (datetime_now e - stored)%Z)).
Proof.
  intros e uid cause causeTxt d call Hcall.
  unfold updateCallEnded. rewrite Hcall. simpl.
  exists (set_ended e (durationSeconds e call) cause causeTxt call).
  split.
  { unfold getCallByUniqueId in *. simpl. rewrite find_sql_update by done.
    rewrite Hcall. simpl. apply find_some in Hcall as [_ ->]. done. }
  simpl. split_and!; try done.
  - intros Hnone. unfold durationSeconds. by rewrite Hnone.
  - intros stored Hstored. unfold durationSeconds. rewrite Hstored.
    eexists. split; [done |]. split; [done |]. split; [apply duration_floor |].
    intros Hzone. unfold Date_parse, datetime_now. rewrite Hzone. apply duration_utc.
Qed.

(** C4 fails on the code.  On a host five hours behind UTC, a call that
    was answered at second 2 and is ended two and a half seconds later
    gets the duration -17998 instead of 2: SQLite stored the answer time
    as UTC text, [new Date(call.answer_time)] reads that text as local
    time, five hours late, and the difference to the clock is taken from
    there.  The state and the stamps of the hangup are as the claim has
    them, and so is the duration of a call that was never answered. *)
Lemma updateCallEnded_duration_off_utc :
  exists call ended,
    getCallByUniqueId "abc.1" (db answered_call_behind_utc) = Some call /\
    answer_time call = Some 2%Z /\
    getCallByUniqueId "abc.1"
      (updateCallEnded (behind_utc_at 4500) "abc.1" "16" "Normal Clearing"
         (db answered_call_behind_utc)).1.1 = Some ended /\
    call_state ended = "ended" /\
    answer_time ended = Some 2%Z /\
    end_time ended = Some 4%Z /\
    hangup_cause ended = Some "16" /\
    duration_seconds ended = Some (-17998)%Z /\
    duration_seconds ended <> Some 2%Z /\
    call_state_of "abc.1"
      (step (behind_utc_at 4500)
         (AMI (AMIClient.Hangup "abc.1" "SIP/100-0001" "16" "Normal Clearing" "100"))
         answered_call_behind_utc).1 = Some "ended" /\
    (duration_seconds <$>
       getCallByUniqueId "abc.1"
         (db (step (behind_utc_at 4500)
                (AMI (AMIClient.Hangup "abc.1" "SIP/100-0001" "16" "Normal Clearing" "100"))
                answered_call_behind_utc).1)) = Some (Some (-17998)%Z).
Proof.
  destruct (getCallByUniqueId "abc.1" (db answered_call_behind_utc)) as [call|] eqn:Hcall;
    [| vm_compute in Hcall; discriminate Hcall].
  destruct (getCallByUniqueId "abc.1"
              (updateCallEnded (behind_utc_at 4500) "abc.1" "16" "Normal Clearing"
                 (db answered_call_behind_utc)).1.1)
    as [ended|] eqn:Hended; [| vm_compute in Hended; discriminate Hended].
  exists call, ended. vm_compute in Hcall, Hended.
  injection Hcall as <-. injection Hended as <-.
  split_and!; try reflexivity; try discriminate; by vm_compute.
Qed.

(** C5. Whatever the gateway has gone through, the store holds at most one
    call record per [uniqueId]; [createCall] keeps it so; and [createCall]
    for a [uniqueId] that is already recorded changes nothing and returns
    the id of the record that is there, not an error. *)
Theorem createCall_once_per_uniqueId :
  forall (s : system) (trace : list (env * event)) (e : env) (cd : call_data)
         (existing : call_row),
    NoDup (unique_ids (db s)) ->
    getCallByUniqueId (uniqueId cd) (db (run trace s)) = Some existing ->
    NoDup (unique_ids (db (run trace s))) /\
    NoDup (unique_ids (createCall e cd (db (run trace s))).1.1) /\
    createCall e cd (db (run trace s)) =
      (db (run trace s), Ok (Some (call_id existing)),
       [Log "debug" "Call record already exists"]).
Proof.
  intros s trace e cd existing Hnd Hex.
  pose proof (run_NoDup trace s Hnd) as Hnd'.
  split; [done |]. split.
  { eapply ids_grow_NoDup; [apply createCall_ids_grow | done]. }
  unfold createCall, insert_call.
  assert (existsb (has_unique_id (uniqueId cd)) (calls (db (run trace s))) = true) as ->.
  { apply existsb_has_unique_id, getCall_Some. by eexists. }
  by rewrite Hex.
Qed.

End CallRecords.

(** ** The call lifecycle tracker *)

Section Tracker.

Import CallRepository AMIClient.

Lemma system_eta (s : system) : {| db := db s; ami := ami s; ari := ari s |} = s.
Proof. by destruct s. Qed.

Lemma ami_handle_cache_backed e ev c d :
  (forall uid, is_Some (activeCalls c !! uid) -> uid ∈ unique_ids d) ->
  forall uid, is_Some (activeCalls (handle e ev c d).1.1 !! uid) ->
              uid ∈ unique_ids (handle e ev c d).1.2.
Proof.
  intros Hinv uid.
  pose proof (ami_handle_ids_grow e ev c d) as Hgrow.
  destruct ev as [uniqueid ch num name exten | u ch st num | u sub dest dial dch |
                  | u ch cause txt num | | | | | | ]; unfold handle in *.
  - (* Newchannel *)
    unfold handleNewChannel in *. destruct uniqueid as [u|]; [| by apply Hinv].
    destruct (String.eqb u EmptyString); [by apply Hinv |].
    match goal with |- context [createCall e ?cd d] =>
      pose proof (createCall_has_id e cd d) as Hhas;
      pose proof (createCall_ids_grow e cd d) as Hg;
      destruct (createCall e cd d) as [[d1 created] out1] end.
    simpl in Hhas, Hg. destruct created as [callId | msg].
    + pose proof (logCallEvent_calls e callId "newchannel" "Newchannel" d1) as Hl.
      destruct (logCallEvent e callId "newchannel" "Newchannel" d1) as [d2 logged].
      simpl in Hl. apply unique_ids_calls in Hl.
      assert (is_Some (<[u := {| ac_id := callId; ac_data :=
                {| uniqueId := u; callerId := num; callerName := name;
                   cd_destination := exten; cd_channel := ch; destChannel := None;
                   callState := Some "initiated" |} |}]> (activeCalls c) !! uid) ->
              uid ∈ unique_ids d2) as Hgoal.
      { rewrite lookup_insert_is_Some, Hl. intros [<- | [_ Hold]]; [done |].
        eapply ids_grow_elem; [exact Hg | by apply Hinv]. }
      by destruct logged.
    + simpl. intros Hs. eapply ids_grow_elem; [exact Hg | by apply Hinv].
  - intros Hs. eapply ids_grow_elem; [exact Hgrow |]. apply Hinv.
    revert Hs. unfold handleNewState. destruct (st =? 6)%Z; [| done].
    destruct (updateCallAnswered e u d) as [[d1 b] out1].
    destruct (activeCalls c !! u) as [call|]; [| done].
    destruct (logCallEvent e (ac_id call) "answered" "Newstate" d1) as [d2 logged].
    by destruct logged.
  - intros Hs. eapply ids_grow_elem; [exact Hgrow |]. apply Hinv.
    revert Hs. unfold handleDial. destruct (String.eqb sub "Begin"); [| done].
    destruct (activeCalls c !! u) as [call|] eqn:Ecall; [| done].
    destruct (logCallEvent e (ac_id call) "dial" "Dial" d) as [d1 logged].
    assert (is_Some (<[u := {| ac_id := ac_id call; ac_data :=
              {| uniqueId := uniqueId (ac_data call); callerId := callerId (ac_data call);
                 callerName := callerName (ac_data call);
                 cd_destination := js_or dest dial;
                 cd_channel := cd_channel (ac_data call); destChannel := Some dch;
                 callState := callState (ac_data call) |} |}]> (activeCalls c) !! uid) ->
            is_Some (activeCalls c !! uid)) as Hgoal.
    { rewrite lookup_insert_is_Some. intros [<- | [_ Hold]]; [by rewrite Ecall | done]. }
    by destruct logged.
  - by apply Hinv.
  - intros Hs. eapply ids_grow_elem; [exact Hgrow |]. apply Hinv.
    revert Hs. unfold handleHangup.
    destruct (updateCallEnded e u cause txt d) as [[d1 b] out1].
    destruct (activeCalls c !! u) as [call|] eqn:Ecall; [| done].
    destruct (logCallEvent e (ac_id call) "hangup" "Hangup" d1) as [d2 logged].
    destruct logged; [| done]. simpl. rewrite lookup_delete_is_Some. tauto.
  - by apply Hinv.
  - by apply Hinv.
  - by apply Hinv.
  - unfold on_close in *. destruct (isConnected c); [| by apply Hinv].
    unfold scheduleReconnect; simpl.
    destruct (negb (shouldReconnect c)); [by apply Hinv |].
    by destruct (_ && _); apply Hinv.
  - unfold on_connectionTimeout in *. destruct (negb (isConnected c)); [| by apply Hinv].
    unfold scheduleReconnect.
    destruct (negb (shouldReconnect c)); [by apply Hinv |].
    by destruct (_ && _); apply Hinv.
  - by apply Hinv.
Qed.

Lemma step_cache_backed e ev s : cache_backed s -> cache_backed (step e ev s).1.
Proof.
  unfold cache_backed. intros Hinv uid.
  pose proof (step_ids_grow e ev s) as Hgrow.
  destruct ev as [a | a | i tid path]; simpl in *.
  - pose proof (ami_handle_cache_backed e a (ami s) (db s) Hinv uid) as H.
    by destruct (handle e a (ami s) (db s)) as [[c d] out].
  - destruct (ARIClient.handle e a (ari s) (db s)) as [[c d] out]. simpl in *.
    intros Hs. eapply ids_grow_elem; [exact Hgrow | by apply Hinv].
  - destruct (AIProcessor.processRecording i tid path (db s)) as [[d o] out]. simpl in *.
    intros Hs. eapply ids_grow_elem; [exact Hgrow | by apply Hinv].
Qed.

Lemma run_cache_backed trace s : cache_backed s -> cache_backed (run trace s).
Proof.
  intros Hinv. induction trace as [|[e ev] trace IH] using rev_ind; [done |].
  rewrite run_snoc. by apply step_cache_backed.
Qed.

Lemma start_cache_backed db0 maxAttempts interval duration :
  cache_backed (start db0 maxAttempts interval duration).
Proof. intros uid [call Hcall]. simpl in Hcall. by rewrite lookup_empty in Hcall. Qed.

(** C6. In any state the gateway can reach, a hangup event whose
    [uniqueId] has no call record changes neither the store nor the
    active-call cache (so no record is made) and throws nothing: the
    handler logs the hangup, the repository logs its warning, and the
    ['hangup'] notification goes out. *)
Theorem hangup_of_untracked_call_is_noop :
  forall (db0 : database) (maxAttempts interval duration : Z)
         (trace : list (env * event)) (e : env)
         (uid channel cause causeTxt calleridnum : string),
    getCallByUniqueId uid (db (run trace (start db0 maxAttempts interval duration))) = None ->
    step e (AMI (Hangup uid channel cause causeTxt calleridnum))
         (run trace (start db0 maxAttempts interval duration)) =
      (run trace (start db0 maxAttempts interval duration),
       [Log "info" "Call HANGUP"; Log "warn" "Call not found for hangup"; Emit "hangup"]).
Proof.
  intros db0 maxAttempts interval duration trace e uid channel cause causeTxt num.
  pose proof (run_cache_backed trace _ (start_cache_backed db0 maxAttempts interval duration))
    as Hinv.
  generalize dependent (run trace (start db0 maxAttempts interval duration)).
  intros s Hinv Hnone. simpl. unfold handleHangup, updateCallEnded. rewrite Hnone.
  destruct (activeCalls (ami s) !! uid) as [call|] eqn:Ecall.
  - exfalso. apply getCall_None in Hnone. apply Hnone, list_elem_of_In, Hinv.
    by rewrite Ecall.
  - simpl. by rewrite system_eta.
Qed.

(** C10. A channel-created event whose payload has no [uniqueid] (or an
    empty one) is ignored: the store and the active-call cache stay as
    they are and nothing is let out, so no ['newchannel'] notification
    either. *)
Theorem newchannel_without_uniqueid_is_ignored :
  forall (e : env) (channel calleridnum calleridname exten : string) (s : system),
    step e (AMI (Newchannel None channel calleridnum calleridname exten)) s = (s, []) /\
    step e (AMI (Newchannel (Some EmptyString) channel calleridnum calleridname exten)) s
      = (s, []).
Proof.
  intros e channel num name exten s. simpl. by rewrite system_eta.
Qed.

End Tracker.

(** ** The state of a call record along the tracker's events *)

Section CallState.

Import CallRepository AMIClient.

Lemma find_app_Some {A : Type} (p : A -> bool) (l l' : list A) (x : A) :
  find p l = Some x -> find p (l ++ l') = Some x.
Proof.
  induction l as [|a l IH]; simpl; [done |]. by destruct (p a).
Qed.

Lemma createCall_keeps_record e cd d uid r :
  getCallByUniqueId uid d = Some r ->
  getCallByUniqueId uid (createCall e cd d).1.1 = Some r.
Proof.
  unfold createCall, insert_call, getCallByUniqueId. intros Hr.
  destruct (existsb (has_unique_id (uniqueId cd)) (calls d)); simpl; [done |].
  by apply find_app_Some.
Qed.

Lemma same_calls_same_record uid d d' :
  calls d' = calls d -> getCallByUniqueId uid d' = getCallByUniqueId uid d.
Proof. unfold getCallByUniqueId. by intros ->. Qed.

Lemma handleNewChannel_keeps_record e uniqueid ch num name exten c d uid r :
  getCallByUniqueId uid d = Some r ->
  getCallByUniqueId uid (handleNewChannel e uniqueid ch num name exten c d).1.2 = Some r.
Proof.
  intros Hr. unfold handleNewChannel. destruct uniqueid as [u|]; [| done].
  destruct (String.eqb u EmptyString); [done |].
  match goal with |- context [createCall e ?cd d] =>
    pose proof (createCall_keeps_record e cd d uid r Hr) as Hk;
    destruct (createCall e cd d) as [[d1 created] out1] end.
  simpl in Hk. destruct created as [callId | msg]; [| done].
  pose proof (logCallEvent_calls e callId "newchannel" "Newchannel" d1) as Hl.
  destruct (logCallEvent e callId "newchannel" "Newchannel" d1) as [d2 logged].
  simpl in Hl. rewrite <- (same_calls_same_record uid _ _ Hl) in Hk. by destruct logged.
Qed.

Lemma updateCallAnswered_record e u d uid r :
  getCallByUniqueId uid d = Some r ->
  getCallByUniqueId uid (updateCallAnswered e u d).1.1 =
    Some (if String.eqb uid u then set_answered e r else r).
Proof.
  unfold getCallByUniqueId, updateCallAnswered. simpl. intros Hr.
  rewrite find_sql_update by done. rewrite Hr. simpl.
  apply find_some in Hr as [_ Hid]. apply has_unique_id_true in Hid.
  unfold has_unique_id. by rewrite Hid.
Qed.

Lemma updateCallEnded_record e u cause txt d uid r :
  getCallByUniqueId uid d = Some r ->
  exists secs,
    getCallByUniqueId uid (updateCallEnded e u cause txt d).1.1 =
      Some (if String.eqb uid u then set_ended e secs cause txt r else r).
Proof.
  unfold updateCallEnded. intros Hr.
  destruct (getCallByUniqueId u d) as [call|] eqn:Ecall.
  - exists (durationSeconds e call). unfold getCallByUniqueId in *. simpl.
    rewrite find_sql_update by done. rewrite Hr. simpl.
    apply find_some in Hr as [_ Hid]. apply has_unique_id_true in Hid.
    unfold has_unique_id. by rewrite Hid.
  - exists 0%Z. simpl. destruct (String.eqb uid u) eqn:E; [| done].
    apply String.eqb_eq in E. congruence.
Qed.

Lemma handleNewState_record e u ch st num c d uid r :
  getCallByUniqueId uid d = Some r ->
  getCallByUniqueId uid (handleNewState e u ch st num c d).1.2 =
    Some (if (st =? 6)%Z && String.eqb uid u then set_answered e r else r).
Proof.
  intros Hr. unfold handleNewState. destruct (st =? 6)%Z; [| done]. cbn [andb].
  pose proof (updateCallAnswered_record e u d uid r Hr) as Hu.
  destruct (updateCallAnswered e u d) as [[d1 b] out1]. simpl in Hu.
  destruct (activeCalls c !! u) as [call|]; [| done].
  pose proof (logCallEvent_calls e (ac_id call) "answered" "Newstate" d1) as Hl.
  destruct (logCallEvent e (ac_id call) "answered" "Newstate" d1) as [d2 logged].
  simpl in Hl. rewrite <- (same_calls_same_record uid _ _ Hl) in Hu. by destruct logged.
Qed.

Lemma handleHangup_record e u ch cause txt num c d uid r :
  getCallByUniqueId uid d = Some r ->
  exists secs,
    getCallByUniqueId uid (handleHangup e u ch cause txt num c d).1.2 =
      Some (if String.eqb uid u then set_ended e secs cause txt r else r).
Proof.
  intros Hr. unfold handleHangup.
  destruct (updateCallEnded_record e u cause txt d uid r Hr) as [secs Hu].
  exists secs.
  destruct (updateCallEnded e u cause txt d) as [[d1 b] out1]. simpl in Hu.
  destruct (activeCalls c !! u) as [call|]; [| done].
  pose proof (logCallEvent_calls e (ac_id call) "hangup" "Hangup" d1) as Hl.
  destruct (logCallEvent e (ac_id call) "hangup" "Hangup" d1) as [d2 logged].
  simpl in Hl. rewrite <- (same_calls_same_record uid _ _ Hl) in Hu. by destruct logged.
Qed.

Lemma handleRecordingFinished_keeps_record e name ok hok c d uid r :
  getCallByUniqueId uid d = Some r ->
  getCallByUniqueId uid (ARIClient.handleRecordingFinished e name ok hok c d).1.2 = Some r.
Proof.
  intros Hr. unfold ARIClient.handleRecordingFinished.
  destruct (ARIClient.scan _ _) as [[channelId data]|]; [| done].
  destruct (getCallByUniqueId channelId d) as [existing|].
  - cbn -[TranscriptionRepository.createTranscription].
    match goal with |- context [TranscriptionRepository.createTranscription e ?cid ?p d] =>
      pose proof (createTranscription_calls e cid p d) as Hc;
      destruct (TranscriptionRepository.createTranscription e cid p d) as [[d2 tid] out] end.
    simpl in Hc. rewrite <- (same_calls_same_record uid _ _ Hc) in Hr. by destruct tid.
  - match goal with |- context [createCall e ?cd d] =>
      pose proof (createCall_keeps_record e cd d uid r Hr) as Hk;
      destruct (createCall e cd d) as [[d1 callId] out1] end.
    simpl in Hk. destruct callId as [cid | msg]; [| done].
    match goal with |- context [TranscriptionRepository.createTranscription e cid ?p d1] =>
      pose proof (createTranscription_calls e cid p d1) as Hc;
      destruct (TranscriptionRepository.createTranscription e cid p d1) as [[d2 tid] out] end.
    simpl in Hc. rewrite <- (same_calls_same_record uid _ _ Hc) in Hk. by destruct tid.
Qed.

(** C9, as the specification has it, fails: an answered-code state change
    that comes after the hangup takes the ended record back to
    ['answered']. *)
Lemma ended_call_is_answered_again :
  call_state_of "abc.1" ended_call = Some "ended" /\
  call_state_of "abc.1"
    (step (utc_at 5000) (AMI (Newstate "abc.1" "SIP/100-0001" 6 "100")) ended_call).1
    = Some "answered".
Proof. by vm_compute. Qed.

(** C9, amended.  The record of a call stays in the store through every
    step of the gateway, and a step changes its state in two ways only: an
    answered-code state-change event for its [uniqueId] sets it to
    ['answered'], whatever it was (['ended'] included), and a hangup event
    for its [uniqueId] sets it to ['ended'].  Every other step leaves the
    state as it is; no step takes it back to ['initiated'] or
    ['in_stasis']. *)
Theorem call_state_changes_on_answer_and_hangup_only :
  forall (e : env) (ev : event) (s : system) (uid before : string),
    call_state_of uid s = Some before ->
    exists after,
      call_state_of uid (step e ev s).1 = Some after /\
      (after = before \/
       (after = "answered" /\
        exists channel calleridnum, ev = AMI (Newstate uid channel 6 calleridnum)) \/
       (after = "ended" /\
        exists channel cause causeTxt calleridnum,
          ev = AMI (Hangup uid channel cause causeTxt calleridnum))) /\
      (forall channel calleridnum,
         ev = AMI (Newstate uid channel 6 calleridnum) -> after = "answered") /\
      (forall channel cause causeTxt calleridnum,
         ev = AMI (Hangup uid channel cause causeTxt calleridnum) -> after = "ended").
Proof.
  intros e ev s uid before. unfold call_state_of.
  destruct (getCallByUniqueId uid (db s)) as [r|] eqn:Hr; [| done].
  simpl. intros [= <-].
  destruct ev as [a | a | i tid path]; simpl.
  - destruct a as [uniqueid ch num name exten | u ch st num | u sub dest dial dch |
                   | u ch cause txt num | | | | | | ]; unfold handle.
    + pose proof (handleNewChannel_keeps_record e uniqueid ch num name exten
                    (ami s) (db s) uid r Hr) as H.
      destruct (handleNewChannel _ _ _ _ _ _ _ _) as [[c d] out]. simpl in *.
      rewrite H. eexists. split; [done |]. split_and!; [by left | done | done].
    + pose proof (handleNewState_record e u ch st num (ami s) (db s) uid r Hr) as H.
      destruct (handleNewState _ _ _ _ _ _ _) as [[c d] out]. simpl in *.
      rewrite H. eexists. split; [done |].
      destruct (st =? 6)%Z eqn:Est; simpl.
      * apply Z.eqb_eq in Est. subst st.
        destruct (String.eqb uid u) eqn:Eu; simpl.
        -- apply String.eqb_eq in Eu. subst u.
           split_and!; [right; left; by eauto | done | done].
        -- apply String.eqb_neq in Eu.
           split_and!; [by left | intros ? ? [= ?]; done | done].
      * apply Z.eqb_neq in Est.
        split_and!; [by left | intros ? ? [= ? ? ?]; done | done].
    + pose proof (handleDial_calls e u sub dest dial dch (ami s) (db s)) as H.
      apply (same_calls_same_record uid) in H.
      destruct (handleDial _ _ _ _ _ _ _ _) as [[c d] out]. simpl in *.
      rewrite H, Hr. eexists. split; [done |]. split_and!; [by left | done | done].
    + simpl. rewrite Hr. eexists. split; [done |]. split_and!; [by left | done | done].
    + destruct (handleHangup_record e u ch cause txt num (ami s) (db s) uid r Hr)
        as [secs H].
      destruct (handleHangup _ _ _ _ _ _ _ _) as [[c d] out]. simpl in *.
      rewrite H. eexists. split; [done |].
      destruct (String.eqb uid u) eqn:Eu; simpl.
      * apply String.eqb_eq in Eu. subst u.
        split_and!; [right; right; by eauto 10 | done | done].
      * apply String.eqb_neq in Eu.
        split_and!; [by left | done | intros ? ? ? ? [= ?]; done].
    + simpl. rewrite Hr. eexists. split; [done |]. split_and!; [by left | done | done].
    + simpl. rewrite Hr. eexists. split; [done |]. split_and!; [by left | done | done].
    + simpl. rewrite Hr. eexists. split; [done |]. split_and!; [by left | done | done].
    + destruct (on_close (ami s)) as [c out]. simpl. rewrite Hr.
      eexists. split; [done |]. split_and!; [by left | done | done].
    + destruct (on_connectionTimeout (ami s)) as [c out]. simpl. rewrite Hr.
      eexists. split; [done |]. split_and!; [by left | done | done].
    + simpl. rewrite Hr. eexists. split; [done |]. split_and!; [by left | done | done].
  - assert (getCallByUniqueId uid (ARIClient.handle e a (ari s) (db s)).1.2 = Some r) as H.
    { destruct a; unfold ARIClient.handle;
        try (by apply handleRecordingFinished_keeps_record);
        try done;
        match goal with |- context [let '(_, _) := ?x in _] => by destruct x end. }
    destruct (ARIClient.handle e a (ari s) (db s)) as [[c d] out]. simpl in *.
    rewrite H. eexists. split; [done |]. split_and!; [by left | done | done].
  - pose proof (processRecording_calls i tid path (db s)) as H.
    apply (same_calls_same_record uid) in H.
    destruct (AIProcessor.processRecording i tid path (db s)) as [[d o] out]. simpl in *.
    rewrite H, Hr. eexists. split; [done |]. split_and!; [by left | done | done].
Qed.

End CallState.

(** ** The transcription repository and runner *)

Section Transcriptions.

Import TranscriptionRepository AIProcessor.

Lemma has_id_true id r : has_id id r = true <-> transcription_id r = id.
Proof. unfold has_id. apply Z.eqb_eq. Qed.

(** The first job with a given id, after an in-place rewrite that keeps
    ids. *)
Lemma find_update_job id id' f rows :
  (forall r, transcription_id (f r) = transcription_id r) ->
  find (has_id id) (sql_update (has_id id') f rows) =
  (fun r => if has_id id' r then f r else r) <$> find (has_id id) rows.
Proof.
  intros Hf. induction rows as [|r rows IH]; simpl; [done |].
  assert (has_id id (if has_id id' r then f r else r) = has_id id r) as ->.
  { unfold has_id. destruct (transcription_id r =? id')%Z; [by rewrite Hf | done]. }
  by destruct (has_id id r).
Qed.

Lemma sql_update_absent {A : Type} (p : A -> bool) (f : A -> A) (rows : list A) :
  find p rows = None -> sql_update p f rows = rows.
Proof.
  induction rows as [|r rows IH]; simpl; [done |].
  destruct (p r) eqn:E; [done |]. intros H. by rewrite IH.
Qed.

Lemma with_transcriptions_same d : with_transcriptions d (transcriptions d) (transcriptions_seq d) = d.
Proof. by destruct d. Qed.

(** The status a job has after each of the three status writes. *)
Lemma status_after_mark e id d job :
  getTranscriptionById id d = Some job ->
  status_of id (markAsProcessing e id d).1 = Some "processing".
Proof.
  unfold status_of, getTranscriptionById, markAsProcessing. simpl. intros Hjob.
  rewrite find_update_job by done. rewrite Hjob. simpl.
  apply find_some in Hjob as [_ ->]. done.
Qed.

Lemma status_after_complete e id text d job :
  getTranscriptionById id d = Some job ->
  status_of id (completeTranscription e id text d).1.1 = Some "completed".
Proof.
  unfold status_of, getTranscriptionById, completeTranscription. simpl. intros Hjob.
  rewrite find_update_job by done. rewrite Hjob. simpl.
  apply find_some in Hjob as [_ ->]. done.
Qed.

Lemma status_after_fail e id msg d job :
  getTranscriptionById id d = Some job ->
  status_of id (failTranscription e id msg d).1.1 = Some "failed".
Proof.
  unfold status_of, getTranscriptionById, failTranscription. simpl. intros Hjob.
  rewrite find_update_job by done. rewrite Hjob. simpl.
  apply find_some in Hjob as [_ ->]. done.
Qed.

(** What [processRecording] does to the table: the rows with the job's id
    end up completed, or failed when an error was raised. *)
Lemma processRecording_transcriptions i id path d :
  transcriptions (processRecording i id path d).1.1 =
  map (fun r =>
         if has_id id r then
           match fault i with
           | None => set_completed (at_end i) (generateMockTranscription (draw i))
                       (set_processing (at_start i) r)
           | Some msg => set_failed (at_end i) msg (set_processing (at_start i) r)
           end
         else r) (transcriptions d).
Proof.
  unfold processRecording, markAsProcessing, completeTranscription, failTranscription.
  destruct (fault i); simpl; unfold sql_update; rewrite map_map; apply map_ext;
    intros r; unfold has_id; simpl; destruct (transcription_id r =? id)%Z eqn:E; simpl.
  all: try rewrite E; done.
Qed.

(** ** [ORDER BY created_at ASC] *)

Lemma insert_by_created_at_elem r r0 rows :
  r ∈ insert_by_created_at r0 rows <-> r = r0 \/ r ∈ rows.
Proof.
  induction rows as [|r' rows IH]; simpl.
  - rewrite list_elem_of_singleton, elem_of_nil. tauto.
  - destruct (t_created_at r0 <? t_created_at r')%Z.
    + by rewrite elem_of_cons.
    + rewrite !elem_of_cons, IH. tauto.
Qed.

Lemma insert_by_created_at_HdRel a r rows :
  created_before a r -> HdRel created_before a rows ->
  HdRel created_before a (insert_by_created_at r rows).
Proof.
  intros Har Hhd. destruct rows as [|r' rows]; simpl; [by constructor |].
  destruct (t_created_at r <? t_created_at r')%Z; constructor; [done |].
  by inversion Hhd.
Qed.

Lemma insert_by_created_at_Sorted r rows :
  Sorted created_before rows -> Sorted created_before (insert_by_created_at r rows).
Proof.
  induction 1 as [|r' rows Hsorted IH Hhd]; simpl.
  - repeat constructor.
  - destruct (t_created_at r <? t_created_at r')%Z eqn:E.
    + constructor; [by constructor |]. constructor.
      unfold created_before. apply Z.ltb_lt in E. lia.
    + constructor; [done |]. apply insert_by_created_at_HdRel; [| done].
      unfold created_before. apply Z.ltb_ge in E. lia.
Qed.

Lemma order_by_created_at_acc acc rows :
  Sorted created_before acc ->
  Sorted created_before (foldl (fun acc r => insert_by_created_at r acc) acc rows) /\
  forall r, r ∈ foldl (fun acc r => insert_by_created_at r acc) acc rows <->
            r ∈ acc \/ r ∈ rows.
Proof.
  revert acc. induction rows as [|r0 rows IH]; intros acc Hacc; simpl.
  - split; [done |]. intros r. rewrite elem_of_nil. tauto.
  - destruct (IH (insert_by_created_at r0 acc)) as [Hs Hin].
    { by apply insert_by_created_at_Sorted. }
    split; [done |]. intros r.
    rewrite Hin, insert_by_created_at_elem, elem_of_cons. tauto.
Qed.

Lemma getPendingTranscriptions_elem d r :
  r ∈ getPendingTranscriptions d <->
  r ∈ transcriptions d /\ transcription_status r = "pending".
Proof.
  unfold getPendingTranscriptions, order_by_created_at.
  destruct (order_by_created_at_acc [] (List.filter is_pending (transcriptions d)))
    as [_ Hin]; [constructor |].
  rewrite Hin, elem_of_nil, !list_elem_of_In, filter_In.
  unfold is_pending. rewrite String.eqb_eq. tauto.
Qed.

Lemma getPendingTranscriptions_Sorted d :
  Sorted created_before (getPendingTranscriptions d).
Proof.
  unfold getPendingTranscriptions, order_by_created_at.
  apply order_by_created_at_acc. constructor.
Qed.

(** ** The loop of the batch retry *)

(** Going through [rows] one after the other leaves each job as it was,
    unless its id is one of those gone through: then it is settled. *)
Lemma process_each_transcriptions inputs rows : forall d,
  Forall2 (fun r r' =>
             (transcription_id r ∈ map transcription_id rows -> settled r') /\
             (transcription_id r ∉ map transcription_id rows -> r' = r))
          (transcriptions d) (transcriptions (process_each inputs rows d).1).
Proof.
  induction rows as [|r0 rows IH]; intros d.
  - simpl. apply Forall2_same_length_lookup. split; [done |].
    intros k r r' Hr Hr'. split; [by rewrite elem_of_nil |]. congruence.
  - simpl.
    pose proof (processRecording_transcriptions (inputs (transcription_id r0))
                  (transcription_id r0) (recording_path r0) d) as Hone.
    destruct (processRecording (inputs (transcription_id r0)) (transcription_id r0)
                (recording_path r0) d) as [[d1 o] out1].
    simpl in Hone. specialize (IH d1).
    destruct (process_each inputs rows d1) as [d2 out2]. simpl in *.
    rewrite Hone in IH. apply Forall2_fmap_l in IH.
    eapply Forall2_impl; [exact IH |].
    intros r r' [Hin Hout]. simpl in *.
    assert (transcription_id
              (if has_id (transcription_id r0) r
               then match fault (inputs (transcription_id r0)) with
                    | Some msg =>
                        set_failed (at_end (inputs (transcription_id r0))) msg
                          (set_processing (at_start (inputs (transcription_id r0))) r)
                    | None =>
                        set_completed (at_end (inputs (transcription_id r0)))
                          (generateMockTranscription (draw (inputs (transcription_id r0))))
                          (set_processing (at_start (inputs (transcription_id r0))) r)
                    end
               else r) = transcription_id r) as Hid.
    { destruct (has_id _ r); [| done]. by destruct (fault _). }
    rewrite Hid in Hin, Hout. split.
    + intros Hmem. apply elem_of_cons in Hmem as [Heq | Hmem]; [| by apply Hin].
      destruct (decide (transcription_id r ∈ map transcription_id rows)) as [Hd | Hd];
        [by apply Hin |].
      rewrite (Hout Hd).
      assert (has_id (transcription_id r0) r = true) as -> by by apply has_id_true.
      unfold settled. destruct (fault _); simpl; [by right | by left].
    + intros Hnot. rewrite not_elem_of_cons in Hnot. destruct Hnot as [Hne Hnot].
      rewrite (Hout Hnot).
      assert (has_id (transcription_id r0) r = false) as ->; [| done].
      unfold has_id. apply Z.eqb_neq. congruence.
Qed.

End Transcriptions.

Section TranscriptionClaims.

Import TranscriptionRepository AIProcessor.

(** C2, as the specification has it, fails: [failTranscription] on a job
    that is already completed makes it failed. *)
Lemma failTranscription_overwrites_completed :
  status_of 1 one_completed_job = Some "completed" /\
  status_of 1 (failTranscription (utc_at 20000) 1 "late failure" one_completed_job).1.1
    = Some "failed".
Proof. by vm_compute. Qed.

(** C2, amended.  The runner takes a pending job to ['processing'] and
    then to ['completed'], or to ['failed'] when an error was raised:
    the store [processRecording] leaves is the store that
    [completeTranscription], or [failTranscription] on an error, leaves
    when it is given the store that [markAsProcessing] left, in which the
    job is ['processing']; and the job keeps the stamp of the marking as
    [processing_started_at].  The three status writes of the repository
    look at the id only: on a job that is there, whatever its status,
    [markAsProcessing] leaves ['processing'], [completeTranscription]
    leaves ['completed'] and [failTranscription] leaves ['failed']; they
    change nothing only when no job has the id. *)
Theorem transcription_status_writes_look_at_id_only :
  forall (e : env) (id : Z) (text message : string) (d : database),
    (forall job, getTranscriptionById id d = Some job ->
       status_of id (markAsProcessing e id d).1 = Some "processing" /\
       status_of id (completeTranscription e id text d).1.1 = Some "completed" /\
       status_of id (failTranscription e id message d).1.1 = Some "failed") /\
    (getTranscriptionById id d = None ->
       (markAsProcessing e id d).1 = d /\
       (completeTranscription e id text d).1.1 = d /\
       (failTranscription e id message d).1.1 = d) /\
    (forall i path, status_of id d = Some "pending" ->
       status_of id (markAsProcessing (at_start i) id d).1 = Some "processing" /\
       (processRecording i id path d).1.1 =
         match fault i with
         | None =>
             (completeTranscription (at_end i) id (generateMockTranscription (draw i))
                (markAsProcessing (at_start i) id d).1).1.1
         | Some raised =>
             (failTranscription (at_end i) id raised
                (markAsProcessing (at_start i) id d).1).1.1
         end /\
       exists job,
         getTranscriptionById id (processRecording i id path d).1.1 = Some job /\
         transcription_status job =
           match fault i with Some _ => "failed" | None => "completed" end /\
         processing_started_at job = Some (datetime_now (at_start i))).
Proof.
  intros e id text message d. split_and!.
  - intros job Hjob. split_and!.
    + by eapply status_after_mark.
    + by eapply status_after_complete.
    + by eapply status_after_fail.
  - intros Hnone. unfold getTranscriptionById in Hnone.
    unfold markAsProcessing, completeTranscription, failTranscription. simpl.
    rewrite !sql_update_absent by done. by rewrite with_transcriptions_same.
  - intros i path Hpending. unfold status_of in Hpending.
    destruct (getTranscriptionById id d) as [job|] eqn:Hjob; [| done].
    split; [by eapply status_after_mark |].
    split.
    { unfold processRecording. by destruct (fault i). }
    unfold getTranscriptionById in *.
    rewrite processRecording_transcriptions.
    change (map ?f (transcriptions d)) with (sql_update (has_id id)
      (fun r => match fault i with
                | Some msg => set_failed (at_end i) msg (set_processing (at_start i) r)
                | None => set_completed (at_end i) (generateMockTranscription (draw i))
                            (set_processing (at_start i) r)
                end) (transcriptions d)).
    rewrite find_update_job by (intros r; by destruct (fault i)).
    rewrite Hjob. simpl. eexists. split; [done |].
    apply find_some in Hjob as [_ ->]. by destruct (fault i).
Qed.

(** C3, as the specification has it, fails: a job in ['processing'] is in
    no final status, and the query of the batch retry does not fetch
    it. *)
Lemma processing_job_is_not_fetched :
  status_of 1 one_processing_job = Some "processing" /\
  getPendingTranscriptions one_processing_job = [].
Proof. by vm_compute. Qed.

(** The batch retry as it is written: the query is called without
    [await], the loop is given the promise, and the call ends in a
    [TypeError] with the store untouched. *)
Lemma retryFailed_throws inputs d :
  retryFailed inputs d =
    (d, Throw "TypeError: pending is not iterable",
     [Log "info" "Retrying undefined pending transcriptions"]).
Proof. done. Qed.

(** C3, amended.  The query of the batch retry fetches the jobs whose
    status is ['pending'], those and no others, in ascending order of
    creation time; and taking the fetched jobs through the runner one
    after the other, each run finished before the next starts, as the
    loop body does, leaves no job pending: each job that was pending is
    completed or failed. *)
Theorem getPendingTranscriptions_fetches_the_pending_in_order :
  forall (d : database) (inputs : Z -> run_input),
    (forall r, r ∈ getPendingTranscriptions d <->
               r ∈ transcriptions d /\ transcription_status r = "pending") /\
    Sorted created_before (getPendingTranscriptions d) /\
    Forall2 (fun r r' =>
               (transcription_status r = "pending" -> settled r') /\
               transcription_status r' <> "pending")
            (transcriptions d)
            (transcriptions (process_each inputs (getPendingTranscriptions d) d).1).
Proof.
  intros d inputs. split_and!.
  - apply getPendingTranscriptions_elem.
  - apply getPendingTranscriptions_Sorted.
  - pose proof (process_each_transcriptions inputs (getPendingTranscriptions d) d) as H.
    apply Forall2_same_length_lookup. apply Forall2_same_length_lookup in H as [Hlen H].
    split; [done |]. intros k r r' Hr Hr'. destruct (H k r r' Hr Hr') as [Hin Hout].
    assert (transcription_status r = "pending" ->
            transcription_id r ∈ map transcription_id (getPendingTranscriptions d)) as Hp.
    { intros Hst. apply list_elem_of_fmap. exists r. split; [done |].
      apply getPendingTranscriptions_elem. split; [| done].
      by eapply list_elem_of_lookup_2. }
    split.
    + intros Hst. by apply Hin, Hp.
    + destruct (decide (transcription_id r ∈
                        map transcription_id (getPendingTranscriptions d))) as [Hd | Hd].
      * destruct (Hin Hd) as [-> | ->]; done.
      * rewrite (Hout Hd). intros Hst. by apply Hd, Hp.
Qed.

End TranscriptionClaims.

(** ** The connection supervisor of the event-stream client *)

Section Supervisor.

Import AMIClient.

Lemma scheduleReconnect_exhausted c :
  shouldReconnect c = true ->
  (0 < maxReconnectAttempts c)%Z ->
  (maxReconnectAttempts c <= reconnectAttempts c)%Z ->
  scheduleReconnect c = (c, [Log "error" "Max reconnect attempts reached"]).
Proof.
  intros Hs Hpos Hmax. unfold scheduleReconnect. rewrite Hs. simpl.
  apply Z.ltb_lt in Hpos. apply Z.leb_le in Hmax. by rewrite Hpos, Hmax.
Qed.

Lemma scheduleReconnect_again c :
  shouldReconnect c = true ->
  (maxReconnectAttempts c <= 0 \/ reconnectAttempts c < maxReconnectAttempts c)%Z ->
  scheduleReconnect c =
    (with_connection c (isConnected c) (reconnectAttempts c + 1) true true,
     (if reconnectTimer c then [ClearTimeout "reconnectTimer"] else []) ++
     [Log "info" "Scheduling AMI reconnect attempt";
      SetTimeout (reconnectInterval c) "reconnectTimer"]).
Proof.
  intros Hs Hmax. unfold scheduleReconnect. rewrite Hs. simpl.
  destruct (0 <? maxReconnectAttempts c)%Z eqn:E1; [| done].
  destruct (maxReconnectAttempts c <=? reconnectAttempts c)%Z eqn:E2; [| done].
  apply Z.ltb_lt in E1. apply Z.leb_le in E2. lia.
Qed.

(** The reconnect timer's callback only starts the next attempt. *)
Lemma on_reconnectTimer_state c : (on_reconnectTimer c).1 = c.
Proof. done. Qed.

(** The control-channel client has the same policy, word for word. *)
Lemma ari_scheduleReconnect_exhausted (c : ARIClient.ari_client) :
  ARIClient.shouldReconnect c = true ->
  (0 < ARIClient.maxReconnectAttempts c)%Z ->
  (ARIClient.maxReconnectAttempts c <= ARIClient.reconnectAttempts c)%Z ->
  ARIClient.scheduleReconnect c = (c, [Log "error" "Max reconnect attempts reached"]).
Proof.
  intros Hs Hpos Hmax. unfold ARIClient.scheduleReconnect. rewrite Hs. simpl.
  apply Z.ltb_lt in Hpos. apply Z.leb_le in Hmax. by rewrite Hpos, Hmax.
Qed.

(** One failure below the limit, or with no limit: the client is
    disconnected, the attempt is counted and the timer is armed. *)
Lemma connection_failure_below_limit c :
  shouldReconnect c = true ->
  (maxReconnectAttempts c <= 0 \/ reconnectAttempts c < maxReconnectAttempts c)%Z ->
  isConnected (connection_failure c).1 = false /\
  shouldReconnect (connection_failure c).1 = true /\
  maxReconnectAttempts (connection_failure c).1 = maxReconnectAttempts c /\
  reconnectAttempts (connection_failure c).1 = (reconnectAttempts c + 1)%Z /\
  existsb is_timer (connection_failure c).2 = true.
Proof.
  intros Hs Hmax. unfold connection_failure, on_close, on_connectionTimeout.
  destruct (isConnected c) eqn:Hc; simpl.
  - rewrite scheduleReconnect_again by done. simpl.
    split_and!; try done. by destruct (reconnectTimer c).
  - rewrite scheduleReconnect_again by done. simpl. rewrite Hc.
    split_and!; try done. by destruct (reconnectTimer c).
Qed.

(** One failure at the limit, the client being disconnected: two log
    records and nothing else. *)
Lemma connection_failure_at_limit c :
  shouldReconnect c = true ->
  isConnected c = false ->
  (0 < maxReconnectAttempts c)%Z ->
  (maxReconnectAttempts c <= reconnectAttempts c)%Z ->
  connection_failure c =
    (c, [Log "warn" "AMI connection timeout, will retry...";
         Log "error" "Max reconnect attempts reached"]).
Proof.
  intros Hs Hc Hpos Hmax. unfold connection_failure, on_connectionTimeout.
  rewrite Hc. simpl. by rewrite scheduleReconnect_exhausted.
Qed.

(** The client after [n] failures in a row since the last success, the
    limit being 3. *)
Lemma after_failures_limit_3 c n :
  maxReconnectAttempts c = 3%Z ->
  reconnectAttempts c = 0%Z ->
  shouldReconnect c = true ->
  shouldReconnect (after_failures n c) = true /\
  maxReconnectAttempts (after_failures n c) = 3%Z /\
  reconnectAttempts (after_failures n c) = Z.min (Z.of_nat n) 3 /\
  (n <> 0%nat -> isConnected (after_failures n c) = false).
Proof.
  intros Hmax Hzero Hs. induction n as [|n IH].
  - simpl. by rewrite Hzero.
  - destruct IH as (IHs & IHmax & IHatt & IHc).
    change (after_failures (S n) c) with (connection_failure (after_failures n c)).1.
    destruct (decide (n < 3)%nat) as [Hlt | Hge].
    + destruct (connection_failure_below_limit (after_failures n c)) as (H1 & H2 & H3 & H4 & _);
        [done | lia |].
      split_and!; [done | congruence | lia | done].
    + rewrite connection_failure_at_limit; [| done | apply IHc; lia | lia | lia].
      simpl. split_and!; [done | done | lia |]. intros _. apply IHc. lia.
Qed.

(** The client after [n] failures in a row when there is no limit. *)
Lemma after_failures_unlimited c n :
  maxReconnectAttempts c = 0%Z ->
  shouldReconnect c = true ->
  shouldReconnect (after_failures n c) = true /\
  maxReconnectAttempts (after_failures n c) = 0%Z /\
  reconnectAttempts (after_failures n c) = (reconnectAttempts c + Z.of_nat n)%Z.
Proof.
  intros Hmax Hs. induction n as [|n IH].
  - simpl. split_and!; [done | done | lia].
  - destruct IH as (IHs & IHmax & IHatt).
    change (after_failures (S n) c) with (connection_failure (after_failures n c)).1.
    destruct (connection_failure_below_limit (after_failures n c)) as (H1 & H2 & H3 & H4 & _);
      [done | lia |].
    split_and!; [done | congruence | lia].
Qed.

(** C7, as the specification has it, fails: when the limit of 3 is
    reached the supervisor lets out two log records and nothing else; no
    event is emitted. *)
Lemma exhausted_supervisor_emits_nothing :
  (connection_failure (after_failures 3 (new_client 3 5000))).2 =
    [Log "warn" "AMI connection timeout, will retry...";
     Log "error" "Max reconnect attempts reached"] /\
  ~ exists name, In (Emit name) (connection_failure (after_failures 3 (new_client 3 5000))).2.
Proof.
  split; [done |]. intros [name Hin]. vm_compute in Hin.
  destruct Hin as [H | [H | []]]; discriminate H.
Qed.

(** C7, amended.  Take a supervisor with [maxReconnectAttempts = 3] at
    its last success or at its start ([reconnectAttempts = 0]).  Each of
    the first three connection failures in a row arms the reconnect
    timer.  Every failure after them arms no timer, emits no event and
    changes nothing: the supervisor logs the error ['Max reconnect
    attempts reached'] and returns, and [getStatus] reports
    [reconnectAttempts = 3] and [connected = false].  With
    [maxReconnectAttempts = 0] every failure arms the timer again and is
    counted. *)
Theorem supervisor_stops_after_three_attempts :
  forall (c : ami_client) (k n : nat),
    shouldReconnect c = true ->
    (maxReconnectAttempts c = 3%Z -> reconnectAttempts c = 0%Z ->
       (forall j, (j < 3)%nat ->
          existsb is_timer (connection_failure (after_failures j c)).2 = true) /\
       connection_failure (after_failures (3 + k) c) =
         (after_failures (3 + k) c,
          [Log "warn" "AMI connection timeout, will retry...";
           Log "error" "Max reconnect attempts reached"]) /\
       connected (getStatus (after_failures (3 + k) c)) = false /\
       st_reconnectAttempts (getStatus (after_failures (3 + k) c)) = 3%Z) /\
    (maxReconnectAttempts c = 0%Z ->
       existsb is_timer (connection_failure (after_failures n c)).2 = true /\
       reconnectAttempts (connection_failure (after_failures n c)).1
         = (reconnectAttempts c + Z.of_nat n + 1)%Z).
Proof.
  intros c k n Hs. split.
  - intros Hmax Hzero.
    pose proof (after_failures_limit_3 c (3 + k) Hmax Hzero Hs) as (Hs3 & Hmax3 & Hatt3 & Hc3).
    split_and!.
    + intros j Hj.
      pose proof (after_failures_limit_3 c j Hmax Hzero Hs) as (Hsj & Hmaxj & Hattj & _).
      apply connection_failure_below_limit; [done | lia].
    + apply connection_failure_at_limit; [done | apply Hc3; lia | lia | lia].
    + change (isConnected (after_failures (3 + k) c) = false). apply Hc3. lia.
    + change (reconnectAttempts (after_failures (3 + k) c) = 3%Z). lia.
  - intros Hmax.
    pose proof (after_failures_unlimited c n Hmax Hs) as (Hsn & Hmaxn & Hattn).
    destruct (connection_failure_below_limit (after_failures n c)) as (_ & _ & _ & H4 & H5);
      [done | lia |].
    split; [done | lia].
Qed.

End Supervisor.

(** ** The session index *)

Section SessionIndex.

Import ARIClient.

Lemma map_get_None k m : map_get k m = None <-> k ∉ map fst m.
Proof.
  induction m as [|[k' d] m IH]; simpl.
  - split; [intros _; apply not_elem_of_nil | done].
  - destruct (String.eqb k' k) eqn:E.
    + apply String.eqb_eq in E. subst. split; [done |].
      intros H. exfalso. apply H. by left.
    + apply String.eqb_neq in E. rewrite IH, not_elem_of_cons. split; [by auto | tauto].
Qed.

Lemma map_get_elem k d m : map_get k m = Some d -> (k, d) ∈ m.
Proof.
  induction m as [|[k' d'] m IH]; simpl; [done |].
  destruct (String.eqb k' k) eqn:E.
  - apply String.eqb_eq in E. intros [= ->]. subst. by left.
  - intros H. right. by apply IH.
Qed.

Lemma map_get_key k d m : map_get k m = Some d -> k ∈ map fst m.
Proof.
  intros H. apply map_get_elem in H. apply list_elem_of_fmap. by exists (k, d).
Qed.

Lemma elem_map_get k d m : NoDup (map fst m) -> (k, d) ∈ m -> map_get k m = Some d.
Proof.
  induction m as [|[k' d'] m IH]; simpl; intros Hnd Hin.
  - by apply elem_of_nil in Hin.
  - apply NoDup_cons in Hnd as [Hfresh Hnd].
    apply elem_of_cons in Hin as [[= <- <-] | Hin].
    + by rewrite String.eqb_refl.
    + destruct (String.eqb k' k) eqn:E; [| by apply IH].
      apply String.eqb_eq in E. subst. exfalso. apply Hfresh.
      apply list_elem_of_fmap. by exists (k, d).
Qed.

Lemma map_modify_keys k f m : map fst (map_modify k f m) = map fst m.
Proof.
  induction m as [|[k' d] m IH]; simpl; [done |].
  destruct (String.eqb k' k); simpl; [done | by rewrite IH].
Qed.

Lemma map_get_modify k k' f m :
  map_get k (map_modify k' f m) =
  if decide (k = k') then f <$> map_get k m else map_get k m.
Proof.
  induction m as [|[k0 d] m IH]; simpl; [by case_decide |].
  destruct (String.eqb k0 k') eqn:E'; simpl.
  - apply String.eqb_eq in E'. subst k0.
    destruct (String.eqb k' k) eqn:E.
    + apply String.eqb_eq in E. subst. by rewrite decide_True.
    + apply String.eqb_neq in E. by rewrite decide_False.
  - apply String.eqb_neq in E'.
    destruct (String.eqb k0 k) eqn:E; [| done].
    apply String.eqb_eq in E. subst. by rewrite decide_False.
Qed.

Lemma map_set_fresh k v m : k ∉ map fst m -> map_set k v m = m ++ [(k, v)].
Proof.
  induction m as [|[k' d] m IH]; simpl; [done |].
  rewrite not_elem_of_cons. intros [Hne Hfresh].
  destruct (String.eqb k' k) eqn:E.
  - apply String.eqb_eq in E. congruence.
  - by rewrite IH.
Qed.

Lemma map_set_present k v m : k ∈ map fst m -> map fst (map_set k v m) = map fst m.
Proof.
  induction m as [|[k' d] m IH]; simpl; [by intros ?%elem_of_nil |].
  destruct (String.eqb k' k) eqn:E; simpl.
  - apply String.eqb_eq in E. by subst.
  - apply String.eqb_neq in E. intros [? | Hin]%elem_of_cons; [congruence |].
    by rewrite IH.
Qed.

Lemma map_get_set k k' v m :
  map_get k (map_set k' v m) = if decide (k = k') then Some v else map_get k m.
Proof.
  induction m as [|[k0 d] m IH]; simpl.
  - destruct (String.eqb k' k) eqn:E.
    + apply String.eqb_eq in E. subst. by rewrite decide_True.
    + apply String.eqb_neq in E. by rewrite decide_False.
  - destruct (String.eqb k0 k') eqn:E'; simpl.
    + apply String.eqb_eq in E'. subst k0.
      destruct (String.eqb k' k) eqn:E.
      * apply String.eqb_eq in E. subst. by rewrite decide_True.
      * apply String.eqb_neq in E. by rewrite decide_False.
    + apply String.eqb_neq in E'.
      destruct (String.eqb k0 k) eqn:E; [| done].
      apply String.eqb_eq in E. subst. by rewrite decide_False.
Qed.

Lemma map_delete_sublist k m : sublist (map_delete k m) m.
Proof.
  induction m as [|[k' d] m IH]; simpl; [done |].
  destruct (String.eqb k' k); [by apply sublist_cons | by apply sublist_skip].
Qed.

Lemma map_get_delete k k' m :
  NoDup (map fst m) ->
  map_get k (map_delete k' m) = if decide (k = k') then None else map_get k m.
Proof.
  induction m as [|[k0 d] m IH]; simpl; intros Hnd; [by case_decide |].
  apply NoDup_cons in Hnd as [Hfresh Hnd].
  destruct (String.eqb k0 k') eqn:E'; simpl.
  - apply String.eqb_eq in E'. subst k0.
    destruct (String.eqb k' k) eqn:E.
    + apply String.eqb_eq in E. subst. rewrite decide_True by done.
      by apply map_get_None.
    + apply String.eqb_neq in E. by rewrite decide_False.
  - apply String.eqb_neq in E'.
    destruct (String.eqb k0 k) eqn:E; [| by apply IH].
    apply String.eqb_eq in E. subst. by rewrite decide_False.
Qed.

Lemma wf_sessions_modify k f m :
  (forall d, s_channel (f d) = s_channel d) ->
  wf_sessions m -> wf_sessions (map_modify k f m).
Proof.
  intros Hf [Hnd Hch]. split; [by rewrite map_modify_keys |].
  clear Hnd. induction Hch as [|[k' d] m Hd Hch IH]; simpl; [done |].
  destruct (String.eqb k' k); constructor; simpl in *; try done.
  by rewrite Hf.
Qed.

Lemma wf_sessions_set k v m :
  s_channel v = k -> wf_sessions m -> wf_sessions (map_set k v m).
Proof.
  intros Hv [Hnd Hch]. destruct (decide (k ∈ map fst m)) as [Hin | Hfresh].
  - split; [by rewrite map_set_present |]. clear Hnd Hin.
    induction Hch as [|[k' d] m Hd Hch IH]; simpl; [by repeat constructor |].
    destruct (String.eqb k' k); constructor; done.
  - rewrite map_set_fresh by done. split.
    + rewrite map_app. apply NoDup_app. split_and!; [done | | apply NoDup_singleton].
      intros x Hx Hx'. apply list_elem_of_singleton in Hx'. by subst.
    + apply Forall_app. split; [done |]. by repeat constructor.
Qed.

Lemma wf_sessions_delete k m : wf_sessions m -> wf_sessions (map_delete k m).
Proof.
  intros [Hnd Hch]. pose proof (map_delete_sublist k m) as Hsub. split.
  - eapply sublist_NoDup; [exact Hnd |]. by apply fmap_sublist.
  - rewrite Forall_forall in Hch. apply Forall_forall. intros kd Hin.
    apply Hch. eapply elem_of_sublist; done.
Qed.

Lemma scan_Some test m k d :
  scan test m = Some (k, d) -> (k, d) ∈ m /\ test d = true.
Proof.
  unfold scan. intros H. apply find_some in H as [Hin Ht].
  split; [by apply list_elem_of_In | done].
Qed.

Lemma scan_None test m k d :
  scan test m = None -> (k, d) ∈ m -> test d = false.
Proof.
  unfold scan. intros H Hin. apply list_elem_of_In in Hin.
  by apply (find_none _ _ H (k, d)).
Qed.

Lemma scan_app_fresh test m k d :
  scan test m = None -> test d = true -> scan test (m ++ [(k, d)]) = Some (k, d).
Proof.
  unfold scan. induction m as [|[k' d'] m IH]; simpl; intros Hnone Ht.
  - by rewrite Ht.
  - destruct (test d'); [done |]. by apply IH.
Qed.

End SessionIndex.

(** ** Correlating completion events with sessions *)

Section Correlation.

Import ARIClient.

Lemma scan_map_get test m k d :
  wf_sessions m -> scan test m = Some (k, d) ->
  map_get k m = Some d /\ s_channel d = k /\ test d = true.
Proof.
  intros [Hnd Hch] Hscan. apply scan_Some in Hscan as [Hin Ht].
  split_and!; [by apply elem_map_get | | done].
  rewrite Forall_forall in Hch. by apply (Hch (k, d)).
Qed.

(** The session index after [handlePlaybackFinished]. *)
Lemma handlePlaybackFinished_sessions e playbackId ok hok c :
  wf_sessions (activeChannels c) ->
  activeChannels (handlePlaybackFinished e playbackId ok hok c).1 =
  match scan (holds_playback playbackId) (activeChannels c) with
  | Some (k, d) =>
      map_modify k (set_recording (recording_name e k))
        (map_modify k clear_pending (activeChannels c))
  | None => activeChannels c
  end.
Proof.
  intros Hwf. unfold handlePlaybackFinished.
  destruct (scan (holds_playback playbackId) (activeChannels c)) as [[k d]|] eqn:Hscan;
    [| done].
  destruct (scan_map_get _ _ _ _ Hwf Hscan) as (Hget & Hch & _).
  unfold startRecording. simpl. rewrite Hch, map_get_modify, decide_True by done.
  by rewrite Hget.
Qed.

(** The session index after [handleRecordingFinished]. *)
Lemma handleRecordingFinished_sessions e name ok hok c d :
  activeChannels (handleRecordingFinished e name ok hok c d).1.1 =
  match scan (holds_recording name) (activeChannels c) with
  | Some (k, _) => map_modify k (set_state "processing") (activeChannels c)
  | None => activeChannels c
  end.
Proof.
  unfold handleRecordingFinished.
  destruct (scan (holds_recording name) (activeChannels c)) as [[k data]|]; [| done].
  destruct (CallRepository.getCallByUniqueId k d) as [existing|].
  - cbn -[TranscriptionRepository.createTranscription].
    destruct (TranscriptionRepository.createTranscription _ _ _ _) as [[d2 tid] out].
    by destruct tid.
  - destruct (CallRepository.createCall _ _ _) as [[d1 callId] out1].
    destruct callId as [cid | msg]; [| done].
    destruct (TranscriptionRepository.createTranscription _ _ _ _) as [[d2 tid] out].
    by destruct tid.
Qed.

Lemma awaiting_after_playback e playbackId ok hok c :
  awaiting_answer (handlePlaybackFinished e playbackId ok hok c).1 = awaiting_answer c.
Proof.
  unfold handlePlaybackFinished.
  by destruct (scan (holds_playback playbackId) (activeChannels c)) as [[k d]|].
Qed.

Lemma awaiting_after_recording e name ok hok c d :
  awaiting_answer (handleRecordingFinished e name ok hok c d).1.1 = awaiting_answer c.
Proof.
  unfold handleRecordingFinished.
  destruct (scan (holds_recording name) (activeChannels c)) as [[k data]|]; [| done].
  destruct (CallRepository.getCallByUniqueId k d) as [existing|].
  - cbn -[TranscriptionRepository.createTranscription].
    destruct (TranscriptionRepository.createTranscription _ _ _ _) as [[d2 tid] out].
    by destruct tid.
  - destruct (CallRepository.createCall _ _ _) as [[d1 callId] out1].
    destruct callId as [cid | msg]; [| done].
    destruct (TranscriptionRepository.createTranscription _ _ _ _) as [[d2 tid] out].
    by destruct tid.
Qed.

(** A scan that modifies the entry it found touches that entry only. *)
Lemma touched_modify test f m k :
  wf_sessions m ->
  touched m (match scan test m with
             | Some (k0, _) => map_modify k0 f m
             | None => m
             end) k ->
  exists d, scan test m = Some (k, d) /\ map_get k m = Some d /\ test d = true.
Proof.
  intros Hwf. unfold touched.
  destruct (scan test m) as [[k0 d]|] eqn:Hscan; [| done].
  destruct (scan_map_get _ _ _ _ Hwf Hscan) as (Hget & _ & Ht).
  rewrite map_get_modify. case_decide as Hk; [| done]. subst k0. by eauto.
Qed.

(** A session that passes the test makes the scan find one. *)
Lemma scan_finds test m k d :
  map_get k m = Some d -> test d = true ->
  exists k0 d0, scan test m = Some (k0, d0).
Proof.
  intros Hget Ht. destruct (scan test m) as [[k0 d0]|] eqn:Hscan; [by eauto |].
  apply map_get_elem in Hget. pose proof (scan_None _ _ _ _ Hscan Hget). congruence.
Qed.

Lemma holds_playback_true key s :
  holds_playback key s = true <-> currentPlayback s = Some key /\ pendingRecording s = true.
Proof.
  unfold holds_playback. destruct (currentPlayback s) as [p|].
  - rewrite andb_true_iff, String.eqb_eq. split; [by intros [-> ->] | by intros [[= ->] ->]].
  - split; [done | by intros [? _]].
Qed.

Lemma holds_recording_true key s :
  holds_recording key s = true <-> recordingName s = Some key.
Proof.
  unfold holds_recording. destruct (recordingName s) as [n|].
  - rewrite String.eqb_eq. split; [by intros -> | by intros [= ->]].
  - done.
Qed.

(** What [handlePlaybackFinished] lets out for the session it found. *)
Lemma handlePlaybackFinished_records e key ok hok c k0 s0 :
  scan (holds_playback key) (activeChannels c) = Some (k0, s0) ->
  RecordCmd (s_channel s0) (recording_name e (s_channel s0)) (recordingDuration c)
    ∈ (handlePlaybackFinished e key ok hok c).2.
Proof.
  intros Hscan. unfold handlePlaybackFinished, startRecording. rewrite Hscan. simpl.
  do 4 apply list_elem_of_further. apply list_elem_of_here.
Qed.

(** What [handleRecordingFinished] lets out for the session it found. *)
Lemma handleRecordingFinished_says_goodbye e key ok hok c d k0 s0 :
  scan (holds_recording key) (activeChannels c) = Some (k0, s0) ->
  PlayCmd (s_channel s0) "sound:vm-goodbye" None
    ∈ (handleRecordingFinished e key ok hok c d).2.
Proof.
  intros Hscan. unfold handleRecordingFinished. rewrite Hscan.
  assert (forall (pre post : list output) (o : output), o ∈ pre ++ [o] ++ post) as Hmid.
  { intros pre post o. apply elem_of_app. right. apply list_elem_of_here. }
  destruct (CallRepository.getCallByUniqueId k0 d) as [existing|].
  - cbn -[TranscriptionRepository.createTranscription].
    destruct (TranscriptionRepository.createTranscription _ _ _ _) as [[d2 tid] out].
    destruct tid; cbn [snd]; do 2 apply list_elem_of_further; apply Hmid.
  - destruct (CallRepository.createCall _ _ _) as [[d1 callId] out1].
    destruct callId as [cid | msg].
    + destruct (TranscriptionRepository.createTranscription _ _ _ _) as [[d2 tid] out].
      destruct tid; cbn [snd]; do 2 apply list_elem_of_further; apply Hmid.
    + cbn [snd]. do 2 apply list_elem_of_further. apply Hmid.
Qed.

(** C8. On a well-formed session index, a playback-finished event touches
    at most one session, and a session it touches held the event's id as
    [currentPlayback] with [pendingRecording] set; a recording-finished
    event touches at most one session, and a session it touches held the
    event's name as [recordingName].  A session that holds another id, or
    another name, is left exactly as it was: sessions with distinct keys
    never cross-match.  And the session that holds the key is selected:
    when a session holds the event's id with [pendingRecording] set, one
    such session - the first in the order of the index, which is that
    session when no other holds the key - has its flag cleared, gets its
    recording name and is taken to ['recording'], and the record command
    goes out for its channel; when a session holds the event's name, one
    such session is taken to ['processing'] and the goodbye is played on
    its channel. *)
Theorem completion_events_select_at_most_one_session :
  forall (e : env) (key : string) (ok hok : bool) (c : ari_client) (d : database),
    wf_sessions (activeChannels c) ->
    (forall k1 k2,
       touched (activeChannels c)
         (activeChannels (handlePlaybackFinished e key ok hok c).1) k1 ->
       touched (activeChannels c)
         (activeChannels (handlePlaybackFinished e key ok hok c).1) k2 ->
       k1 = k2) /\
    (forall k,
       touched (activeChannels c)
         (activeChannels (handlePlaybackFinished e key ok hok c).1) k ->
       exists s, scan (holds_playback key) (activeChannels c) = Some (k, s) /\
                 map_get k (activeChannels c) = Some s /\
                 currentPlayback s = Some key /\ pendingRecording s = true) /\
    (forall k1 k2,
       touched (activeChannels c)
         (activeChannels (handleRecordingFinished e key ok hok c d).1.1) k1 ->
       touched (activeChannels c)
         (activeChannels (handleRecordingFinished e key ok hok c d).1.1) k2 ->
       k1 = k2) /\
    (forall k,
       touched (activeChannels c)
         (activeChannels (handleRecordingFinished e key ok hok c d).1.1) k ->
       exists s, scan (holds_recording key) (activeChannels c) = Some (k, s) /\
                 map_get k (activeChannels c) = Some s /\
                 recordingName s = Some key) /\
    (forall k s other,
       map_get k (activeChannels c) = Some s ->
       currentPlayback s = Some other -> other <> key ->
       map_get k (activeChannels (handlePlaybackFinished e key ok hok c).1) = Some s) /\
    (forall k s other,
       map_get k (activeChannels c) = Some s ->
       recordingName s = Some other -> other <> key ->
       map_get k (activeChannels (handleRecordingFinished e key ok hok c d).1.1) = Some s) /\
    (forall k s,
       map_get k (activeChannels c) = Some s ->
       currentPlayback s = Some key -> pendingRecording s = true ->
       exists k0 s0,
         map_get k0 (activeChannels c) = Some s0 /\
         currentPlayback s0 = Some key /\ pendingRecording s0 = true /\
         map_get k0 (activeChannels (handlePlaybackFinished e key ok hok c).1)
           = Some (set_recording (recording_name e k0) (clear_pending s0)) /\
         RecordCmd k0 (recording_name e k0) (recordingDuration c)
           ∈ (handlePlaybackFinished e key ok hok c).2 /\
         ((forall k' s',
             map_get k' (activeChannels c) = Some s' ->
             currentPlayback s' = Some key -> pendingRecording s' = true -> k' = k) ->
          k0 = k /\ s0 = s)) /\
    (forall k s,
       map_get k (activeChannels c) = Some s ->
       recordingName s = Some key ->
       exists k0 s0,
         map_get k0 (activeChannels c) = Some s0 /\
         recordingName s0 = Some key /\
         map_get k0 (activeChannels (handleRecordingFinished e key ok hok c d).1.1)
           = Some (set_state "processing" s0) /\
         PlayCmd k0 "sound:vm-goodbye" None
           ∈ (handleRecordingFinished e key ok hok c d).2 /\
         ((forall k' s',
             map_get k' (activeChannels c) = Some s' ->
             recordingName s' = Some key -> k' = k) ->
          k0 = k /\ s0 = s)).
Proof.
  intros e key ok hok c d Hwf.
  assert (forall k,
    touched (activeChannels c) (activeChannels (handlePlaybackFinished e key ok hok c).1) k ->
    exists s, scan (holds_playback key) (activeChannels c) = Some (k, s) /\
              map_get k (activeChannels c) = Some s /\ holds_playback key s = true) as Hp.
  { intros k. rewrite handlePlaybackFinished_sessions by done. unfold touched.
    destruct (scan (holds_playback key) (activeChannels c)) as [[k0 s]|] eqn:Hscan;
      [| done].
    destruct (scan_map_get _ _ _ _ Hwf Hscan) as (Hget & _ & Ht).
    rewrite !map_get_modify. case_decide as Hk; [| done]. subst k0. by eauto. }
  assert (forall k,
    touched (activeChannels c)
      (activeChannels (handleRecordingFinished e key ok hok c d).1.1) k ->
    exists s, scan (holds_recording key) (activeChannels c) = Some (k, s) /\
              map_get k (activeChannels c) = Some s /\ holds_recording key s = true) as Hr.
  { intros k. rewrite handleRecordingFinished_sessions.
    apply (touched_modify (holds_recording key) (set_state "processing")). done. }
  split_and!.
  - intros k1 k2 (s1 & H1 & _) %Hp (s2 & H2 & _) %Hp. congruence.
  - intros k (s & Hscan & Hget & Hh) %Hp. exists s.
    apply holds_playback_true in Hh as [? ?]. by split_and!.
  - intros k1 k2 (s1 & H1 & _) %Hr (s2 & H2 & _) %Hr. congruence.
  - intros k (s & Hscan & Hget & Hh) %Hr. exists s.
    apply holds_recording_true in Hh. by split_and!.
  - intros k s other Hget Hcur Hne. rewrite handlePlaybackFinished_sessions by done.
    destruct (scan (holds_playback key) (activeChannels c)) as [[k0 s0]|] eqn:Hscan;
      [| done].
    destruct (scan_map_get _ _ _ _ Hwf Hscan) as (Hget0 & _ & Ht).
    rewrite !map_get_modify. case_decide as Hk; [| done]. subst k0.
    apply holds_playback_true in Ht as [Hcur0 _]. congruence.
  - intros k s other Hget Hcur Hne. rewrite handleRecordingFinished_sessions.
    destruct (scan (holds_recording key) (activeChannels c)) as [[k0 s0]|] eqn:Hscan;
      [| done].
    destruct (scan_map_get _ _ _ _ Hwf Hscan) as (Hget0 & _ & Ht).
    rewrite map_get_modify. case_decide as Hk; [| done]. subst k0.
    apply holds_recording_true in Ht. congruence.
  - intros k s Hget Hcur Hpend.
    destruct (scan_finds (holds_playback key) _ k s Hget) as (k0 & s0 & Hscan).
    { by apply holds_playback_true. }
    destruct (scan_map_get _ _ _ _ Hwf Hscan) as (Hget0 & Hch & Ht).
    apply holds_playback_true in Ht as [Hcur0 Hpend0].
    exists k0, s0. split_and!; try done.
    + rewrite handlePlaybackFinished_sessions, Hscan by done.
      rewrite !map_get_modify, !decide_True by done. by rewrite Hget0.
    + rewrite <- Hch. by apply (handlePlaybackFinished_records _ _ _ _ _ k0).
    + intros Honly. assert (k0 = k) as -> by by eapply Honly. split; [done | congruence].
  - intros k s Hget Hname.
    destruct (scan_finds (holds_recording key) _ k s Hget) as (k0 & s0 & Hscan).
    { by apply holds_recording_true. }
    destruct (scan_map_get _ _ _ _ Hwf Hscan) as (Hget0 & Hch & Ht).
    apply holds_recording_true in Ht.
    exists k0, s0. split_and!; try done.
    + rewrite handleRecordingFinished_sessions, Hscan.
      rewrite map_get_modify, decide_True by done. by rewrite Hget0.
    + rewrite <- Hch. by apply (handleRecordingFinished_says_goodbye _ _ _ _ _ _ k0).
    + intros Honly. assert (k0 = k) as -> by by eapply Honly. split; [done | congruence].
Qed.

End Correlation.

(** ** The order of a session's states *)

Section Pipeline.

Import ARIClient.

Lemma ari_after_step e a s :
  ari (step e (ARI a) s).1 = (handle e a (ari s) (db s)).1.1.
Proof. simpl. by destruct (handle e a (ari s) (db s)) as [[c d] out]. Qed.

Lemma ari_after_other_step e ev s :
  started_by ev = [] -> (forall a, ev <> ARI a) -> ari (step e ev s).1 = ari s.
Proof.
  intros _ Hne. destruct ev as [a | a | i tid path]; simpl.
  - by destruct (AMIClient.handle e a (ami s) (db s)) as [[c d] out].
  - by destruct (Hne a).
  - by destruct (AIProcessor.processRecording i tid path (db s)) as [[d o] out].
Qed.

Lemma occurrences_app k l l' :
  occurrences k (l ++ l') = (occurrences k l + occurrences k l')%nat.
Proof. induction l as [|k0 l IH]; simpl; [done |]. rewrite IH. lia. Qed.

Lemma occurrences_elem k l : k ∈ l <-> (1 <= occurrences k l)%nat.
Proof.
  induction l as [|k0 l IH]; simpl.
  - rewrite elem_of_nil. lia.
  - rewrite elem_of_cons, IH. destruct (String.eqb k0 k) eqn:E.
    + apply String.eqb_eq in E. subst. split; [lia | by left].
    + apply String.eqb_neq in E. split; [intros [-> | H]; [done | lia] | right; lia].
Qed.

Lemma occurrences_remove_first k k' l :
  occurrences k (remove_first k' l) =
  if decide (k = k') then pred (occurrences k l) else occurrences k l.
Proof.
  induction l as [|k0 l IH]; simpl; [by case_decide |].
  destruct (String.eqb k0 k') eqn:E'.
  - apply String.eqb_eq in E'. subst k0. destruct (decide (k = k')) as [-> | Hne].
    + by rewrite String.eqb_refl.
    + assert (String.eqb k' k = false) as -> by (apply String.eqb_neq; congruence). done.
  - simpl. rewrite IH. destruct (decide (k = k')) as [-> | Hne]; [| done].
    rewrite E'. done.
Qed.

Lemma remove_first_other k k' l : k <> k' -> k ∈ remove_first k' l <-> k ∈ l.
Proof.
  intros Hne. rewrite !occurrences_elem, occurrences_remove_first.
  by rewrite decide_False.
Qed.

Lemma existsb_eqb_elem k l : existsb (String.eqb k) l = true <-> k ∈ l.
Proof.
  rewrite existsb_exists. split.
  - intros (x & Hin & Heq). apply String.eqb_eq in Heq. subst. by apply list_elem_of_In.
  - intros Hin. exists k. split; [by apply list_elem_of_In | apply String.eqb_refl].
Qed.

Lemma session_inv_not_waiting d : session_inv true d -> session_inv false d.
Proof.
  intros (Hw & Hp & Hr). destruct (Hw eq_refl) as (Hst & Hpend & Hrec).
  split_and!; [done | congruence | congruence].
Qed.

(** The session index and the suspended handlers after the answer command
    has returned. *)
Lemma answer_returned_sessions k ok playbackId play_ok hok c :
  k ∈ awaiting_answer c ->
  awaiting_answer (answer_returned k ok playbackId play_ok hok c).1
    = remove_first k (awaiting_answer c) /\
  activeChannels (answer_returned k ok playbackId play_ok hok c).1 =
    match map_get k (activeChannels c) with
    | Some _ =>
        if ok then map_modify k (fun d => set_playback playbackId (set_state "answered" d))
                     (activeChannels c)
        else activeChannels c
    | None => activeChannels c
    end.
Proof.
  intros Hin. unfold answer_returned.
  apply existsb_eqb_elem in Hin. rewrite Hin. simpl.
  destruct ok; [| by destruct (map_get k (activeChannels c))].
  destruct (map_get k (activeChannels c)) as [d0|] eqn:Hget; [| done].
  unfold playPrompt. rewrite map_get_modify, decide_True, Hget by done. simpl.
  assert (map_modify k (set_playback playbackId)
            (map_modify k (set_state "answered") (activeChannels c)) =
          map_modify k (fun d => set_playback playbackId (set_state "answered" d))
            (activeChannels c)) as ->.
  { clear. induction (activeChannels c) as [|[k' d] m IH]; simpl; [done |].
    destruct (String.eqb k' k) eqn:E; simpl; rewrite E; [done | by rewrite IH]. }
  by destruct play_ok.
Qed.

Lemma answer_returned_not_awaited k ok playbackId play_ok hok c :
  k ∉ awaiting_answer c -> answer_returned k ok playbackId play_ok hok c = (c, []).
Proof.
  intros Hin. unfold answer_returned.
  destruct (existsb (String.eqb k) (awaiting_answer c)) eqn:E; [| done].
  by apply existsb_eqb_elem in E.
Qed.

Lemma scheduleReconnect_sessions c :
  activeChannels (scheduleReconnect c).1 = activeChannels c /\
  awaiting_answer (scheduleReconnect c).1 = awaiting_answer c.
Proof.
  unfold scheduleReconnect. destruct (negb (shouldReconnect c)); [done |].
  by destruct (_ && _).
Qed.

(** The timers and the connection's own events leave the sessions
    alone. *)
Lemma connection_events_sessions e ev c d :
  match ev with
  | HangupTimer _ _ | StopRecordingTimer _ _
  | ConnectReturned _ | WsClose | WsError | ReconnectTimer => True
  | _ => False
  end ->
  activeChannels (handle e ev c d).1.1 = activeChannels c /\
  awaiting_answer (handle e ev c d).1.1 = awaiting_answer c.
Proof.
  destruct ev as [| | | | | | | ok | | |]; try done; intros _; unfold handle.
  - unfold connect_returned. destruct ok; [done |].
    match goal with |- context [scheduleReconnect ?x] =>
      pose proof (scheduleReconnect_sessions x) as H;
      destruct (scheduleReconnect x) as [c1 out] end.
    done.
  - unfold on_ws_close.
    match goal with |- context [scheduleReconnect ?x] =>
      pose proof (scheduleReconnect_sessions x) as H;
      destruct (scheduleReconnect x) as [c1 out] end.
    done.
Qed.

Lemma bool_decide_awaiting_app (k k' : string) (l : list string) :
  k' <> k -> bool_decide (k' ∈ l ++ [k]) = bool_decide (k' ∈ l).
Proof.
  intros Hne. apply bool_decide_ext.
  rewrite elem_of_app, list_elem_of_singleton. tauto.
Qed.

(** The session index is well formed in every state the gateway
    reaches. *)
Lemma handle_wf_sessions e ev c d :
  wf_sessions (activeChannels c) -> wf_sessions (activeChannels (handle e ev c d).1.1).
Proof.
  intros Hwf.
  destruct ev as [k n1 n2 | k ok pid pok hok | k | pid ok hok | name ok hok
                  | k hok | name sok | ok | | |].
  - by apply wf_sessions_set.
  - unfold handle. destruct (decide (k ∈ awaiting_answer c)) as [Hin | Hnotin].
    + destruct (answer_returned_sessions k ok pid pok hok c Hin) as [_ Hm].
      destruct (answer_returned k ok pid pok hok c) as [c1 out]. simpl in *. rewrite Hm.
      destruct (map_get k (activeChannels c)); [| done].
      destruct ok; [by apply wf_sessions_modify | done].
    + by rewrite answer_returned_not_awaited.
  - by apply wf_sessions_delete.
  - unfold handle. pose proof (handlePlaybackFinished_sessions e pid ok hok c Hwf) as Hm.
    destruct (handlePlaybackFinished e pid ok hok c) as [c1 out]. simpl in *. rewrite Hm.
    destruct (scan _ _) as [[k0 d0]|]; [| done].
    by apply wf_sessions_modify; [| apply wf_sessions_modify].
  - unfold handle. rewrite handleRecordingFinished_sessions.
    destruct (scan _ _) as [[k0 d0]|]; [| done]. by apply wf_sessions_modify.
  - done.
  - done.
  - by destruct (connection_events_sessions e (ConnectReturned ok) c d I) as [-> _].
  - by destruct (connection_events_sessions e WsClose c d I) as [-> _].
  - by destruct (connection_events_sessions e WsError c d I) as [-> _].
  - by destruct (connection_events_sessions e ReconnectTimer c d I) as [-> _].
Qed.

Lemma run_wf_sessions trace s :
  wf_sessions (activeChannels (ari s)) -> wf_sessions (activeChannels (ari (run trace s))).
Proof.
  intros Hwf. induction trace as [|[e ev] trace IH] using rev_ind; [done |].
  rewrite run_snoc. destruct ev as [a | a | i tid path].
  - by rewrite ari_after_other_step.
  - rewrite ari_after_step. by apply handle_wf_sessions.
  - by rewrite ari_after_other_step.
Qed.

(** An event that leaves the sessions and the suspended handlers alone
    keeps what holds of a channel. *)
Lemma channel_inv_same k n c c' :
  activeChannels c' = activeChannels c -> awaiting_answer c' = awaiting_answer c ->
  channel_inv k n c ->
  channel_inv k n c' /\
  (forall s s',
     map_get k (activeChannels c) = Some s ->
     map_get k (activeChannels c') = Some s' ->
     state s' = state s \/ next_state (state s) (state s')).
Proof.
  unfold channel_inv. intros -> -> Hinv. split; [done |].
  intros s s' ? ?. left. congruence.
Qed.

(** One event of the control channel keeps what holds of a channel whose
    session is started once at most, and moves the state of its session
    by at most one step of the pipeline, whatever the event does to the
    sessions of other channels. *)
Lemma ari_handle_channel e ev c d k n :
  wf_sessions (activeChannels c) ->
  channel_inv k n c ->
  (n + occurrences k (started_by (ARI ev)) <= 1)%nat ->
  channel_inv k (n + occurrences k (started_by (ARI ev))) (handle e ev c d).1.1 /\
  (forall s s',
     map_get k (activeChannels c) = Some s ->
     map_get k (activeChannels (handle e ev c d).1.1) = Some s' ->
     state s' = state s \/ next_state (state s) (state s')).
Proof.
  intros Hwf Hinv Hbound. pose proof Hinv as [Hocc Hses].
  destruct ev as [k' n1 n2 | k' ok pid pok hok | k' | pid ok hok | name ok hok
                  | k' hok | name sok | ok | | |];
    cbn [started_by occurrences] in *; rewrite ?Nat.add_0_r in *.
  - (* session start *)
    unfold handle, handleStasisStart, channel_inv.
    cbn [fst snd activeChannels awaiting_answer with_sessions].
    destruct (String.eqb k' k) eqn:E.
    + apply String.eqb_eq in E. subst k'. assert (n = 0)%nat as -> by lia.
      assert (map_get k (activeChannels c) = None) as Hnone.
      { destruct (map_get k (activeChannels c)) as [d0|] eqn:E; [| done].
        destruct (Hses d0 eq_refl). lia. }
      split.
      * split.
        -- rewrite occurrences_app. simpl. rewrite String.eqb_refl. lia.
        -- intros d'. rewrite map_get_set, decide_True by done. intros [= <-].
           split; [lia |].
           rewrite bool_decide_eq_true_2 by (apply elem_of_app; right; by left).
           unfold session_inv. simpl. by split_and!.
      * intros s s' Hget. congruence.
    + apply String.eqb_neq in E. rewrite Nat.add_0_r. split.
      * split.
        -- rewrite occurrences_app. simpl.
           assert (String.eqb k' k = false) as -> by by apply String.eqb_neq.
           lia.
        -- intros d'. rewrite map_get_set, decide_False by congruence.
           rewrite bool_decide_awaiting_app by congruence. apply Hses.
      * intros s s'. rewrite map_get_set, decide_False by congruence.
        intros ? ?. left. congruence.
  - (* the answer command has returned *)
    unfold handle.
    destruct (decide (k' ∈ awaiting_answer c)) as [Hin | Hnotin].
    2:{ rewrite answer_returned_not_awaited by done. by apply channel_inv_same. }
    destruct (answer_returned_sessions k' ok pid pok hok c Hin) as [Haw Hm].
    destruct (answer_returned k' ok pid pok hok c) as [c1 out].
    cbn [fst snd] in *. unfold channel_inv. rewrite Hm, Haw.
    destruct (decide (k = k')) as [<- | Hne].
    + (* the answer is for this channel *)
      assert (occurrences k (awaiting_answer c) = 1 /\ n = 1)%nat as [Hone ->].
      { apply occurrences_elem in Hin. lia. }
      assert (bool_decide (k ∈ awaiting_answer c) = true) as Hwaiting
        by by apply bool_decide_eq_true_2.
      assert (bool_decide (k ∈ remove_first k (awaiting_answer c)) = false) as Hgone.
      { apply bool_decide_eq_false_2. rewrite occurrences_elem, occurrences_remove_first.
        rewrite decide_True by done. lia. }
      rewrite occurrences_remove_first, decide_True, Hgone by done.
      destruct (map_get k (activeChannels c)) as [d0|] eqn:Hget0.
      2:{ split; [split; [lia | by rewrite Hget0] |]. intros s s' ? ?. left. congruence. }
      destruct (Hses d0 eq_refl) as [_ Hd0]. rewrite Hwaiting in Hd0.
      destruct ok.
      2:{ split.
          - split; [lia |]. rewrite Hget0. intros d' [= <-].
            split; [lia | by apply session_inv_not_waiting].
          - intros s s' ? ?. left. congruence. }
      destruct Hd0 as (Hw & _). destruct (Hw eq_refl) as (Hst & Hpend & Hrec).
      split.
      * split; [lia |]. intros d'. rewrite map_get_modify, decide_True, Hget0 by done.
        simpl. intros [= <-]. split; [lia |].
        unfold session_inv. simpl. split_and!; [done | done | congruence].
      * intros s s'. rewrite map_get_modify, decide_True by done.
        rewrite ?Hget0. simpl. intros [= <-] [= <-]. right. simpl. rewrite Hst. constructor.
    + (* the answer is for another channel *)
      assert (bool_decide (k ∈ remove_first k' (awaiting_answer c))
              = bool_decide (k ∈ awaiting_answer c)) as Hsame.
      { apply bool_decide_ext. by apply remove_first_other. }
      rewrite occurrences_remove_first, decide_False, Hsame by done.
      assert (map_get k
                match map_get k' (activeChannels c) with
                | Some _ =>
                    if ok
                    then map_modify k'
                           (fun d => set_playback pid (set_state "answered" d))
                           (activeChannels c)
                    else activeChannels c
                | None => activeChannels c
                end = map_get k (activeChannels c)) as Hget.
      { destruct (map_get k' (activeChannels c)); [| done]. destruct ok; [| done].
        by rewrite map_get_modify, decide_False. }
      rewrite Hget. split; [done |]. intros s s' ? ?. left. congruence.
  - (* session end *)
    unfold handle, handleStasisEnd. cbn [fst snd activeChannels awaiting_answer with_sessions].
    destruct Hwf as [Hnd _]. unfold channel_inv.
    cbn [activeChannels awaiting_answer with_sessions].
    rewrite map_get_delete by done. destruct (decide (k = k')) as [<- | Hne].
    + split; [done |]. by intros s s' _ ?.
    + split; [done |]. intros s s' ? ?. left. congruence.
  - (* playback finished *)
    unfold handle.
    pose proof (handlePlaybackFinished_sessions e pid ok hok c Hwf) as Hm.
    pose proof (awaiting_after_playback e pid ok hok c) as Haw.
    destruct (handlePlaybackFinished e pid ok hok c) as [c1 out]. cbn [fst snd] in *.
    destruct (scan (holds_playback pid) (activeChannels c)) as [[k0 d0]|] eqn:Hscan.
    2:{ by apply channel_inv_same. }
    unfold channel_inv. rewrite Hm, Haw, !map_get_modify.
    destruct (decide (k = k0)) as [<- | Hne].
    2:{ split; [done |]. intros s s' ? ?. left. congruence. }
    destruct (scan_map_get _ _ _ _ Hwf Hscan) as (Hget0 & _ & Ht).
    apply holds_playback_true in Ht as [_ Hpend].
    destruct (Hses d0 Hget0) as [Hn (Hw & Hp & Hr)].
    destruct (Hp Hpend) as [Hst Hrec].
    rewrite Hget0. simpl. split.
    + split; [done |]. intros d' [= <-]. split; [done |].
      unfold session_inv. simpl. split_and!; [| done | by left].
      intros Hwait. destruct (Hw Hwait) as (? & ? & ?). congruence.
    + intros s s' [= <-] [= <-]. right. simpl. rewrite Hst. constructor.
  - (* recording finished *)
    unfold handle.
    pose proof (handleRecordingFinished_sessions e name ok hok c d) as Hm.
    pose proof (awaiting_after_recording e name ok hok c d) as Haw.
    destruct (handleRecordingFinished e name ok hok c d) as [[c1 d1] out].
    cbn [fst snd] in *.
    destruct (scan (holds_recording name) (activeChannels c)) as [[k0 d0]|] eqn:Hscan.
    2:{ by apply channel_inv_same. }
    unfold channel_inv. rewrite Hm, Haw, map_get_modify.
    destruct (decide (k = k0)) as [<- | Hne].
    2:{ split; [done |]. intros s s' ? ?. left. congruence. }
    destruct (scan_map_get _ _ _ _ Hwf Hscan) as (Hget0 & _ & Ht).
    apply holds_recording_true in Ht.
    assert (recordingName d0 <> None) as Hrec by congruence.
    destruct (Hses d0 Hget0) as [Hn (Hw & Hp & Hr)].
    rewrite Hget0. simpl. split.
    + split; [done |]. intros d' [= <-]. split; [done |].
      unfold session_inv. simpl. split_and!.
      * intros Hwait. destruct (Hw Hwait) as (? & ? & ?). congruence.
      * intros Hpend. destruct (Hp Hpend) as [? ?]. congruence.
      * by right.
    + intros s s' [= <-] [= <-]. simpl.
      destruct (Hr Hrec) as [-> | ->]; [right; constructor | by left].
  - by apply channel_inv_same.
  - by apply channel_inv_same.
  - destruct (connection_events_sessions e (ConnectReturned ok) c d I) as [Hm Haw].
    by apply channel_inv_same.
  - destruct (connection_events_sessions e WsClose c d I) as [Hm Haw].
    by apply channel_inv_same.
  - destruct (connection_events_sessions e WsError c d I) as [Hm Haw].
    by apply channel_inv_same.
  - destruct (connection_events_sessions e ReconnectTimer c d I) as [Hm Haw].
    by apply channel_inv_same.
Qed.

Lemma step_channel e ev s k n :
  wf_sessions (activeChannels (ari s)) ->
  channel_inv k n (ari s) ->
  (n + occurrences k (started_by ev) <= 1)%nat ->
  channel_inv k (n + occurrences k (started_by ev)) (ari (step e ev s).1) /\
  (forall before after,
     session_state k s = Some before ->
     session_state k (step e ev s).1 = Some after ->
     after = before \/ next_state before after).
Proof.
  intros Hwf Hinv Hbound. unfold session_state.
  destruct ev as [a | a | i tid path].
  - rewrite ari_after_other_step by done. simpl. rewrite Nat.add_0_r.
    split; [done |]. intros before after H1 H2. left. congruence.
  - rewrite ari_after_step.
    destruct (ari_handle_channel e a (ari s) (db s) k n Hwf Hinv Hbound) as [Hinv' Hord].
    split; [done |]. intros before after H1 H2.
    destruct (map_get k (activeChannels (ari s))) as [d|] eqn:E1; [| done].
    destruct (map_get k (activeChannels (handle e a (ari s) (db s)).1.1)) as [d'|] eqn:E2;
      [| done].
    simpl in H1, H2. injection H1 as <-. injection H2 as <-. by eapply Hord.
  - rewrite ari_after_other_step by done. simpl. rewrite Nat.add_0_r.
    split; [done |]. intros before after H1 H2. left. congruence.
Qed.

Lemma started_snoc trace e ev : started (trace ++ [(e, ev)]) = started trace ++ started_by ev.
Proof. unfold started. rewrite flat_map_app. simpl. by rewrite app_nil_r. Qed.

Lemma started_once_snoc k trace e ev :
  started_once k (trace ++ [(e, ev)]) ->
  started_once k trace /\
  (occurrences k (started trace) + occurrences k (started_by ev) <= 1)%nat.
Proof.
  unfold started_once. rewrite started_snoc, occurrences_app. lia.
Qed.

(** What holds of a channel in every state the gateway reaches through a
    trace that starts the channel once at most. *)
Lemma run_channel_inv db0 maxAttempts interval duration trace k :
  started_once k trace ->
  channel_inv k (occurrences k (started trace))
    (ari (run trace (start db0 maxAttempts interval duration))).
Proof.
  induction trace as [|[e ev] trace IH] using rev_ind; intros Honce.
  - split; simpl; [lia | done].
  - apply started_once_snoc in Honce as [Honce Hbound].
    rewrite run_snoc, started_snoc, occurrences_app.
    apply step_channel; [| by apply IH | done].
    apply run_wf_sessions. by split; constructor.
Qed.

Lemma map_get_app_fresh k d m : k ∉ map fst m -> map_get k (m ++ [(k, d)]) = Some d.
Proof.
  induction m as [|[k' d'] m IH]; simpl.
  - by rewrite String.eqb_refl.
  - rewrite not_elem_of_cons. intros [Hne Hfresh].
    destruct (String.eqb k' k) eqn:E; [| by apply IH].
    apply String.eqb_eq in E. congruence.
Qed.

Lemma map_modify_app_fresh k f d m :
  k ∉ map fst m -> map_modify k f (m ++ [(k, d)]) = m ++ [(k, f d)].
Proof.
  induction m as [|[k' d'] m IH]; simpl.
  - by rewrite String.eqb_refl.
  - rewrite not_elem_of_cons. intros [Hne Hfresh].
    destruct (String.eqb k' k) eqn:E; [| by rewrite IH].
    apply String.eqb_eq in E. congruence.
Qed.

(** One call through the pipeline, every command succeeding, on a channel
    that is new to the orchestrator and with keys no other session
    holds. *)
Lemma normal_path_states e1 e2 e3 e4 k n1 n2 pid h2 h3 h4 s :
  k ∉ map fst (activeChannels (ari s)) ->
  scan (holds_playback pid) (activeChannels (ari s)) = None ->
  scan (holds_recording (recording_name e3 k)) (activeChannels (ari s)) = None ->
  states_along k
    [ (e1, ARI (StasisStart k n1 n2));
      (e2, ARI (AnswerReturned k true pid true h2));
      (e3, ARI (PlaybackFinished pid true h3));
      (e4, ARI (RecordingFinished (recording_name e3 k) true h4)) ] s =
  [Some "started"; Some "answered"; Some "recording"; Some "processing"].
Proof.
  intros Hfresh Hpb Hrec. unfold states_along, session_state.
  rewrite !ari_after_step.
  set (m := activeChannels (ari s)) in *.
  (* session start *)
  set (s1 := (step e1 (ARI (StasisStart k n1 n2)) s).1).
  assert (activeChannels (ari s1) = m ++ [(k, {| s_channel := k; s_callerId := n1;
            s_callerName := n2; startTime := now_ms e1; state := "started";
            currentPlayback := None; pendingRecording := false;
            recordingName := None |})] /\ k ∈ awaiting_answer (ari s1)) as [Hm1 Haw1].
  { unfold s1. rewrite ari_after_step. simpl. fold m. rewrite map_set_fresh by done.
    split; [done |]. apply elem_of_app. right. by left. }
  (* the answer *)
  set (s2 := (step e2 (ARI (AnswerReturned k true pid true h2)) s1).1).
  assert (activeChannels (ari s2) = m ++ [(k, {| s_channel := k; s_callerId := n1;
            s_callerName := n2; startTime := now_ms e1; state := "answered";
            currentPlayback := Some pid; pendingRecording := true;
            recordingName := None |})]) as Hm2.
  { unfold s2. rewrite ari_after_step. unfold handle.
    destruct (answer_returned_sessions k true pid true h2 (ari s1) Haw1) as [_ H].
    destruct (answer_returned k true pid true h2 (ari s1)) as [c2 out]. simpl in *.
    rewrite H, Hm1, map_get_app_fresh by done. by rewrite map_modify_app_fresh. }
  (* the prompt has been played *)
  set (s3 := (step e3 (ARI (PlaybackFinished pid true h3)) s2).1).
  assert (activeChannels (ari s3) = m ++ [(k, {| s_channel := k; s_callerId := n1;
            s_callerName := n2; startTime := now_ms e1; state := "recording";
            currentPlayback := Some pid; pendingRecording := false;
            recordingName := Some (recording_name e3 k) |})]) as Hm3.
  { unfold s3. rewrite ari_after_step. unfold handle, handlePlaybackFinished.
    rewrite Hm2. erewrite scan_app_fresh; [| done |]; last first.
    { unfold holds_playback. simpl. by rewrite String.eqb_refl. }
    unfold startRecording. simpl.
    rewrite map_modify_app_fresh, map_get_app_fresh by done.
    by rewrite map_modify_app_fresh. }
  (* the recording is there *)
  set (s4 := (step e4 (ARI (RecordingFinished (recording_name e3 k) true h4)) s3).1).
  assert (activeChannels (ari s4) = m ++ [(k, {| s_channel := k; s_callerId := n1;
            s_callerName := n2; startTime := now_ms e1; state := "processing";
            currentPlayback := Some pid; pendingRecording := false;
            recordingName := Some (recording_name e3 k) |})]) as Hm4.
  { unfold s4. rewrite ari_after_step. unfold handle.
    rewrite handleRecordingFinished_sessions, Hm3.
    erewrite scan_app_fresh; [| done |]; last first.
    { unfold holds_recording. simpl. by rewrite String.eqb_refl. }
    by rewrite map_modify_app_fresh. }
  unfold s4, s3, s2, s1 in *. rewrite !ari_after_step in *.
  rewrite Hm1, Hm2, Hm3, Hm4, !map_get_app_fresh by done. done.
Qed.

(** C1, as the specification has it, fails: along a call that goes
    through the whole pipeline the session is ['started'], ['answered'],
    ['recording'] and ['processing'] in turn; while the prompt plays it is
    ['answered'], and no state ['prompting'] is ever assumed. *)
Lemma pipeline_never_assumes_prompting :
  states_along "c1" normal_path (start empty_database 0 5000 10) =
    [Some "started"; Some "answered"; Some "recording"; Some "processing"] /\
  Some "prompting" ∉ states_along "c1" normal_path (start empty_database 0 5000 10).
Proof.
  assert (states_along "c1" normal_path (start empty_database 0 5000 10) =
          [Some "started"; Some "answered"; Some "recording"; Some "processing"]) as H
    by by vm_compute.
  split; [done |]. rewrite H. intros Hin.
  repeat (apply elem_of_cons in Hin as [Hin | Hin]; [discriminate Hin |]).
  by apply elem_of_nil in Hin.
Qed.

(** C1, amended.  Along every trace, for every channel whose session the
    control channel starts once at most - whatever happens to the other
    channels, which may enter the application again and again - the
    state of the channel's session moves by the steps ['started'] to
    ['answered'], ['answered'] to ['recording'] and ['recording'] to
    ['processing'] and no others: no event takes it back or makes it skip
    one of these.  The playing of the prompt is no state of its own: the
    session is ['answered'] with [pendingRecording] set.  And a call on a
    channel that was not started before, whose commands all succeed,
    assumes the four states in turn. *)
Theorem session_state_follows_the_pipeline :
  forall (db0 : database) (maxAttempts interval duration : Z)
         (trace : list (env * event)),
    (forall (e : env) (ev : event) (k before after : string),
       started_once k (trace ++ [(e, ev)]) ->
       session_state k (run trace (start db0 maxAttempts interval duration)) = Some before ->
       session_state k (run (trace ++ [(e, ev)]) (start db0 maxAttempts interval duration))
         = Some after ->
       after = before \/ next_state before after) /\
    (forall (e1 e2 e3 e4 : env) (k callerNumber callerName playbackId : string)
            (h2 h3 h4 : bool),
       started_once k (trace ++ [(e1, ARI (StasisStart k callerNumber callerName))]) ->
       scan (holds_playback playbackId)
         (activeChannels (ari (run trace (start db0 maxAttempts interval duration)))) = None ->
       scan (holds_recording (recording_name e3 k))
         (activeChannels (ari (run trace (start db0 maxAttempts interval duration)))) = None ->
       states_along k
         [ (e1, ARI (StasisStart k callerNumber callerName));
           (e2, ARI (AnswerReturned k true playbackId true h2));
           (e3, ARI (PlaybackFinished playbackId true h3));
           (e4, ARI (RecordingFinished (recording_name e3 k) true h4)) ]
         (run trace (start db0 maxAttempts interval duration)) =
       [Some "started"; Some "answered"; Some "recording"; Some "processing"]).
Proof.
  intros db0 maxAttempts interval duration trace.
  assert (wf_sessions
            (activeChannels (ari (run trace (start db0 maxAttempts interval duration)))))
    as Hwf by (apply run_wf_sessions; by split; constructor).
  split.
  - intros e ev k before after Honce Hbefore Hafter.
    apply started_once_snoc in Honce as [Honce Hbound].
    pose proof (run_channel_inv db0 maxAttempts interval duration trace k Honce) as Hinv.
    rewrite run_snoc in Hafter.
    destruct (step_channel e ev _ k _ Hwf Hinv Hbound) as [_ Hord]. by eapply Hord.
  - intros e1 e2 e3 e4 k n1 n2 pid h2 h3 h4 Honce Hpb Hrec.
    apply started_once_snoc in Honce as [Honce Hbound].
    pose proof (run_channel_inv db0 maxAttempts interval duration trace k Honce)
      as [_ Hses].
    apply normal_path_states; [| done | done].
    apply map_get_None.
    destruct (map_get k (activeChannels
                (ari (run trace (start db0 maxAttempts interval duration)))))
      as [d0|] eqn:Hget; [| done].
    destruct (Hses d0 eq_refl) as [Hn _]. simpl in Hbound.
    rewrite String.eqb_refl in Hbound. lia.
Qed.

End Pipeline.

(** ** The properties at work on sample runs *)

Section Samples.

Import CallRepository TranscriptionRepository AIProcessor ARIClient.

(** The scenario of the specification: a call answered at second 2 and
    hung up at second 4 with cause 16 lasts 2 seconds. *)
Lemma updateCallEnded_stamps_duration_witness :
  exists call ended,
    getCallByUniqueId "abc.1" (db answered_call) = Some call /\
    getCallByUniqueId "abc.1"
      (updateCallEnded (utc_at 4000) "abc.1" "16" "Normal Clearing" (db answered_call)).1.1
      = Some ended /\
    call_state ended = "ended" /\
    hangup_cause ended = Some "16" /\
    duration_seconds ended = Some 2%Z.
Proof.
  destruct (getCallByUniqueId "abc.1" (db answered_call)) as [call|] eqn:Hcall;
    [| vm_compute in Hcall; discriminate Hcall].
  destruct (updateCallEnded_stamps_duration (utc_at 4000) "abc.1" "16" "Normal Clearing"
              (db answered_call) call Hcall)
    as (ended & Hget & Hstate & _ & Hcause & _ & _ & Hsome).
  exists call, ended. split; [reflexivity |]. split; [exact Hget |].
  split; [exact Hstate |]. split; [exact Hcause |].
  assert (answer_time call = Some 2%Z) as Hanswer.
  { vm_compute in Hcall. injection Hcall as <-. reflexivity. }
  destruct (Hsome 2%Z Hanswer) as (secs & Hsecs & -> & _). exact Hsecs.
Defined.

(** A second [createCall] for ['abc.1'] returns the id of the record
    that is there. *)
Lemma createCall_once_per_uniqueId_witness :
  exists existing,
    NoDup (unique_ids empty_database) /\
    getCallByUniqueId "abc.1" (db answered_call) = Some existing /\
    createCall (utc_at 3000)
      {| uniqueId := "abc.1"; callerId := "100"; callerName := "Alice";
         cd_destination := "777"; cd_channel := "SIP/100-0001";
         destChannel := None; callState := Some "initiated" |}
      (db answered_call) =
      (db answered_call, Ok (Some (call_id existing)),
       [Log "debug" "Call record already exists"]).
Proof.
  destruct (getCallByUniqueId "abc.1" (db answered_call)) as [existing|] eqn:Hcall;
    [| vm_compute in Hcall; discriminate Hcall].
  exists existing. split; [apply NoDup_nil_2 |]. split; [reflexivity |].
  apply (createCall_once_per_uniqueId (start empty_database 0 5000 10)
           [ (utc_at 1000, AMI (AMIClient.Newchannel (Some "abc.1") "SIP/100-0001" "100"
                                  "Alice" "777"));
             (utc_at 2000, AMI (AMIClient.Newstate "abc.1" "SIP/100-0001" 6 "100")) ]
           (utc_at 3000) _ existing); [apply NoDup_nil_2 | exact Hcall].
Defined.

(** A hangup for a call nobody has seen. *)
Lemma hangup_of_untracked_call_is_noop_witness :
  getCallByUniqueId "zzz.9" (db (run [] (start empty_database 0 5000 10))) = None /\
  step (utc_at 4000) (AMI (AMIClient.Hangup "zzz.9" "SIP/900-0009" "16" "Normal Clearing" "900"))
       (run [] (start empty_database 0 5000 10)) =
    (run [] (start empty_database 0 5000 10),
     [Log "info" "Call HANGUP"; Log "warn" "Call not found for hangup"; Emit "hangup"]).
Proof.
  split; [reflexivity |].
  apply (hangup_of_untracked_call_is_noop empty_database 0 5000 10 [] (utc_at 4000)).
  reflexivity.
Defined.

(** A dial event leaves the ended call ended. *)
Lemma call_state_changes_on_answer_and_hangup_only_witness :
  call_state_of "abc.1" ended_call = Some "ended" /\
  exists after,
    call_state_of "abc.1"
      (step (utc_at 5000) (AMI (AMIClient.Dial "abc.1" "End" None "100" "SIP/200-0002"))
         ended_call).1 = Some after /\
    (after = "ended" \/
     (after = "answered" /\
      exists channel calleridnum,
        AMI (AMIClient.Dial "abc.1" "End" None "100" "SIP/200-0002") =
        AMI (AMIClient.Newstate "abc.1" channel 6 calleridnum)) \/
     (after = "ended" /\
      exists channel cause causeTxt calleridnum,
        AMI (AMIClient.Dial "abc.1" "End" None "100" "SIP/200-0002") =
        AMI (AMIClient.Hangup "abc.1" channel cause causeTxt calleridnum))).
Proof.
  assert (call_state_of "abc.1" ended_call = Some "ended") as Hended by (vm_compute; reflexivity).
  split; [exact Hended |].
  destruct (call_state_changes_on_answer_and_hangup_only (utc_at 5000)
              (AMI (AMIClient.Dial "abc.1" "End" None "100" "SIP/200-0002"))
              ended_call "abc.1" "ended" Hended) as (after & Hafter & Hhow & _).
  exists after. split; [exact Hafter | exact Hhow].
Defined.

(** The three status writes on the completed sample job, and the sample
    run on the pending one. *)
Lemma transcription_status_writes_look_at_id_only_witness :
  exists job,
    getTranscriptionById 1 one_completed_job = Some job /\
    transcription_status job = "completed" /\
    status_of 1 (markAsProcessing (utc_at 20000) 1 one_completed_job).1 = Some "processing" /\
    status_of 1 (failTranscription (utc_at 20000) 1 "late failure" one_completed_job).1.1
      = Some "failed" /\
    status_of 1 one_pending_job = Some "pending" /\
    status_of 1 (markAsProcessing (at_start sample_run) 1 one_pending_job).1
      = Some "processing" /\
    exists done,
      getTranscriptionById 1
        (processRecording sample_run 1 "/var/spool/asterisk/recording/recording-c1-9000.wav"
           one_pending_job).1.1 = Some done /\
      transcription_status done = "completed" /\
      processing_started_at done = Some 10%Z.
Proof.
  destruct (getTranscriptionById 1 one_completed_job) as [job|] eqn:Hjob;
    [| vm_compute in Hjob; discriminate Hjob].
  exists job. split; [reflexivity |]. split.
  { vm_compute in Hjob. injection Hjob as <-. reflexivity. }
  assert (status_of 1 one_pending_job = Some "pending") as Hpending
    by (vm_compute; reflexivity).
  destruct (transcription_status_writes_look_at_id_only (utc_at 20000) 1 "text"
              "late failure" one_completed_job) as (Hthere & _ & _).
  destruct (Hthere job Hjob) as (Hmark & _ & Hfail).
  split; [exact Hmark |]. split; [exact Hfail |]. split; [exact Hpending |].
  destruct (transcription_status_writes_look_at_id_only (utc_at 20000) 1 "text"
              "late failure" one_pending_job) as (_ & _ & Hrun).
  destruct (Hrun sample_run "/var/spool/asterisk/recording/recording-c1-9000.wav" Hpending)
    as (Hmarked & _ & done & Hdone & Hstatus & Hstamp).
  split; [exact Hmarked |]. exists done.
  split; [exact Hdone |]. split; [exact Hstatus | exact Hstamp].
Defined.

(** The batch on the store with one pending job. *)
Lemma getPendingTranscriptions_fetches_the_pending_in_order_witness :
  Sorted created_before (getPendingTranscriptions one_pending_job) /\
  Forall2 (fun r r' =>
             (transcription_status r = "pending" -> settled r') /\
             transcription_status r' <> "pending")
          (transcriptions one_pending_job)
          (transcriptions
             (process_each (fun _ => sample_run)
                (getPendingTranscriptions one_pending_job) one_pending_job).1).
Proof.
  destruct (getPendingTranscriptions_fetches_the_pending_in_order one_pending_job
              (fun _ => sample_run)) as (_ & Hsorted & Hsettled).
  split; [exact Hsorted | exact Hsettled].
Defined.

(** A supervisor limited to three attempts, from its start: the first
    failure arms the timer, the fourth does not. *)
Lemma supervisor_stops_after_three_attempts_witness :
  AMIClient.shouldReconnect (AMIClient.new_client 3 5000) = true /\
  AMIClient.maxReconnectAttempts (AMIClient.new_client 3 5000) = 3%Z /\
  AMIClient.reconnectAttempts (AMIClient.new_client 3 5000) = 0%Z /\
  existsb is_timer
    (connection_failure (after_failures 0 (AMIClient.new_client 3 5000))).2 = true /\
  connection_failure (after_failures 3 (AMIClient.new_client 3 5000)) =
    (after_failures 3 (AMIClient.new_client 3 5000),
     [Log "warn" "AMI connection timeout, will retry...";
      Log "error" "Max reconnect attempts reached"]).
Proof.
  split; [reflexivity |]. split; [reflexivity |]. split; [reflexivity |].
  destruct (supervisor_stops_after_three_attempts (AMIClient.new_client 3 5000) 0 0
              eq_refl) as (Hlimit & _).
  destruct (Hlimit eq_refl eq_refl) as (Harms & Hstops & _).
  split; [apply (Harms 0%nat); lia | exact Hstops].
Defined.

(** Two sessions listen to their prompts; the end of the first prompt
    takes the first session to its recording and leaves the second
    session alone. *)
Lemma completion_events_select_at_most_one_session_witness :
  wf_sessions (activeChannels (ari two_sessions)) /\
  exists s1 s2,
    map_get "c1" (activeChannels (ari two_sessions)) = Some s1 /\
    currentPlayback s1 = Some "pb-1" /\ pendingRecording s1 = true /\
    map_get "c2" (activeChannels (ari two_sessions)) = Some s2 /\
    currentPlayback s2 = Some "pb-2" /\
    map_get "c2"
      (activeChannels
         (handlePlaybackFinished (utc_at 6000) "pb-1" true true (ari two_sessions)).1)
      = Some s2 /\
    exists k0 s0,
      map_get k0
        (activeChannels
           (handlePlaybackFinished (utc_at 6000) "pb-1" true true (ari two_sessions)).1)
        = Some (set_recording (recording_name (utc_at 6000) k0) (clear_pending s0)) /\
      currentPlayback s0 = Some "pb-1".
Proof.
  assert (wf_sessions (activeChannels (ari two_sessions))) as Hwf.
  { split.
    - change (NoDup ["c1"; "c2"]). apply (bool_decide_unpack _). vm_compute. exact I.
    - vm_compute. repeat constructor. }
  split; [exact Hwf |].
  destruct (map_get "c1" (activeChannels (ari two_sessions))) as [s1|] eqn:Hs1;
    [| vm_compute in Hs1; discriminate Hs1].
  destruct (map_get "c2" (activeChannels (ari two_sessions))) as [s2|] eqn:Hs2;
    [| vm_compute in Hs2; discriminate Hs2].
  assert (currentPlayback s1 = Some "pb-1" /\ pendingRecording s1 = true) as [Hcur1 Hpend1].
  { vm_compute in Hs1. injection Hs1 as <-. split; reflexivity. }
  assert (currentPlayback s2 = Some "pb-2") as Hcur2.
  { vm_compute in Hs2. injection Hs2 as <-. reflexivity. }
  exists s1, s2. split; [reflexivity |]. split; [exact Hcur1 |]. split; [exact Hpend1 |].
  split; [reflexivity |]. split; [exact Hcur2 |].
  destruct (completion_events_select_at_most_one_session (utc_at 6000) "pb-1" true true
              (ari two_sessions) (db two_sessions) Hwf)
    as (_ & _ & _ & _ & Hother & _ & Hselected & _).
  split.
  { apply (Hother "c2" s2 "pb-2" Hs2 Hcur2). discriminate. }
  destruct (Hselected "c1" s1 Hs1 Hcur1 Hpend1) as (k0 & s0 & _ & Hcur0 & _ & Hafter & _).
  exists k0, s0. split; [exact Hafter | exact Hcur0].
Defined.

(** The answer for channel c1 returns after channel c2 has entered the
    application a second time: the session of c1, started once, goes
    from ['started'] to ['answered']. *)
Lemma session_state_follows_the_pipeline_witness :
  started_once "c1" (take 3 beside_a_restarted_channel ++
                     [(utc_at 1200, ARI (AnswerReturned "c1" true "pb-1" true true))]) /\
  ~ started_once "c2" (take 3 beside_a_restarted_channel) /\
  session_state "c1"
    (run (take 3 beside_a_restarted_channel) (start empty_database 0 5000 10))
    = Some "started" /\
  session_state "c1"
    (run (take 3 beside_a_restarted_channel ++
          [(utc_at 1200, ARI (AnswerReturned "c1" true "pb-1" true true))])
       (start empty_database 0 5000 10)) = Some "answered" /\
  ("answered" = "started" \/ next_state "started" "answered").
Proof.
  assert (started_once "c1"
            (take 3 beside_a_restarted_channel ++
             [(utc_at 1200, ARI (AnswerReturned "c1" true "pb-1" true true))])) as Honce.
  { change (1 <= 1)%nat. apply le_n. }
  assert (~ started_once "c2" (take 3 beside_a_restarted_channel)) as Htwice.
  { change (~ (2 <= 1)%nat). intros H. inversion H as [|? H1]. inversion H1. }
  assert (session_state "c1"
            (run (take 3 beside_a_restarted_channel) (start empty_database 0 5000 10))
          = Some "started") as Hbefore by (vm_compute; reflexivity).
  assert (session_state "c1"
            (run (take 3 beside_a_restarted_channel ++
                  [(utc_at 1200, ARI (AnswerReturned "c1" true "pb-1" true true))])
               (start empty_database 0 5000 10)) = Some "answered") as Hafter
    by (vm_compute; reflexivity).
  split; [exact Honce |]. split; [exact Htwice |]. split; [exact Hbefore |].
  split; [exact Hafter |].
  destruct (session_state_follows_the_pipeline empty_database 0 5000 10
              (take 3 beside_a_restarted_channel)) as (Hstep & _).
  exact (Hstep (utc_at 1200) (ARI (AnswerReturned "c1" true "pb-1" true true))
           "c1" "started" "answered" Honce Hbefore Hafter).
Defined.

(** Why the order of states is stated for a channel that is started once:
    a session-start event delivered twice for the channel leaves two
    handlers waiting for the answer, and the second answer takes the
    session from ['recording'] back to ['answered']. *)
Lemma second_start_takes_the_state_back :
  states_along "c1" started_twice (start empty_database 0 5000 10) =
    [Some "started"; Some "started"; Some "answered"; Some "recording"; Some "answered"] /\
  ~ started_once "c1" started_twice.
Proof.
  split; [by vm_compute |]. change (~ (2 <= 1)%nat). lia.
Qed.

End Samples.

(** * Further properties of the code *)

(** ** The call repository: writes and lookups *)

Section MoreCallRepository.

Import CallRepository CallQueries.

Lemma with_calls_same d : with_calls d (calls d) (calls_seq d) = d.
Proof. by destruct d. Qed.

Lemma rows_modified_pos {A : Type} (p : A -> bool) (rows : list A) :
  (0 <? rows_modified p rows)%Z = existsb p rows.
Proof.
  unfold rows_modified. induction rows as [|r rows IH]; simpl; [done |].
  destruct (p r); simpl; [| done]. apply Z.ltb_lt. lia.
Qed.

Lemma existsb_find_None {A : Type} (p : A -> bool) (rows : list A) :
  find p rows = None -> existsb p rows = false.
Proof.
  induction rows as [|r rows IH]; simpl; [done |]. by destruct (p r).
Qed.

Lemma existsb_find_Some {A : Type} (p : A -> bool) (rows : list A) (x : A) :
  find p rows = Some x -> existsb p rows = true.
Proof.
  induction rows as [|r rows IH]; simpl; [done |]. by destruct (p r).
Qed.

Lemma find_app_None {A : Type} (p : A -> bool) (l l' : list A) :
  find p l = None -> find p (l ++ l') = find p l'.
Proof.
  induction l as [|a l IH]; simpl; [done |]. by destruct (p a).
Qed.

Lemma getCall_other_after_update uid uid' f d seq :
  uid' <> uid ->
  (forall r, unique_id (f r) = unique_id r) ->
  getCallByUniqueId uid' (with_calls d (sql_update (has_unique_id uid) f (calls d)) seq) =
  getCallByUniqueId uid' d.
Proof.
  intros Hne Hf. unfold getCallByUniqueId. simpl. rewrite find_sql_update by done.
  destruct (find (has_unique_id uid') (calls d)) as [r|] eqn:Hr; [| done].
  simpl. apply find_some in Hr as [_ Hid]. apply has_unique_id_true in Hid.
  assert (has_unique_id uid r = false) as ->; [| done].
  unfold has_unique_id. apply String.eqb_neq. congruence.
Qed.

(** X1. [createCall] for a [uniqueId] that is not recorded yet adds the
    record that [getCallByUniqueId] then finds: it carries the data
    given, the state given (['initiated'] when none is), the clock as
    start time and no answer, end or duration; its id is the next rowid
    and is what [createCall] returns; the records of other calls are
    found as before. *)
Theorem createCall_then_lookup :
  forall (e : env) (cd : call_data) (d : database),
    getCallByUniqueId (uniqueId cd) d = None ->
    exists r,
      getCallByUniqueId (uniqueId cd) (createCall e cd d).1.1 = Some r /\
      (createCall e cd d).1.2 = Ok (Some (call_id r)) /\
      call_id r = (calls_seq d + 1)%Z /\
      caller_id r = callerId cd /\ caller_name r = callerName cd /\
      destination r = cd_destination cd /\ channel r = cd_channel cd /\
      call_state r = js_or (callState cd) "initiated" /\
      start_time r = datetime_now e /\
      answer_time r = None /\ end_time r = None /\ duration_seconds r = None /\
      (forall uid', uid' <> uniqueId cd ->
         getCallByUniqueId uid' (createCall e cd d).1.1 = getCallByUniqueId uid' d).
Proof.
  intros e cd d Hnone. unfold createCall, insert_call.
  rewrite (existsb_find_None _ _ Hnone). simpl.
  unfold getCallByUniqueId in *. simpl.
  eexists. split.
  { rewrite find_app_None by done. simpl. unfold has_unique_id at 1. simpl.
    by rewrite String.eqb_refl. }
  simpl. split_and!; try done.
  intros uid' Hne. destruct (find (has_unique_id uid') (calls d)) as [r|] eqn:Hr.
  - by apply find_app_Some.
  - rewrite find_app_None by done. simpl. unfold has_unique_id at 1. simpl.
    destruct (String.eqb (uniqueId cd) uid') eqn:E; [| done].
    apply String.eqb_eq in E. congruence.
Qed.

(** X2. [updateCallAnswered] tells whether a record was there: for a
    [uniqueId] without record it returns false and leaves the store as it
    is; for one with a record it returns true, and the record is then
    ['answered'] with the clock as [answer_time] and every other column
    but [updated_at] as before.  The records of other calls are not
    touched. *)
Theorem updateCallAnswered_reports_and_stamps :
  forall (e : env) (uid : string) (d : database),
    (getCallByUniqueId uid d = None ->
       updateCallAnswered e uid d = (d, false, [Log "debug" "Call answered"])) /\
    (forall r, getCallByUniqueId uid d = Some r ->
       (updateCallAnswered e uid d).1.2 = true /\
       getCallByUniqueId uid (updateCallAnswered e uid d).1.1 = Some (set_answered e r) /\
       call_state (set_answered e r) = "answered" /\
       answer_time (set_answered e r) = Some (datetime_now e) /\
       call_id (set_answered e r) = call_id r /\
       end_time (set_answered e r) = end_time r /\
       duration_seconds (set_answered e r) = duration_seconds r) /\
    (forall uid', uid' <> uid ->
       getCallByUniqueId uid' (updateCallAnswered e uid d).1.1 = getCallByUniqueId uid' d).
Proof.
  intros e uid d. split_and!.
  - intros Hnone. unfold updateCallAnswered. rewrite rows_modified_pos.
    unfold getCallByUniqueId in Hnone.
    rewrite (existsb_find_None _ _ Hnone), sql_update_absent by done.
    by rewrite with_calls_same.
  - intros r Hr. split_and!; try done.
    + unfold updateCallAnswered. simpl. rewrite rows_modified_pos.
      by eapply existsb_find_Some.
    + rewrite (updateCallAnswered_record e uid d uid r Hr). by rewrite String.eqb_refl.
  - intros uid' Hne. by apply getCall_other_after_update.
Qed.

(** X3. [updateCallState] writes whatever state it is given, with no
    regard to the state the record is in: on a record that is there it
    returns true and leaves the given state, every other column but
    [updated_at] as before; the records of other calls are not touched;
    without a record it returns false and changes nothing. *)
Theorem updateCallState_writes_any_state :
  forall (e : env) (uid state : string) (d : database),
    (getCallByUniqueId uid d = None -> updateCallState e uid state d = (d, false)) /\
    (forall r, getCallByUniqueId uid d = Some r ->
       (updateCallState e uid state d).2 = true /\
       getCallByUniqueId uid (updateCallState e uid state d).1
         = Some (set_call_state e state r) /\
       call_state (set_call_state e state r) = state /\
       answer_time (set_call_state e state r) = answer_time r /\
       end_time (set_call_state e state r) = end_time r /\
       duration_seconds (set_call_state e state r) = duration_seconds r /\
       call_id (set_call_state e state r) = call_id r) /\
    (forall uid', uid' <> uid ->
       getCallByUniqueId uid' (updateCallState e uid state d).1 = getCallByUniqueId uid' d).
Proof.
  intros e uid state d. split_and!.
  - intros Hnone. unfold updateCallState. rewrite rows_modified_pos.
    unfold getCallByUniqueId in Hnone.
    rewrite (existsb_find_None _ _ Hnone), sql_update_absent by done.
    by rewrite with_calls_same.
  - intros r Hr. split_and!; try done.
    + unfold updateCallState. simpl. rewrite rows_modified_pos.
      by eapply existsb_find_Some.
    + unfold getCallByUniqueId, updateCallState in *. simpl.
      rewrite find_sql_update by done. rewrite Hr. simpl.
      by apply find_some in Hr as [_ ->].
  - intros uid' Hne. by apply getCall_other_after_update.
Qed.

Lemma filter_id_NoDup id (rows : list call_row) r :
  NoDup (map call_id rows) -> r ∈ rows -> call_id r = id ->
  List.filter (fun c => (call_id c =? id)%Z) rows = [r].
Proof.
  induction rows as [|c rows IH]; simpl; intros Hnd Hin Hid.
  - by apply elem_of_nil in Hin.
  - apply NoDup_cons in Hnd as [Hfresh Hnd].
    apply elem_of_cons in Hin as [<- | Hin].
    + rewrite Hid, Z.eqb_refl. f_equal.
      clear IH Hnd. induction rows as [|c rows IH]; simpl; [done |].
      simpl in Hfresh. rewrite not_elem_of_cons in Hfresh. destruct Hfresh as [Hne Hfresh].
      destruct (call_id c =? id)%Z eqn:E; [| by apply IH].
      apply Z.eqb_eq in E. congruence.
    + destruct (call_id c =? id)%Z eqn:E; [| by apply IH].
      apply Z.eqb_eq in E. exfalso. apply Hfresh.
      apply list_elem_of_fmap. exists r. split; [congruence | done].
Qed.

Lemma filter_id_absent id (rows : list call_row) :
  id ∉ map call_id rows -> List.filter (fun c => (call_id c =? id)%Z) rows = [].
Proof.
  induction rows as [|c rows IH]; simpl; [done |].
  rewrite not_elem_of_cons. intros [Hne Hfresh].
  destruct (call_id c =? id)%Z eqn:E; [| by apply IH].
  apply Z.eqb_eq in E. congruence.
Qed.

Lemma head_filter_find {A : Type} (p : A -> bool) (rows : list A) :
  head (List.filter p rows) = find p rows.
Proof.
  induction rows as [|r rows IH]; simpl; [done |]. by destruct (p r).
Qed.

(** X4. On a store whose call ids are distinct, [getCallById] finds the
    record with the id, joined with the first transcription of the call
    ([getTranscriptionByCallId]) or with nulls when the call has none;
    for an id no record has it returns [null]. *)
Theorem getCallById_finds_call_and_first_transcription :
  forall (d : database) (id : Z),
    NoDup (map call_id (calls d)) ->
    (forall r, r ∈ calls d -> call_id r = id ->
       getCallById id d =
         Some (join_row r (TranscriptionQueries.getTranscriptionByCallId id d))) /\
    (id ∉ map call_id (calls d) -> getCallById id d = None).
Proof.
  intros d id Hnd. split.
  - intros r Hin Hid. unfold getCallById.
    rewrite (filter_id_NoDup id (calls d) r Hnd Hin Hid). simpl. rewrite app_nil_r.
    unfold left_join, TranscriptionQueries.getTranscriptionByCallId.
    rewrite <- (head_filter_find (fun t => (t_call_id t =? id)%Z)).
    unfold of_call. rewrite Hid.
    by destruct (List.filter (fun t => (t_call_id t =? id)%Z) (transcriptions d)).
  - intros Hfresh. unfold getCallById. by rewrite filter_id_absent.
Qed.

End MoreCallRepository.

(** ** The event log, the statistics and the runner *)

Section MoreQueries.

Import CallRepository CallQueries TranscriptionRepository TranscriptionQueries AIProcessor.

Lemma insert_by_timestamp_elem r r0 rows :
  r ∈ insert_by_timestamp r0 rows <-> r = r0 \/ r ∈ rows.
Proof.
  induction rows as [|r' rows IH]; simpl.
  - rewrite list_elem_of_singleton, elem_of_nil. tauto.
  - destruct (e_timestamp r0 <? e_timestamp r')%Z.
    + by rewrite elem_of_cons.
    + rewrite !elem_of_cons, IH. tauto.
Qed.

Lemma insert_by_timestamp_length r rows :
  length (insert_by_timestamp r rows) = S (length rows).
Proof.
  induction rows as [|r' rows IH]; simpl; [done |].
  destruct (e_timestamp r <? e_timestamp r')%Z; simpl; [done | by rewrite IH].
Qed.

Lemma insert_by_timestamp_Sorted r rows :
  Sorted logged_before rows -> Sorted logged_before (insert_by_timestamp r rows).
Proof.
  induction 1 as [|r' rows Hsorted IH Hhd]; simpl.
  - repeat constructor.
  - destruct (e_timestamp r <? e_timestamp r')%Z eqn:E.
    + constructor; [by constructor |]. constructor.
      unfold logged_before. apply Z.ltb_lt in E. lia.
    + constructor; [done |].
      assert (logged_before r' r) as Hle.
      { unfold logged_before. apply Z.ltb_ge in E. lia. }
      clear IH Hsorted. destruct rows as [|r'' rows]; simpl; [by constructor |].
      destruct (e_timestamp r <? e_timestamp r'')%Z; constructor; [done |].
      by inversion Hhd.
Qed.

Lemma order_by_timestamp_acc acc rows :
  Sorted logged_before acc ->
  Sorted logged_before (foldl (fun acc r => insert_by_timestamp r acc) acc rows) /\
  length (foldl (fun acc r => insert_by_timestamp r acc) acc rows)
    = (length acc + length rows)%nat /\
  forall r, r ∈ foldl (fun acc r => insert_by_timestamp r acc) acc rows <->
            r ∈ acc \/ r ∈ rows.
Proof.
  revert acc. induction rows as [|r0 rows IH]; intros acc Hacc; simpl.
  - split_and!; [done | lia |]. intros r. rewrite elem_of_nil. tauto.
  - destruct (IH (insert_by_timestamp r0 acc)) as (Hs & Hlen & Hin).
    { by apply insert_by_timestamp_Sorted. }
    split_and!; [done | |].
    + rewrite Hlen, insert_by_timestamp_length. lia.
    + intros r. rewrite Hin, insert_by_timestamp_elem, elem_of_cons. tauto.
Qed.

(** X5. [getCallEvents] lists the logged events of the call, those and no
    others, in ascending order of their timestamp.  [logCallEvent] for a
    call adds one event to that list, with the type and data given and
    the clock as timestamp, and leaves the lists of all other calls as
    they were; the tables of calls and of transcriptions are not
    touched. *)
Theorem logCallEvent_then_getCallEvents :
  forall (e : env) (callId : Z) (eventType eventData : string) (d : database),
    Sorted logged_before (getCallEvents callId d) /\
    (forall r, r ∈ getCallEvents callId d <-> r ∈ call_events d /\ e_call_id r = callId) /\
    (exists r,
       r ∈ getCallEvents callId (logCallEvent e (Some callId) eventType eventData d).1 /\
       event_type r = eventType /\ event_data r = eventData /\
       e_timestamp r = datetime_now e /\ event_id r = (call_events_seq d + 1)%Z) /\
    length (getCallEvents callId (logCallEvent e (Some callId) eventType eventData d).1)
      = S (length (getCallEvents callId d)) /\
    (forall other, other <> callId ->
       getCallEvents other (logCallEvent e (Some callId) eventType eventData d).1
         = getCallEvents other d) /\
    calls (logCallEvent e (Some callId) eventType eventData d).1 = calls d /\
    transcriptions (logCallEvent e (Some callId) eventType eventData d).1 = transcriptions d.
Proof.
  intros e callId eventType eventData d.
  assert (forall cid d0, Sorted logged_before (getCallEvents cid d0) /\
            length (getCallEvents cid d0)
              = length (List.filter (of_call_id cid) (call_events d0)) /\
            forall r, r ∈ getCallEvents cid d0 <->
                      r ∈ call_events d0 /\ e_call_id r = cid) as Hget.
  { intros cid d0. unfold getCallEvents, order_by_timestamp.
    destruct (order_by_timestamp_acc [] (List.filter (of_call_id cid) (call_events d0)))
      as (Hs & Hlen & Hin); [constructor |].
    split_and!; [done | done |]. intros r.
    rewrite Hin, elem_of_nil, !list_elem_of_In, filter_In.
    unfold of_call_id. rewrite Z.eqb_eq. tauto. }
  split_and!.
  - apply Hget.
  - apply Hget.
  - exists {| event_id := (call_events_seq d + 1)%Z; e_call_id := callId;
              event_type := eventType; event_data := eventData;
              e_timestamp := datetime_now e |}.
    split; [| done]. apply Hget. simpl. split; [| done].
    apply elem_of_app. right. by left.
  - destruct (Hget callId d) as (_ & -> & _).
    destruct (Hget callId (logCallEvent e (Some callId) eventType eventData d).1)
      as (_ & -> & _).
    simpl. rewrite List.filter_app, length_app. simpl. unfold of_call_id at 2. simpl.
    rewrite Z.eqb_refl. simpl. lia.
  - intros other Hne. unfold getCallEvents. simpl. rewrite List.filter_app. simpl.
    unfold of_call_id at 2. simpl.
    assert ((callId =? other)%Z = false) as -> by (apply Z.eqb_neq; congruence).
    by rewrite app_nil_r.
  - done.
  - done.
Qed.

Lemma sum_status_cons s r rows :
  sum_status s (r :: rows) =
  Some (Z.of_nat (length (List.filter (fun r => String.eqb (transcription_status r) s)
                            (r :: rows)))).
Proof. done. Qed.

Lemma count_statuses (rows : list transcription_row) :
  Forall (fun t => valid_status (transcription_status t)) rows ->
  (length (List.filter (fun r => String.eqb (transcription_status r) "pending") rows) +
   length (List.filter (fun r => String.eqb (transcription_status r) "processing") rows) +
   length (List.filter (fun r => String.eqb (transcription_status r) "completed") rows) +
   length (List.filter (fun r => String.eqb (transcription_status r) "failed") rows))%nat
  = length rows.
Proof.
  induction 1 as [|r rows Hr Hrows IH]; [done |].
  cbn [List.filter]. destruct Hr as [-> | [-> | [-> | ->]]]; simpl; lia.
Qed.

(** X6. Over an empty table [getStatistics] gives a total of 0 and NULL,
    not 0, for each of the four counts.  Over a table with a row it gives
    the number of rows as total and a number for each count; and when
    every status in the table is one of the four, the four counts add up
    to the total. *)
Theorem getStatistics_counts :
  forall (d : database),
    (transcriptions d = [] ->
       getStatistics d =
         {| total := 0; pending := None; processing := None;
            completed := None; failed := None |}) /\
    (transcriptions d <> [] ->
       total (getStatistics d) = Z.of_nat (length (transcriptions d)) /\
       exists p r c f,
         pending (getStatistics d) = Some p /\ processing (getStatistics d) = Some r /\
         completed (getStatistics d) = Some c /\ failed (getStatistics d) = Some f /\
         (0 <= p)%Z /\ (0 <= r)%Z /\ (0 <= c)%Z /\ (0 <= f)%Z /\
         (Forall (fun t => valid_status (transcription_status t)) (transcriptions d) ->
            (p + r + c + f)%Z = total (getStatistics d))).
Proof.
  intros d. split.
  - intros Hempty. unfold getStatistics. by rewrite Hempty.
  - intros Hne. split; [done |]. unfold getStatistics.
    destruct (transcriptions d) as [|t rows] eqn:Hrows; [done |].
    rewrite !sum_status_cons. do 4 eexists.
    split_and!; try reflexivity; try lia.
    intros Hvalid. cbn [total]. rewrite <- (count_statuses (t :: rows) Hvalid). lia.
Qed.

(** X7. What [processRecording] returns is what it stored.  On a job that
    is there and without an error, it returns success with a text of the
    pool, and the job is then ['completed'] with that text, the clock at
    the start as [processing_started_at] and the clock at the end as
    [processing_completed_at]; with an error it returns the failure, and
    the job is ['failed'] with the message and the text it had. *)
Theorem processRecording_stores_what_it_returns :
  forall (i : run_input) (id : Z) (path : string) (d : database) (job : transcription_row),
    getTranscriptionById id d = Some job ->
    exists job',
      getTranscriptionById id (processRecording i id path d).1.1 = Some job' /\
      transcription_id job' = id /\
      t_call_id job' = t_call_id job /\
      recording_path job' = recording_path job /\
      processing_started_at job' = Some (datetime_now (at_start i)) /\
      processing_completed_at job' = Some (datetime_now (at_end i)) /\
      match fault i with
      | None =>
          (processRecording i id path d).1.2 = Success id (generateMockTranscription (draw i)) /\
          generateMockTranscription (draw i) ∈ mockTranscriptions /\
          transcription_status job' = "completed" /\
          transcription_text job' = Some (generateMockTranscription (draw i)) /\
          error_message job' = error_message job
      | Some message =>
          (processRecording i id path d).1.2 = Failure id message /\
          transcription_status job' = "failed" /\
          error_message job' = Some message /\
          transcription_text job' = transcription_text job
      end.
Proof.
  intros i id path d job Hjob. unfold getTranscriptionById in *.
  rewrite processRecording_transcriptions.
  change (map ?f (transcriptions d)) with (sql_update (has_id id)
    (fun r => match fault i with
              | Some msg => set_failed (at_end i) msg (set_processing (at_start i) r)
              | None => set_completed (at_end i) (generateMockTranscription (draw i))
                          (set_processing (at_start i) r)
              end) (transcriptions d)).
  rewrite find_update_job by (intros r; by destruct (fault i)).
  rewrite Hjob. simpl. pose proof Hjob as Hfound.
  apply find_some in Hjob as [_ Hid]. rewrite Hid. apply has_id_true in Hid.
  eexists. split; [reflexivity |].
  unfold processRecording. simpl.
  destruct (fault i) as [message|]; simpl; split_and!; try done.
  unfold generateMockTranscription. apply list_elem_of_In, nth_In.
  apply Nat.mod_upper_bound. done.
Qed.

(** X8. [processRecording] does not look at what [markAsProcessing]
    returns: for an id no job has, it leaves the store exactly as it is
    and still returns success (or the failure, when an error was
    raised). *)
Theorem processRecording_of_missing_job :
  forall (i : run_input) (id : Z) (path : string) (d : database),
    getTranscriptionById id d = None ->
    (processRecording i id path d).1.1 = d /\
    (processRecording i id path d).1.2 =
      match fault i with
      | None => Success id (generateMockTranscription (draw i))
      | Some message => Failure id message
      end.
Proof.
  intros i id path d Hnone. unfold getTranscriptionById in Hnone.
  unfold processRecording, markAsProcessing, completeTranscription, failTranscription.
  destruct (fault i); simpl.
  - rewrite !sql_update_absent by done. by rewrite !with_transcriptions_same.
  - rewrite !sql_update_absent by done. by rewrite !with_transcriptions_same.
Qed.

End MoreQueries.

(** ** Processing several recordings at once *)

Section Batch.

Import TranscriptionRepository AIProcessor AIBatch.

Lemma apply_rows_id d : apply_rows (fun x => x) d = d.
Proof. unfold apply_rows. rewrite map_id. by destruct d. Qed.

Lemma apply_rows_compose f g d :
  apply_rows g (apply_rows f d) = apply_rows (fun x => g (f x)) d.
Proof. unfold apply_rows. simpl. by rewrite map_map. Qed.

Lemma apply_rows_ext f g d : (forall x, f x = g x) -> apply_rows f d = apply_rows g d.
Proof. intros H. unfold apply_rows. f_equal. by apply map_ext. Qed.

Lemma begin_processing_rows i r d : (begin_processing i r d).1 = apply_rows (mark_row i r) d.
Proof. done. Qed.

Lemma finish_processing_rows i r d :
  (finish_processing i r d).1.1 = apply_rows (finish_row i r) d /\
  (finish_processing i r d).1.2 = settles_with i r.
Proof.
  unfold finish_processing, settles_with, apply_rows, finish_row,
    completeTranscription, failTranscription, sql_update.
  destruct (fault i); simpl; split; try done; f_equal; apply map_ext; intros x;
    by destruct (has_id (transcriptionId r) x).
Qed.

Lemma processRecording_rows i r d :
  (processRecording i (transcriptionId r) (recordingPath r) d).1.1
    = apply_rows (fun x => finish_row i r (mark_row i r x)) d /\
  (processRecording i (transcriptionId r) (recordingPath r) d).1.2 = settles_with i r.
Proof.
  split.
  - unfold apply_rows. rewrite <- (with_transcriptions_same
      (processRecording i (transcriptionId r) (recordingPath r) d).1.1).
    rewrite processRecording_transcriptions.
    unfold processRecording, markAsProcessing, completeTranscription, failTranscription.
    destruct (fault i) eqn:Hf; simpl; f_equal; apply map_ext; intros x;
      unfold finish_row, mark_row, has_id; rewrite Hf; simpl;
      destruct (transcription_id x =? transcriptionId r)%Z eqn:E; simpl;
      by rewrite ?E.
  - unfold processRecording, settles_with. simpl. by destruct (fault i).
Qed.

Lemma begin_all_rows inputs recordings : forall d,
  (begin_all inputs recordings d).1 = apply_rows (marks inputs recordings) d.
Proof.
  revert recordings. induction inputs as [|i inputs IH]; intros recordings d.
  - simpl. by rewrite apply_rows_id.
  - destruct recordings as [|r recordings]; [simpl; by rewrite apply_rows_id |].
    cbn [begin_all]. pose proof (begin_processing_rows i r d) as Hd.
    destruct (begin_processing i r d) as [d1 out1]. simpl in Hd. subst d1.
    specialize (IH recordings (apply_rows (mark_row i r) d)).
    destruct (begin_all inputs recordings (apply_rows (mark_row i r) d)) as [d2 out2].
    simpl in *. by rewrite IH, apply_rows_compose.
Qed.

Lemma finish_all_rows inputs recordings : forall d,
  (finish_all inputs recordings d).1.1 = apply_rows (finishes inputs recordings) d /\
  (finish_all inputs recordings d).1.2 = settle_all inputs recordings.
Proof.
  revert recordings. induction inputs as [|i inputs IH]; intros recordings d.
  - simpl. by rewrite apply_rows_id.
  - destruct recordings as [|r recordings]; [simpl; by rewrite apply_rows_id |].
    cbn [finish_all]. destruct (finish_processing_rows i r d) as [Hd Ho].
    destruct (finish_processing i r d) as [[d1 o] out1]. simpl in Hd, Ho. subst d1 o.
    destruct (IH recordings (apply_rows (finish_row i r) d)) as [Hd2 Ho2].
    destruct (finish_all inputs recordings (apply_rows (finish_row i r) d))
      as [[d2 os] out2].
    simpl in *. by rewrite Hd2, Ho2, apply_rows_compose.
Qed.

Lemma process_in_turn_rows inputs recordings : forall d,
  (process_in_turn inputs recordings d).1 = apply_rows (turns inputs recordings) d /\
  (process_in_turn inputs recordings d).2 = settle_all inputs recordings.
Proof.
  revert recordings. induction inputs as [|i inputs IH]; intros recordings d.
  - simpl. by rewrite apply_rows_id.
  - destruct recordings as [|r recordings]; [simpl; by rewrite apply_rows_id |].
    cbn [process_in_turn]. destruct (processRecording_rows i r d) as [Hd Ho].
    destruct (processRecording i (transcriptionId r) (recordingPath r) d)
      as [[d1 o] out1]. simpl in Hd, Ho. subst d1 o.
    destruct (IH recordings (apply_rows (fun x => finish_row i r (mark_row i r x)) d))
      as [Hd2 Ho2].
    destruct (process_in_turn inputs recordings _) as [d2 os].
    simpl in *. by rewrite Hd2, Ho2, apply_rows_compose.
Qed.

Lemma same_but_status_refl x : same_but_status x x.
Proof. by repeat split. Qed.

Lemma same_but_status_trans x y z :
  same_but_status x y -> same_but_status y z -> same_but_status x z.
Proof.
  intros (?&?&?&?&?&?&?&?) (?&?&?&?&?&?&?&?). repeat split; congruence.
Qed.

Lemma mark_row_same i r x y :
  same_but_status x y -> same_but_status (mark_row i r x) (mark_row i r y).
Proof.
  intros H. pose proof H as (Hid&?&?&?&?&?&?&?). unfold mark_row, has_id. rewrite Hid.
  destruct (transcription_id y =? transcriptionId r)%Z; [| done].
  repeat split; simpl; congruence.
Qed.

Lemma finish_row_same i r x y :
  same_but_status x y -> same_but_status (finish_row i r x) (finish_row i r y).
Proof.
  intros H. pose proof H as (Hid&?&?&?&?&?&?&?). unfold finish_row, has_id. rewrite Hid.
  destruct (transcription_id y =? transcriptionId r)%Z; [| done].
  destruct (fault i); repeat split; simpl; congruence.
Qed.

(** A finish that applies makes two rows equal that differed in status
    and [updated_at] only. *)
Lemma finish_row_equalises i r x y :
  same_but_status x y -> transcription_id x = transcriptionId r ->
  finish_row i r x = finish_row i r y.
Proof.
  intros (Hid&?&?&?&?&?&?&?) Hr. unfold finish_row, has_id.
  rewrite <- Hid, Hr, Z.eqb_refl.
  destruct x, y. simpl in *. subst. by destruct (fault i).
Qed.

Lemma mark_row_id i r x : transcription_id (mark_row i r x) = transcription_id x.
Proof. unfold mark_row. by destruct (has_id _ x). Qed.

Lemma finish_row_id i r x : transcription_id (finish_row i r x) = transcription_id x.
Proof. unfold finish_row. destruct (has_id _ x); [| done]. by destruct (fault i). Qed.

Lemma mark_finish_swap i r i' r' x :
  same_but_status (mark_row i r (finish_row i' r' x)) (finish_row i' r' (mark_row i r x)).
Proof.
  unfold mark_row, finish_row, has_id.
  destruct (transcription_id x =? transcriptionId r')%Z eqn:E';
    destruct (transcription_id x =? transcriptionId r)%Z eqn:E;
    destruct (fault i'); simpl; rewrite ?E, ?E'; by repeat split.
Qed.

Lemma marks_id inputs recordings : forall x,
  transcription_id (marks inputs recordings x) = transcription_id x.
Proof.
  revert recordings. induction inputs as [|i inputs IH]; intros [|r recordings] x;
    simpl; try done. by rewrite IH, mark_row_id.
Qed.

Lemma marks_not_in_batch inputs recordings : forall x,
  in_batch (transcription_id x) inputs recordings = false ->
  marks inputs recordings x = x.
Proof.
  revert recordings. induction inputs as [|i inputs IH]; intros [|r recordings] x;
    simpl; try done.
  intros [Hr Hrest]%orb_false_iff.
  assert (mark_row i r x = x) as ->; [| by apply IH].
  unfold mark_row, has_id. by rewrite Z.eqb_sym, Hr.
Qed.

(** Marks moved past a finish change status and [updated_at] at most. *)
Lemma marks_past_finish inputs recordings i r : forall u v,
  same_but_status u (finish_row i r v) ->
  same_but_status (marks inputs recordings u) (finish_row i r (marks inputs recordings v)).
Proof.
  revert recordings. induction inputs as [|i0 inputs IH]; intros [|r0 recordings] u v H;
    simpl; try done.
  apply IH. eapply same_but_status_trans; [by apply mark_row_same |].
  apply mark_finish_swap.
Qed.

(** The finishes of a batch make two rows equal that differed in status
    and [updated_at] only, when one of them applies. *)
Lemma finishes_equalise inputs recordings : forall x y,
  same_but_status x y ->
  same_but_status (finishes inputs recordings x) (finishes inputs recordings y) /\
  (in_batch (transcription_id x) inputs recordings = true ->
   finishes inputs recordings x = finishes inputs recordings y).
Proof.
  revert recordings. induction inputs as [|i inputs IH]; intros [|r recordings] x y H;
    simpl; try done.
  destruct (IH recordings _ _ (finish_row_same i r x y H)) as [Hsame Heq].
  split; [done |]. rewrite finish_row_id in Heq.
  destruct (transcriptionId r =? transcription_id x)%Z eqn:E; simpl.
  - intros _. apply Z.eqb_eq in E. by rewrite (finish_row_equalises i r x y).
  - done.
Qed.

Lemma turns_as_batch inputs recordings : forall x,
  turns inputs recordings x = finishes inputs recordings (marks inputs recordings x).
Proof.
  revert recordings. induction inputs as [|i inputs IH]; intros [|r recordings] x;
    simpl; try done.
  rewrite IH.
  pose proof (marks_past_finish inputs recordings i r
                (finish_row i r (mark_row i r x)) (mark_row i r x)
                (same_but_status_refl _)) as Hpast.
  destruct (finishes_equalise inputs recordings _ _ Hpast) as [_ Heq].
  rewrite marks_id, finish_row_id, mark_row_id in Heq.
  destruct (in_batch (transcription_id x) inputs recordings) eqn:Hin; [by apply Heq |].
  rewrite !marks_not_in_batch; try done.
  - by rewrite mark_row_id.
  - by rewrite finish_row_id, mark_row_id.
Qed.

(** X9. [processMultiple], which starts all runs at once, leaves the
    store exactly as taking the same recordings through
    [processRecording] one after the other does, and settles with the
    same results in the same order - also when a recording is listed
    more than once. *)
Theorem processMultiple_is_processing_in_turn :
  forall (inputs : list run_input) (recordings : list recording) (d : database),
    (processMultiple inputs recordings d).1.1 = (process_in_turn inputs recordings d).1 /\
    (processMultiple inputs recordings d).1.2 = (process_in_turn inputs recordings d).2 /\
    (processMultiple inputs recordings d).1.2 = settle_all inputs recordings.
Proof.
  intros inputs recordings d. unfold processMultiple.
  pose proof (begin_all_rows inputs recordings d) as Hb.
  destruct (begin_all inputs recordings d) as [d1 out1]. simpl in Hb. subst d1.
  destruct (finish_all_rows inputs recordings (apply_rows (marks inputs recordings) d))
    as [Hf Ho].
  destruct (finish_all inputs recordings _) as [[d2 os] out2]. simpl in *. subst d2 os.
  destruct (process_in_turn_rows inputs recordings d) as [-> ->].
  split; [| done]. rewrite apply_rows_compose. apply apply_rows_ext.
  intros x. by rewrite turns_as_batch.
Qed.

End Batch.

(** ** The paginated list of calls *)

Section Pagination.

Import CallRepository CallQueries.

Lemma insert_by_start_time_elem c c0 rows :
  c ∈ insert_by_start_time c0 rows <-> c = c0 \/ c ∈ rows.
Proof.
  induction rows as [|c' rows IH]; simpl.
  - rewrite list_elem_of_singleton, elem_of_nil. tauto.
  - destruct (start_time c' <=? start_time c0)%Z.
    + by rewrite elem_of_cons.
    + rewrite !elem_of_cons, IH. tauto.
Qed.

Lemma insert_by_start_time_length c rows :
  length (insert_by_start_time c rows) = S (length rows).
Proof.
  induction rows as [|c' rows IH]; simpl; [done |].
  destruct (start_time c' <=? start_time c)%Z; simpl; [done | by rewrite IH].
Qed.

Lemma insert_by_start_time_Sorted c rows :
  Sorted (fun x y => (start_time y <= start_time x)%Z) rows ->
  Sorted (fun x y => (start_time y <= start_time x)%Z) (insert_by_start_time c rows).
Proof.
  induction 1 as [|c' rows Hsorted IH Hhd]; simpl.
  - repeat constructor.
  - destruct (start_time c' <=? start_time c)%Z eqn:E.
    + constructor; [by constructor |]. constructor. by apply Z.leb_le in E.
    + constructor; [done |].
      assert (start_time c <= start_time c')%Z as Hle by (apply Z.leb_gt in E; lia).
      clear IH Hsorted. destruct rows as [|c'' rows]; simpl; [by constructor |].
      destruct (start_time c'' <=? start_time c)%Z; constructor; [done |].
      by inversion Hhd.
Qed.

Lemma order_by_start_time_acc acc rows :
  Sorted (fun x y => (start_time y <= start_time x)%Z) acc ->
  Sorted (fun x y => (start_time y <= start_time x)%Z)
    (foldl (fun acc c => insert_by_start_time c acc) acc rows) /\
  length (foldl (fun acc c => insert_by_start_time c acc) acc rows)
    = (length acc + length rows)%nat /\
  forall c, c ∈ foldl (fun acc c => insert_by_start_time c acc) acc rows <->
            c ∈ acc \/ c ∈ rows.
Proof.
  revert acc. induction rows as [|c0 rows IH]; intros acc Hacc; simpl.
  - split_and!; [done | lia |]. intros c. rewrite elem_of_nil. tauto.
  - destruct (IH (insert_by_start_time c0 acc)) as (Hs & Hlen & Hin).
    { by apply insert_by_start_time_Sorted. }
    split_and!; [done | |].
    + rewrite Hlen, insert_by_start_time_length. lia.
    + intros c. rewrite Hin, insert_by_start_time_elem, elem_of_cons. tauto.
Qed.

Lemma left_join_call ts c row : row ∈ left_join ts c -> d_call row = c.
Proof.
  unfold left_join. destruct (List.filter (of_call c) ts) as [|t rest].
  - by intros ->%list_elem_of_singleton.
  - intros (t' & -> & _)%list_elem_of_fmap. done.
Qed.

(** Rows of one call, one after the other, are in order. *)
Lemma same_call_Sorted (c : call_row) (rows : list call_details) :
  (forall r, r ∈ rows -> d_call r = c) ->
  Sorted (fun x y => started_after (listed x) (listed y)) rows.
Proof.
  induction rows as [|r rows IH]; intros Hall; constructor.
  - apply IH. intros r' Hr'. apply Hall. by right.
  - destruct rows as [|r' rows]; constructor. unfold started_after. simpl.
    rewrite (Hall r), (Hall r') by (repeat constructor). lia.
Qed.

(** Two lists in order, the first ending no earlier than the second
    begins, are in order one after the other. *)
Lemma Sorted_app_bridge (rows1 rows2 : list call_details) (c : call_row) :
  (forall r, r ∈ rows1 -> d_call r = c) ->
  Sorted (fun x y => started_after (listed x) (listed y)) rows2 ->
  (forall r, head rows2 = Some r -> (start_time (d_call r) <= start_time c)%Z) ->
  Sorted (fun x y => started_after (listed x) (listed y)) (rows1 ++ rows2).
Proof.
  intros Hall H2 Hbridge. induction rows1 as [|r rows1 IH]; simpl; [done |].
  constructor.
  - apply IH. intros r' Hr'. apply Hall. by right.
  - destruct rows1 as [|r' rows1]; simpl.
    + destruct rows2 as [|r2 rows2]; constructor. unfold started_after. simpl.
      rewrite (Hall r) by (repeat constructor). by apply Hbridge.
    + constructor. unfold started_after. simpl.
      rewrite (Hall r), (Hall r') by (repeat constructor). lia.
Qed.

Lemma left_join_head ts c : exists r, head (left_join ts c) = Some r /\ d_call r = c.
Proof.
  unfold left_join. destruct (List.filter (of_call c) ts) as [|t rest]; simpl; by eauto.
Qed.

(** The join over calls that are in order is in order. *)
Lemma joined_Sorted ts (cs : list call_row) :
  Sorted (fun x y => (start_time y <= start_time x)%Z) cs ->
  Sorted (fun x y => started_after (listed x) (listed y)) (flat_map (left_join ts) cs).
Proof.
  induction 1 as [|c cs Hsorted IH Hhd]; simpl; [constructor |].
  apply (Sorted_app_bridge _ _ c); [apply left_join_call | done |].
  intros r Hr. destruct cs as [|c' cs]; [done |].
  simpl in Hr. destruct (left_join_head ts c') as (r' & Hr' & Hc').
  destruct (left_join ts c') as [|r0 rows0]; [done |].
  simpl in Hr, Hr'. assert (r = r') as -> by congruence.
  rewrite Hc'. by inversion Hhd.
Qed.

Lemma Sorted_tail {A : Type} (R : A -> A -> Prop) (x : A) (l : list A) :
  Sorted R (x :: l) -> Sorted R l.
Proof. by inversion 1. Qed.

Lemma Sorted_drop {A : Type} (R : A -> A -> Prop) (n : nat) (l : list A) :
  Sorted R l -> Sorted R (drop n l).
Proof.
  revert l. induction n as [|n IH]; intros l Hl; [by rewrite drop_0 |].
  destruct l as [|x l]; [done |]. simpl. apply IH. by eapply Sorted_tail.
Qed.

Lemma Sorted_take {A : Type} (R : A -> A -> Prop) (n : nat) (l : list A) :
  Sorted R l -> Sorted R (take n l).
Proof.
  revert l. induction n as [|n IH]; intros l Hl; [constructor |].
  destruct l as [|x l]; [constructor |]. simpl.
  inversion Hl as [|? ? Hrest Hhd]; subst. constructor; [by apply IH |].
  destruct l as [|y l]; [rewrite take_nil; constructor |].
  destruct n; [constructor |].
  simpl. constructor. by inversion Hhd.
Qed.

Lemma Sorted_listed (rows : list call_details) :
  Sorted (fun x y => started_after (listed x) (listed y)) rows ->
  Sorted started_after (map listed rows).
Proof.
  induction 1 as [|r rows Hsorted IH Hhd]; simpl; constructor; [done |].
  destruct Hhd; simpl; by constructor.
Qed.

Lemma limit_offset_Sorted {A : Type} (R : A -> A -> Prop) limit offset (l : list A) :
  Sorted R l -> Sorted R (limit_offset limit offset l).
Proof.
  intros Hl. unfold limit_offset. destruct (limit <? 0)%Z.
  - by apply Sorted_drop.
  - by apply Sorted_take, Sorted_drop.
Qed.

Lemma limit_offset_elem {A : Type} limit offset (l : list A) (x : A) :
  x ∈ limit_offset limit offset l -> x ∈ l.
Proof.
  unfold limit_offset. destruct (limit <? 0)%Z.
  - intros H. by eapply subseteq_drop.
  - intros H. eapply subseteq_drop, subseteq_take, H.
Qed.

Lemma limit_offset_length {A : Type} limit offset (l : list A) :
  (0 <= limit)%Z ->
  length (limit_offset limit offset l)
    = Nat.min (Z.to_nat limit) (length l - Z.to_nat offset).
Proof.
  intros Hl. unfold limit_offset.
  destruct (limit <? 0)%Z eqn:E; [apply Z.ltb_lt in E; lia |].
  by rewrite length_take, length_drop.
Qed.

Lemma filter_of_call_short ts c :
  NoDup (map t_call_id ts) -> (length (List.filter (of_call c) ts) <= 1)%nat.
Proof.
  induction ts as [|t ts IH]; simpl; [lia |].
  intros [Hnotin Hnd]%NoDup_cons. specialize (IH Hnd).
  destruct (of_call c t) eqn:E; [| done]. simpl.
  assert (List.filter (of_call c) ts = []) as ->; [| simpl; lia].
  destruct (List.filter (of_call c) ts) as [|t' rest] eqn:F; [done |].
  exfalso. apply Hnotin.
  assert (In t' (List.filter (of_call c) ts)) as Hin by (rewrite F; by left).
  apply filter_In in Hin as [Hin E'].
  unfold of_call in E, E'. apply Z.eqb_eq in E, E'.
  apply list_elem_of_fmap. exists t'. split; [congruence | by apply list_elem_of_In].
Qed.

Lemma left_join_single ts c :
  NoDup (map t_call_id ts) -> length (left_join ts c) = 1%nat.
Proof.
  intros Hnd. pose proof (filter_of_call_short ts c Hnd) as Hlen.
  unfold left_join. destruct (List.filter (of_call c) ts) as [|t rest]; [done |].
  simpl in *. rewrite length_map. lia.
Qed.

Lemma joined_length ts (cs : list call_row) :
  NoDup (map t_call_id ts) -> length (flat_map (left_join ts) cs) = length cs.
Proof.
  intros Hnd. induction cs as [|c cs IH]; simpl; [done |].
  by rewrite length_app, left_join_single, IH.
Qed.

(** X10. [getAllCalls] lists newest first, no more rows than the limit
    asks for, and only calls of the store that pass the filter; when no
    call has more than one transcription, the page holds the rows from
    [offset] on, up to [limit] of them, and [hasMore] says whether calls
    are left beyond the page. *)
Theorem getAllCalls_pages_newest_first :
  forall (limit offset : Z) (matches : call_row -> bool) (d : database),
    (0 <= limit)%Z -> (0 <= offset)%Z ->
    Sorted started_after (p_calls (getAllCalls limit offset matches d)) /\
    (Z.of_nat (length (p_calls (getAllCalls limit offset matches d))) <= limit)%Z /\
    (forall row, row ∈ p_calls (getAllCalls limit offset matches d) ->
       l_call row ∈ calls d /\ matches (l_call row) = true) /\
    (one_job_per_call d ->
       Z.of_nat (length (p_calls (getAllCalls limit offset matches d)))
         = Z.min limit (Z.max 0 (p_total (getAllCalls limit offset matches d) - offset)) /\
       (hasMore (getAllCalls limit offset matches d) = true <->
        (offset + limit < p_total (getAllCalls limit offset matches d))%Z)).
Proof.
  intros limit offset matches d Hlimit Hoffset.
  unfold getAllCalls. cbn [p_calls p_total hasMore].
  destruct (order_by_start_time_acc [] (List.filter matches (calls d)))
    as (Hsorted & Hlen & Hin); [constructor |].
  fold (order_by_start_time_desc (List.filter matches (calls d))) in Hsorted, Hlen, Hin.
  split_and!.
  - by apply Sorted_listed, limit_offset_Sorted, joined_Sorted.
  - rewrite length_map, limit_offset_length by done. lia.
  - intros row (r & -> & Hr%limit_offset_elem)%list_elem_of_fmap.
    apply list_elem_of_In, in_flat_map in Hr as (c & Hc & Hr).
    apply list_elem_of_In, left_join_call in Hr. simpl. rewrite Hr.
    apply list_elem_of_In, Hin in Hc as [Hc | Hc]; [by apply elem_of_nil in Hc |].
    apply list_elem_of_In, filter_In in Hc as [Hc Hm].
    split; [by apply list_elem_of_In | done].
  - intros Hone. rewrite length_map, limit_offset_length by done.
    rewrite joined_length, Hlen by done. simpl.
    split; [lia |]. rewrite Z.ltb_lt. lia.
Qed.

End Pagination.

(** ** What every step keeps *)

Section MoreInvariants.

Import CallRepository TranscriptionRepository.

Ltac open_handlers :=
  unfold AMIClient.handle, AMIClient.handleNewChannel, AMIClient.handleNewState,
    AMIClient.handleDial, AMIClient.handleBridge, AMIClient.handleHangup,
    AMIClient.handleDTMF, AMIClient.on_connect, AMIClient.on_error, AMIClient.on_close,
    AMIClient.on_connectionTimeout, AMIClient.on_reconnectTimer, AMIClient.connect,
    AMIClient.scheduleReconnect,
    ARIClient.handle, ARIClient.handleStasisStart, ARIClient.answer_returned,
    ARIClient.playPrompt, ARIClient.handleStasisEnd, ARIClient.handlePlaybackFinished,
    ARIClient.startRecording, ARIClient.handleRecordingFinished,
    ARIClient.connect_returned, ARIClient.on_ws_close, ARIClient.on_ws_error,
    ARIClient.scheduleReconnect, ARIClient.hangupChannel, ARIClient.stopRecording,
    AIProcessor.processRecording, markAsProcessing, completeTranscription,
    failTranscription, createTranscription,
    createCall, insert_call, logCallEvent, updateCallAnswered, updateCallEnded in *.

Ltac crunch := repeat (simpl in *; case_match); simplify_eq; simpl in *.

(** The event-stream client never writes to [transcriptions]. *)
Lemma ami_handle_transcriptions e ev c d :
  transcriptions (AMIClient.handle e ev c d).1.2 = transcriptions d /\
  transcriptions_seq (AMIClient.handle e ev c d).1.2 = transcriptions_seq d.
Proof. destruct ev; open_handlers; crunch; done. Qed.

(** The control-channel client never writes to [call_events]. *)
Lemma ari_handle_call_events e ev c d :
  call_events (ARIClient.handle e ev c d).1.2 = call_events d /\
  call_events_seq (ARIClient.handle e ev c d).1.2 = call_events_seq d.
Proof. destruct ev; open_handlers; crunch; done. Qed.

(** The runner writes to [transcriptions] only. *)
Lemma processRecording_frame i id path d :
  calls (AIProcessor.processRecording i id path d).1.1 = calls d /\
  calls_seq (AIProcessor.processRecording i id path d).1.1 = calls_seq d /\
  call_events (AIProcessor.processRecording i id path d).1.1 = call_events d /\
  transcriptions_seq (AIProcessor.processRecording i id path d).1.1 = transcriptions_seq d.
Proof. open_handlers; crunch; done. Qed.

Lemma sql_update_call_ids p f (rows : list call_row) :
  (forall r, call_id (f r) = call_id r) ->
  map call_id (sql_update p f rows) = map call_id rows.
Proof.
  intros Hf. unfold sql_update. rewrite map_map. apply map_ext.
  intros r. by destruct (p r).
Qed.

Lemma call_ids_grow_refl d : call_ids_grow d d.
Proof. by left. Qed.

Lemma ami_handle_call_ids e ev c d : call_ids_grow d (AMIClient.handle e ev c d).1.2.
Proof.
  destruct ev; open_handlers; crunch; unfold call_ids_grow, call_ids; simpl;
    rewrite ?sql_update_call_ids, ?map_app by done; simpl; auto.
Qed.

Lemma ari_handle_call_ids e ev c d : call_ids_grow d (ARIClient.handle e ev c d).1.2.
Proof.
  destruct ev; open_handlers; crunch; unfold call_ids_grow, call_ids; simpl;
    rewrite ?sql_update_call_ids, ?map_app by done; simpl; auto.
Qed.

Lemma step_call_ids e ev s : call_ids_grow (db s) (db (step e ev s).1).
Proof.
  destruct ev as [a | a | i tid path]; simpl.
  - pose proof (ami_handle_call_ids e a (ami s) (db s)) as H.
    by destruct (AMIClient.handle e a (ami s) (db s)) as [[c d] out].
  - pose proof (ari_handle_call_ids e a (ari s) (db s)) as H.
    by destruct (ARIClient.handle e a (ari s) (db s)) as [[c d] out].
  - destruct (processRecording_frame i tid path (db s)) as (Hc & Hs & _).
    destruct (AIProcessor.processRecording i tid path (db s)) as [[d o] out].
    simpl in *. left. unfold call_ids. by rewrite Hc, Hs.
Qed.

Lemma call_ids_ok_alt d :
  call_ids_ok d <->
  NoDup (call_ids d) /\ Forall (fun id => (id <= calls_seq d)%Z) (call_ids d).
Proof.
  unfold call_ids_ok, call_ids. rewrite !Forall_forall.
  split; intros [Hnd Hle]; (split; [done |]).
  - intros id (r & -> & Hr)%list_elem_of_fmap. by apply Hle.
  - intros r Hr. apply Hle. apply list_elem_of_fmap. by exists r.
Qed.

Lemma call_ids_grow_ok d d' : call_ids_grow d d' -> call_ids_ok d -> call_ids_ok d'.
Proof.
  rewrite !call_ids_ok_alt.
  intros [[-> ->] | [-> ->]] [Hnd Hle]; [done |]. split.
  - apply NoDup_app. split_and!; [done | | apply NoDup_singleton].
    intros x Hx ->%list_elem_of_singleton.
    rewrite Forall_forall in Hle. specialize (Hle _ Hx). simpl in Hle. lia.
  - apply Forall_app. split.
    + eapply Forall_impl; [exact Hle |]. simpl. intros. lia.
    + repeat constructor. lia.
Qed.

Lemma call_ids_grow_elem d d' id : call_ids_grow d d' -> id ∈ call_ids d -> id ∈ call_ids d'.
Proof.
  intros [[-> _] | [-> _]] Hin; [done |]. apply elem_of_app. by left.
Qed.

(** A call keeps its id through every step. *)
Lemma step_keeps_call_id e ev s uid r :
  getCallByUniqueId uid (db s) = Some r ->
  exists r', getCallByUniqueId uid (db (step e ev s).1) = Some r' /\ call_id r' = call_id r.
Proof.
  intros Hr. destruct ev as [a | a | i tid path]; simpl.
  - destruct a as [uniqueid ch num name exten | u ch st num | u sub dest dial dch |
                   | u ch cause txt num | | | | | | ]; unfold AMIClient.handle.
    + pose proof (handleNewChannel_keeps_record e uniqueid ch num name exten
                    (ami s) (db s) uid r Hr) as H.
      destruct (AMIClient.handleNewChannel _ _ _ _ _ _ _ _) as [[c d] out]. by eauto.
    + pose proof (handleNewState_record e u ch st num (ami s) (db s) uid r Hr) as H.
      destruct (AMIClient.handleNewState _ _ _ _ _ _ _) as [[c d] out]. simpl in *.
      eexists. split; [exact H |]. by destruct (_ && _).
    + pose proof (handleDial_calls e u sub dest dial dch (ami s) (db s)) as H.
      apply (same_calls_same_record uid) in H.
      destruct (AMIClient.handleDial _ _ _ _ _ _ _ _) as [[c d] out]. simpl in *.
      rewrite H. by eauto.
    + by eauto.
    + destruct (handleHangup_record e u ch cause txt num (ami s) (db s) uid r Hr)
        as [secs H].
      destruct (AMIClient.handleHangup _ _ _ _ _ _ _ _) as [[c d] out]. simpl in *.
      eexists. split; [exact H |]. by destruct (String.eqb uid u).
    + by eauto.
    + by eauto.
    + by eauto.
    + destruct (AMIClient.on_close (ami s)) as [c out]. by eauto.
    + destruct (AMIClient.on_connectionTimeout (ami s)) as [c out]. by eauto.
    + by eauto.
  - assert (getCallByUniqueId uid (ARIClient.handle e a (ari s) (db s)).1.2 = Some r) as H.
    { destruct a; unfold ARIClient.handle;
        try (by apply handleRecordingFinished_keeps_record);
        try done;
        match goal with |- context [let '(_, _) := ?x in _] => by destruct x end. }
    destruct (ARIClient.handle e a (ari s) (db s)) as [[c d] out]. by eauto.
  - pose proof (processRecording_calls i tid path (db s)) as H.
    apply (same_calls_same_record uid) in H.
    destruct (AIProcessor.processRecording i tid path (db s)) as [[d o] out]. simpl in *.
    rewrite H. by eauto.
Qed.

(** X11. Call ids are handed out once: along every run of the gateway,
    from a store whose call ids are distinct and not beyond the last
    rowid, the ids stay distinct and not beyond the last rowid, the last
    rowid never goes down, and a call that has a record keeps the id it
    has. *)
Theorem call_ids_are_never_reused :
  forall (s : system) (trace : list (env * event)),
    call_ids_ok (db s) ->
    call_ids_ok (db (run trace s)) /\
    (calls_seq (db s) <= calls_seq (db (run trace s)))%Z /\
    (forall uid r,
       getCallByUniqueId uid (db s) = Some r ->
       exists r', getCallByUniqueId uid (db (run trace s)) = Some r' /\
                  call_id r' = call_id r).
Proof.
  intros s trace Hok. induction trace as [|[e ev] trace IH] using rev_ind.
  - split_and!; [done | done | by eauto].
  - destruct IH as (IHok & IHseq & IHid). rewrite run_snoc.
    pose proof (step_call_ids e ev (run trace s)) as Hgrow. split_and!.
    + by eapply call_ids_grow_ok.
    + destruct Hgrow as [[_ ->] | [_ ->]]; lia.
    + intros uid r Hr. destruct (IHid uid r Hr) as (r1 & Hr1 & Hid1).
      destruct (step_keeps_call_id e ev (run trace s) uid r1 Hr1) as (r2 & Hr2 & Hid2).
      exists r2. split; [done | congruence].
Qed.

(** What [createCall] returns is the id of the record then found under
    the [uniqueId]. *)
Lemma createCall_returns_record_id e cd d :
  exists r, getCallByUniqueId (uniqueId cd) (createCall e cd d).1.1 = Some r /\
            (createCall e cd d).1.2 = Ok (Some (call_id r)).
Proof.
  unfold createCall, insert_call.
  destruct (existsb (has_unique_id (uniqueId cd)) (calls d)) eqn:E; simpl.
  - apply existsb_has_unique_id, getCall_Some in E as [r Hr]. rewrite Hr. by eexists.
  - unfold getCallByUniqueId. simpl.
    assert (find (has_unique_id (uniqueId cd)) (calls d) = None) as Hnone.
    { destruct (find (has_unique_id (uniqueId cd)) (calls d)) eqn:F; [| done].
      apply existsb_find_Some in F. congruence. }
    eexists. split.
    + rewrite find_app_None by done.
      simpl. unfold has_unique_id at 1. simpl. by rewrite String.eqb_refl.
    + done.
Qed.

(** Where an entry of the cache comes from: it was there, up to its
    destination, or the handler has just filed it for the record it
    created or found. *)
Lemma ami_handle_cache e ev c d uid call :
  AMIClient.activeCalls (AMIClient.handle e ev c d).1.1 !! uid = Some call ->
  (exists call0, AMIClient.activeCalls c !! uid = Some call0 /\
                 AMIClient.ac_id call = AMIClient.ac_id call0 /\
                 uniqueId (AMIClient.ac_data call) = uniqueId (AMIClient.ac_data call0)) \/
  (uniqueId (AMIClient.ac_data call) = uid /\
   exists r, getCallByUniqueId uid (AMIClient.handle e ev c d).1.2 = Some r /\
             AMIClient.ac_id call = Some (call_id r)).
Proof.
  destruct ev as [uniqueid ch num name exten | u ch st num | u sub dest dial dch |
                  | u ch cause txt num | | | | | | ]; unfold AMIClient.handle.
  - unfold AMIClient.handleNewChannel. destruct uniqueid as [u|]; [| by eauto].
    destruct (String.eqb u EmptyString); [by eauto |].
    match goal with |- context [createCall e ?cd d] =>
      destruct (createCall_returns_record_id e cd d) as (r & Hr & Hid);
      destruct (createCall e cd d) as [[d1 created] out1] end.
    simpl in Hr, Hid. subst created.
    pose proof (logCallEvent_calls e (Some (call_id r)) "newchannel" "Newchannel" d1) as Hl.
    apply (same_calls_same_record u) in Hl.
    destruct (logCallEvent e (Some (call_id r)) "newchannel" "Newchannel" d1) as [d2 logged].
    simpl in Hl.
    assert (forall out,
      AMIClient.activeCalls
        (AMIClient.with_activeCalls c
           (<[u := {| AMIClient.ac_id := Some (call_id r);
                      AMIClient.ac_data :=
                        {| uniqueId := u; callerId := num; callerName := name;
                           cd_destination := exten; cd_channel := ch;
                           destChannel := None; callState := Some "initiated" |} |}]>
              (AMIClient.activeCalls c)), d2, out : list output).1.1 !! uid = Some call ->
      (exists call0, AMIClient.activeCalls c !! uid = Some call0 /\
                     AMIClient.ac_id call = AMIClient.ac_id call0 /\
                     uniqueId (AMIClient.ac_data call) = uniqueId (AMIClient.ac_data call0)) \/
      (uniqueId (AMIClient.ac_data call) = uid /\
       exists r', getCallByUniqueId uid d2 = Some r' /\
                  AMIClient.ac_id call = Some (call_id r'))) as Hcase.
    { intros out. simpl. destruct (decide (uid = u)) as [-> | Hne].
      - rewrite lookup_insert_eq. intros [= <-]. right. simpl. split; [done |].
        exists r. by rewrite Hl.
      - rewrite lookup_insert_ne by done. by eauto. }
    destruct logged; apply Hcase.
  - unfold AMIClient.handleNewState. destruct (st =? 6)%Z; [| by eauto].
    destruct (updateCallAnswered e u d) as [[d1 ok] out1].
    destruct (AMIClient.activeCalls c !! u) as [call0|]; [| by eauto].
    destruct (logCallEvent e (AMIClient.ac_id call0) "answered" "Newstate" d1) as [d2 logged].
    destruct logged; by eauto.
  - unfold AMIClient.handleDial. destruct (String.eqb sub "Begin"); [| by eauto].
    destruct (AMIClient.activeCalls c !! u) as [call0|] eqn:Ecall; [| by eauto].
    destruct (logCallEvent e (AMIClient.ac_id call0) "dial" "Dial" d) as [d1 logged].
    assert (forall out,
      AMIClient.activeCalls
        (AMIClient.with_activeCalls c
           (<[u := {| AMIClient.ac_id := AMIClient.ac_id call0;
                      AMIClient.ac_data :=
                        {| uniqueId := uniqueId (AMIClient.ac_data call0);
                           callerId := callerId (AMIClient.ac_data call0);
                           callerName := callerName (AMIClient.ac_data call0);
                           cd_destination := js_or dest dial;
                           cd_channel := cd_channel (AMIClient.ac_data call0);
                           destChannel := Some dch;
                           callState := callState (AMIClient.ac_data call0) |} |}]>
              (AMIClient.activeCalls c)), d1, out : list output).1.1 !! uid = Some call ->
      exists call1, AMIClient.activeCalls c !! uid = Some call1 /\
                    AMIClient.ac_id call = AMIClient.ac_id call1 /\
                    uniqueId (AMIClient.ac_data call) = uniqueId (AMIClient.ac_data call1))
      as Hcase.
    { intros out. simpl. destruct (decide (uid = u)) as [-> | Hne].
      - rewrite lookup_insert_eq. intros [= <-]. by exists call0.
      - rewrite lookup_insert_ne by done. by eauto. }
    destruct logged; intros H; left; by apply (Hcase _ H).
  - by eauto.
  - unfold AMIClient.handleHangup.
    destruct (updateCallEnded e u cause txt d) as [[d1 ok] out1].
    destruct (AMIClient.activeCalls c !! u) as [call0|]; [| by eauto].
    destruct (logCallEvent e (AMIClient.ac_id call0) "hangup" "Hangup" d1) as [d2 logged].
    destruct logged; simpl; [| by eauto].
    intros [_ H]%lookup_delete_Some. by eauto.
  - by eauto.
  - simpl. by eauto.
  - simpl. by eauto.
  - unfold AMIClient.on_close, AMIClient.scheduleReconnect.
    repeat (simpl; case_match); simplify_eq; simpl; by eauto.
  - unfold AMIClient.on_connectionTimeout, AMIClient.scheduleReconnect.
    repeat (simpl; case_match); simplify_eq; simpl; by eauto.
  - simpl. by eauto.
Qed.

Lemma step_cache_agrees e ev s : cache_agrees s -> cache_agrees (step e ev s).1.
Proof.
  intros Hinv uid call Hcall.
  assert (forall call0,
    AMIClient.activeCalls (ami s) !! uid = Some call0 ->
    AMIClient.ac_id call = AMIClient.ac_id call0 ->
    uniqueId (AMIClient.ac_data call) = uniqueId (AMIClient.ac_data call0) ->
    uniqueId (AMIClient.ac_data call) = uid /\
    exists r, getCallByUniqueId uid (db (step e ev s).1) = Some r /\
              AMIClient.ac_id call = Some (call_id r)) as Hold.
  { intros call0 H0 Hid Hu. destruct (Hinv uid call0 H0) as (Hu0 & r & Hr & Hid0).
    split; [congruence |].
    destruct (step_keeps_call_id e ev s uid r Hr) as (r' & Hr' & Hid').
    exists r'. split; [done | congruence]. }
  destruct ev as [a | a | i tid path].
  - pose proof (ami_handle_cache e a (ami s) (db s) uid call) as H.
    simpl in Hcall, H |- *. simpl in Hold.
    destruct (AMIClient.handle e a (ami s) (db s)) as [[c d] out]. simpl in *.
    destruct (H Hcall) as [(call0 & H0 & Hid & Hu) | Hnew]; [by eapply Hold | done].
  - apply (Hold call); [| done | done].
    simpl in Hcall. by destruct (ARIClient.handle e a (ari s) (db s)) as [[c d] out].
  - apply (Hold call); [| done | done].
    simpl in Hcall.
    by destruct (AIProcessor.processRecording i tid path (db s)) as [[d o] out].
Qed.

Lemma run_cache_agrees trace s : cache_agrees s -> cache_agrees (run trace s).
Proof.
  intros Hs. induction trace as [|[e ev] trace IH] using rev_ind; [done |].
  rewrite run_snoc. by apply step_cache_agrees.
Qed.

Lemma start_cache_agrees db0 maxAttempts interval duration :
  cache_agrees (start db0 maxAttempts interval duration).
Proof. intros uid call Hcall. simpl in Hcall. by rewrite lookup_empty in Hcall. Qed.

(** X12. The tracker's cache agrees with the store in every state the
    gateway reaches: an entry of [activeCalls] is filed under the
    [uniqueId] it carries, that call has a record, and the entry's [id] is
    the id of that record. *)
Theorem cache_entries_hold_the_record_id :
  forall (db0 : database) (maxAttempts interval duration : Z)
         (trace : list (env * event)),
    cache_agrees (run trace (start db0 maxAttempts interval duration)).
Proof.
  intros db0 maxAttempts interval duration trace.
  apply run_cache_agrees, start_cache_agrees.
Qed.

(** *** References between the tables *)

Lemma sql_update_column {A B : Type} (g : A -> B) p f (rows : list A) :
  (forall r, g (f r) = g r) -> map g (sql_update p f rows) = map g rows.
Proof.
  intros Hf. unfold sql_update. rewrite map_map. apply map_ext.
  intros r. by destruct (p r).
Qed.

Lemma sql_update_Forall {A : Type} (P : A -> Prop) p f (rows : list A) :
  (forall r, P r -> P (f r)) -> Forall P rows -> Forall P (sql_update p f rows).
Proof.
  intros Hf Hrows. unfold sql_update. apply Forall_fmap.
  eapply Forall_impl; [exact Hrows |]. simpl. intros r Hr. by destruct (p r); auto.
Qed.

Lemma getCall_call_id_elem uid d r :
  getCallByUniqueId uid d = Some r -> call_id r ∈ call_ids d.
Proof.
  intros [_ Hin]%getCall_has_id. apply list_elem_of_fmap. exists r.
  split; [done | by apply list_elem_of_In].
Qed.

Lemma refs_grow_refl (ids col : list Z) : refs_grow ids col col.
Proof. by left. Qed.

Lemma refs_grow_ok (ids ids' before after : list Z) :
  (forall id, id ∈ ids -> id ∈ ids') ->
  refs_grow ids' before after ->
  Forall (fun id => id ∈ ids) before -> Forall (fun id => id ∈ ids') after.
Proof.
  intros Hsub [-> | (cid & Hcid & ->)] Hbefore.
  - eapply Forall_impl; [exact Hbefore | done].
  - apply Forall_app. split; [eapply Forall_impl; [exact Hbefore | done] |].
    by repeat constructor.
Qed.

Lemma createCall_call_events e cd d :
  call_events (createCall e cd d).1.1 = call_events d.
Proof.
  unfold createCall, insert_call.
  by destruct (existsb (has_unique_id (uniqueId cd)) (calls d)).
Qed.

(** What [logCallEvent] does to the columns. *)
Lemma logCallEvent_columns e callId ty data d :
  call_ids (logCallEvent e callId ty data d).1 = call_ids d /\
  (event_calls (logCallEvent e callId ty data d).1 = event_calls d \/
   exists cid, callId = Some cid /\
               event_calls (logCallEvent e callId ty data d).1 = event_calls d ++ [cid]).
Proof.
  unfold logCallEvent, event_calls, call_ids. destruct callId as [cid|]; simpl; [| by auto].
  split; [done |]. right. exists cid. by rewrite map_app.
Qed.

(** The events the tracker logs are logged for calls on record. *)
Lemma ami_handle_event_calls e ev c d :
  (forall uid call,
     AMIClient.activeCalls c !! uid = Some call ->
     exists r, getCallByUniqueId uid d = Some r /\
               AMIClient.ac_id call = Some (call_id r)) ->
  refs_grow (call_ids (AMIClient.handle e ev c d).1.2)
    (event_calls d) (event_calls (AMIClient.handle e ev c d).1.2).
Proof.
  intros Hinv.
  destruct ev as [uniqueid ch num name exten | u ch st num | u sub dest dial dch |
                  | u ch cause txt num | | | | | | ]; unfold AMIClient.handle;
    try (by left); try (by (open_handlers; crunch; left)).
  - unfold AMIClient.handleNewChannel. destruct uniqueid as [u|]; [| by left].
    destruct (String.eqb u EmptyString); [by left |].
    match goal with |- context [createCall e ?cd d] =>
      destruct (createCall_returns_record_id e cd d) as (r & Hr & Hid);
      pose proof (createCall_call_events e cd d) as Hev;
      destruct (createCall e cd d) as [[d1 created] out1] end.
    simpl in Hr, Hid, Hev. subst created. apply getCall_call_id_elem in Hr.
    destruct (logCallEvent_columns e (Some (call_id r)) "newchannel" "Newchannel" d1)
      as [Hids Hcol].
    destruct (logCallEvent e (Some (call_id r)) "newchannel" "Newchannel" d1) as [d2 logged].
    simpl in Hids, Hcol.
    assert (refs_grow (call_ids d2) (event_calls d) (event_calls d2)) as Hgoal.
    { unfold event_calls in *. rewrite <- Hev.
      destruct Hcol as [-> | (cid & [= <-] & ->)]; [by left |].
      right. exists (call_id r). by rewrite Hids. }
    by destruct logged.
  - unfold AMIClient.handleNewState. destruct (st =? 6)%Z; [| by left].
    assert (call_ids (updateCallAnswered e u d).1.1 = call_ids d /\
            call_events (updateCallAnswered e u d).1.1 = call_events d) as [Hids Hev].
    { unfold updateCallAnswered, call_ids. simpl. by rewrite sql_update_column. }
    destruct (updateCallAnswered e u d) as [[d1 ok] out1]. simpl in Hids, Hev.
    destruct (AMIClient.activeCalls c !! u) as [call0|] eqn:Ecall.
    + destruct (Hinv u call0 Ecall) as (r & Hr & Hid). rewrite Hid.
      apply getCall_call_id_elem in Hr.
      destruct (logCallEvent_columns e (Some (call_id r)) "answered" "Newstate" d1)
        as [Hids2 Hcol].
      destruct (logCallEvent e (Some (call_id r)) "answered" "Newstate" d1) as [d2 logged].
      simpl in Hids2, Hcol.
      assert (refs_grow (call_ids d2) (event_calls d) (event_calls d2)) as Hgoal.
      { unfold event_calls in *. rewrite <- Hev.
        destruct Hcol as [-> | (cid & [= <-] & ->)]; [by left |].
        right. exists (call_id r). by rewrite Hids2, Hids. }
      by destruct logged.
    + simpl. left. unfold event_calls. by rewrite Hev.
  - unfold AMIClient.handleDial. destruct (String.eqb sub "Begin"); [| by left].
    destruct (AMIClient.activeCalls c !! u) as [call0|] eqn:Ecall; [| by left].
    destruct (Hinv u call0 Ecall) as (r & Hr & Hid). rewrite Hid.
    apply getCall_call_id_elem in Hr.
    destruct (logCallEvent_columns e (Some (call_id r)) "dial" "Dial" d) as [Hids2 Hcol].
    destruct (logCallEvent e (Some (call_id r)) "dial" "Dial" d) as [d2 logged].
    simpl in Hids2, Hcol.
    assert (refs_grow (call_ids d2) (event_calls d) (event_calls d2)) as Hgoal.
    { destruct Hcol as [-> | (cid & [= <-] & ->)]; [by left |].
      right. exists (call_id r). by rewrite Hids2. }
    by destruct logged.
  - unfold AMIClient.handleHangup.
    assert (call_ids (updateCallEnded e u cause txt d).1.1 = call_ids d /\
            call_events (updateCallEnded e u cause txt d).1.1 = call_events d) as [Hids Hev].
    { unfold updateCallEnded, call_ids. destruct (getCallByUniqueId u d); [| done].
      simpl. by rewrite sql_update_column. }
    destruct (updateCallEnded e u cause txt d) as [[d1 ok] out1]. simpl in Hids, Hev.
    destruct (AMIClient.activeCalls c !! u) as [call0|] eqn:Ecall.
    + destruct (Hinv u call0 Ecall) as (r & Hr & Hid). rewrite Hid.
      apply getCall_call_id_elem in Hr.
      destruct (logCallEvent_columns e (Some (call_id r)) "hangup" "Hangup" d1)
        as [Hids2 Hcol].
      destruct (logCallEvent e (Some (call_id r)) "hangup" "Hangup" d1) as [d2 logged].
      simpl in Hids2, Hcol.
      assert (refs_grow (call_ids d2) (event_calls d) (event_calls d2)) as Hgoal.
      { unfold event_calls in *. rewrite <- Hev.
        destruct Hcol as [-> | (cid & [= <-] & ->)]; [by left |].
        right. exists (call_id r). by rewrite Hids2, Hids. }
      by destruct logged.
    + simpl. left. unfold event_calls. by rewrite Hev.
Qed.

(** The job the orchestrator files is filed for a call on record. *)
Lemma ari_handle_job_calls e ev c d :
  refs_grow (call_ids (ARIClient.handle e ev c d).1.2)
    (job_calls d) (job_calls (ARIClient.handle e ev c d).1.2).
Proof.
  destruct ev; unfold ARIClient.handle;
    try (by left); try (by (open_handlers; crunch; left)).
  unfold ARIClient.handleRecordingFinished.
  destruct (ARIClient.scan _ _) as [[channelId data]|]; [| by left].
  match goal with |- context [createCall e ?cd d] =>
    destruct (createCall_returns_record_id e cd d) as (r & Hr & Hid);
    pose proof (createCall_transcriptions e cd d) as Htr;
    destruct (createCall e cd d) as [[d1 created] out1] end.
  simpl in Hr, Hid, Htr. subst created.
  destruct (getCallByUniqueId channelId d) as [r0|] eqn:E0.
  - apply getCall_call_id_elem in E0. simpl. right. exists (call_id r0).
    split; [done |]. unfold job_calls. simpl. by rewrite map_app.
  - apply getCall_call_id_elem in Hr. simpl. right. exists (call_id r).
    split; [done |]. unfold job_calls. simpl. by rewrite map_app, Htr.
Qed.

Lemma processRecording_job_calls i id path d :
  job_calls (AIProcessor.processRecording i id path d).1.1 = job_calls d.
Proof.
  unfold job_calls. open_handlers. crunch; by rewrite !sql_update_column.
Qed.

Lemma references_ok_alt d :
  references_ok d <->
  Forall (fun id => id ∈ call_ids d) (job_calls d) /\
  Forall (fun id => id ∈ call_ids d) (event_calls d).
Proof.
  unfold references_ok, job_calls, event_calls, call_ids.
  change (map t_call_id (transcriptions d)) with (t_call_id <$> transcriptions d).
  change (map e_call_id (call_events d)) with (e_call_id <$> call_events d).
  by rewrite !Forall_fmap.
Qed.

Lemma step_references e ev s :
  cache_agrees s -> references_ok (db s) -> references_ok (db (step e ev s).1).
Proof.
  intros Hcache. pose proof (step_call_ids e ev s) as Hgrow.
  assert (forall id, id ∈ call_ids (db s) -> id ∈ call_ids (db (step e ev s).1)) as Hsub.
  { intros id. by apply call_ids_grow_elem. }
  rewrite !references_ok_alt. intros [Hjobs Hevents].
  assert (refs_grow (call_ids (db (step e ev s).1)) (job_calls (db s))
            (job_calls (db (step e ev s).1)) /\
          refs_grow (call_ids (db (step e ev s).1)) (event_calls (db s))
            (event_calls (db (step e ev s).1))) as [Hj He].
  { clear Hsub Hgrow Hjobs Hevents. destruct ev as [a | a | i tid path]; simpl.
    - pose proof (ami_handle_transcriptions e a (ami s) (db s)) as [Ht _].
      pose proof (ami_handle_event_calls e a (ami s) (db s)) as Hev.
      destruct (AMIClient.handle e a (ami s) (db s)) as [[c d] out]. simpl in *.
      split; [left; unfold job_calls; by rewrite Ht |].
      apply Hev. intros uid call Hcall. by destruct (Hcache uid call Hcall) as [_ H].
    - pose proof (ari_handle_call_events e a (ari s) (db s)) as [Hev _].
      pose proof (ari_handle_job_calls e a (ari s) (db s)) as Hj.
      destruct (ARIClient.handle e a (ari s) (db s)) as [[c d] out]. simpl in *.
      split; [done | left; unfold event_calls; by rewrite Hev].
    - pose proof (processRecording_job_calls i tid path (db s)) as Hj.
      destruct (processRecording_frame i tid path (db s)) as (_ & _ & Hev & _).
      destruct (AIProcessor.processRecording i tid path (db s)) as [[d o] out].
      simpl in *. split; left; [done | unfold event_calls; by rewrite Hev]. }
  split; eapply refs_grow_ok; eauto.
Qed.

(** X13. No job and no logged event is left without its call: started on
    a store in which every transcription job and every logged event
    refers to a call on record, the gateway keeps it so in every state it
    reaches. *)
Theorem jobs_and_events_refer_to_recorded_calls :
  forall (db0 : database) (maxAttempts interval duration : Z)
         (trace : list (env * event)),
    references_ok db0 ->
    references_ok (db (run trace (start db0 maxAttempts interval duration))).
Proof.
  intros db0 maxAttempts interval duration trace Hok.
  induction trace as [|[e ev] trace IH] using rev_ind; [done |].
  rewrite run_snoc. apply step_references; [| done].
  apply run_cache_agrees, start_cache_agrees.
Qed.

(** *** The transcription jobs *)

(** What a step may do to [transcriptions]: rewrite rows in place,
    keeping their ids and leaving each with the status it had or one of
    the four, or file one new pending job under the next rowid. *)
Lemma sql_update_jobs p f (rows : list transcription_row) seq :
  (forall r, transcription_id (f r) = transcription_id r) ->
  (forall r, valid_status (transcription_status (f r))) ->
  NoDup (map transcription_id rows) /\
  Forall (fun t => (transcription_id t <= seq)%Z) rows /\
  Forall (fun t => valid_status (transcription_status t)) rows ->
  NoDup (map transcription_id (sql_update p f rows)) /\
  Forall (fun t => (transcription_id t <= seq)%Z) (sql_update p f rows) /\
  Forall (fun t => valid_status (transcription_status t)) (sql_update p f rows).
Proof.
  intros Hid Hst (Hnd & Hle & Hvalid). split_and!.
  - by rewrite sql_update_column.
  - apply sql_update_Forall; [| done]. intros r. by rewrite Hid.
  - apply sql_update_Forall; [| done]. intros r _. apply Hst.
Qed.

Lemma createTranscription_jobs e cid path d :
  jobs_ok d -> jobs_ok (createTranscription e (Some cid) path d).1.1.
Proof.
  unfold jobs_ok. simpl. intros (Hnd & Hle & Hvalid). split_and!.
  - rewrite map_app. apply NoDup_app. split_and!; [done | | apply NoDup_singleton].
    intros x (t & -> & Ht)%list_elem_of_fmap Heq%list_elem_of_singleton.
    rewrite Forall_forall in Hle. specialize (Hle _ Ht). simpl in Hle, Heq. lia.
  - apply Forall_app. split.
    + eapply Forall_impl; [exact Hle |]. simpl. intros. lia.
    + repeat constructor. simpl. lia.
  - apply Forall_app. split; [done |]. repeat constructor.
Qed.

Lemma jobs_ok_same d d' :
  transcriptions d' = transcriptions d -> transcriptions_seq d' = transcriptions_seq d ->
  jobs_ok d -> jobs_ok d'.
Proof. unfold jobs_ok. by intros -> ->. Qed.

Lemma processRecording_jobs i id path d :
  jobs_ok d -> jobs_ok (AIProcessor.processRecording i id path d).1.1.
Proof.
  unfold jobs_ok. intros H.
  unfold AIProcessor.processRecording, markAsProcessing, completeTranscription,
    failTranscription.
  destruct (AIProcessor.fault i); simpl;
    (apply sql_update_jobs;
       [done | intros r; simpl; unfold valid_status; by auto |]);
    (apply sql_update_jobs;
       [done | intros r; simpl; unfold valid_status; by auto | done]).
Qed.

Lemma handleRecordingFinished_jobs e name ok hok c d :
  jobs_ok d -> jobs_ok (ARIClient.handleRecordingFinished e name ok hok c d).1.2.
Proof.
  intros Hok. unfold ARIClient.handleRecordingFinished.
  destruct (ARIClient.scan _ _) as [[channelId data]|]; [| done].
  match goal with |- context [createCall e ?cd d] =>
    destruct (createCall_returns_record_id e cd d) as (r & Hr & Hid);
    pose proof (createCall_transcriptions e cd d) as Htr;
    assert (transcriptions_seq (createCall e cd d).1.1 = transcriptions_seq d) as Hseq
      by (unfold createCall, insert_call;
          by destruct (existsb (has_unique_id (uniqueId cd)) (calls d)));
    destruct (createCall e cd d) as [[d1 created] out1] end.
  simpl in Hr, Hid, Htr, Hseq. subst created.
  destruct (getCallByUniqueId channelId d) as [r0|] eqn:E0.
  - by apply (createTranscription_jobs e (call_id r0)).
  - apply (createTranscription_jobs e (call_id r)). by eapply jobs_ok_same.
Qed.

Lemma ari_handle_jobs e ev c d :
  jobs_ok d -> jobs_ok (ARIClient.handle e ev c d).1.2.
Proof.
  intros Hok. destruct ev; try (by apply handleRecordingFinished_jobs);
    (eapply jobs_ok_same; [| | exact Hok]); open_handlers; crunch; done.
Qed.

Lemma step_job_count e ev s :
  (length (transcriptions (db s)) <= length (transcriptions (db (step e ev s).1)))%nat.
Proof.
  destruct ev as [a | a | i tid path]; simpl.
  - destruct (ami_handle_transcriptions e a (ami s) (db s)) as [Ht Hs].
    destruct (AMIClient.handle e a (ami s) (db s)) as [[c d] out]. simpl in *.
    by rewrite Ht.
  - pose proof (ari_handle_job_calls e a (ari s) (db s)) as H.
    destruct (ARIClient.handle e a (ari s) (db s)) as [[c d] out]. simpl in *.
    unfold job_calls in H.
    destruct H as [H | (cid & _ & H)]; apply (f_equal length) in H;
      rewrite ?length_app, !length_map in H; simpl in H; lia.
  - pose proof (processRecording_job_calls i tid path (db s)) as H.
    destruct (AIProcessor.processRecording i tid path (db s)) as [[d o] out].
    simpl in *. unfold job_calls in H. apply (f_equal length) in H.
    rewrite !length_map in H. lia.
Qed.

Lemma step_jobs e ev s : jobs_ok (db s) -> jobs_ok (db (step e ev s).1).
Proof.
  intros Hok. destruct ev as [a | a | i tid path]; simpl.
  - destruct (ami_handle_transcriptions e a (ami s) (db s)) as [Ht Hs].
    destruct (AMIClient.handle e a (ami s) (db s)) as [[c d] out]. simpl in *.
    by eapply jobs_ok_same.
  - pose proof (ari_handle_jobs e a (ari s) (db s) Hok) as H.
    by destruct (ARIClient.handle e a (ari s) (db s)) as [[c d] out].
  - pose proof (processRecording_jobs i tid path (db s) Hok) as H.
    by destruct (AIProcessor.processRecording i tid path (db s)) as [[d o] out].
Qed.

(** X14. The table of transcription jobs stays well formed along every
    run of the gateway: from a store in which the job ids are distinct and
    not beyond the last rowid and every status is one of ['pending'],
    ['processing'], ['completed'], ['failed'], every state reached has
    these properties too; no step takes a job away. *)
Theorem transcription_jobs_stay_well_formed :
  forall (s : system) (trace : list (env * event)),
    jobs_ok (db s) ->
    jobs_ok (db (run trace s)) /\
    (length (transcriptions (db s)) <= length (transcriptions (db (run trace s))))%nat.
Proof.
  intros s trace Hok. induction trace as [|[e ev] trace IH] using rev_ind; [done |].
  destruct IH as [IHok IHlen]. rewrite run_snoc. split; [by apply step_jobs |].
  etrans; [exact IHlen |]. apply step_job_count.
Qed.

End MoreInvariants.

(** ** The tracker: tracked calls *)

Section MoreTracker.

Import CallRepository AMIClient.

(** X15. A hangup for a call the tracker has in its cache, in any state the
    gateway reaches: the record of the call keeps its id and is set to
    ['ended'], one ['hangup'] event is logged for that id, the entry is
    taken out of the cache and the other entries stay, and ['hangup'] is
    emitted.  The entry is evicted only after the event has been logged;
    since a cache entry always holds the id of its record, logging never
    fails there. *)
Theorem hangup_of_tracked_call_ends_and_evicts :
  forall (db0 : database) (maxAttempts interval duration : Z)
         (trace : list (env * event)) (e : env)
         (uid channel cause causeTxt calleridnum : string) (call : active_call),
    activeCalls (ami (run trace (start db0 maxAttempts interval duration))) !! uid
      = Some call ->
    exists r r' ev,
      getCallByUniqueId uid (db (run trace (start db0 maxAttempts interval duration)))
        = Some r /\
      ac_id call = Some (call_id r) /\
      getCallByUniqueId uid
        (db (step e (AMI (Hangup uid channel cause causeTxt calleridnum))
               (run trace (start db0 maxAttempts interval duration))).1) = Some r' /\
      call_id r' = call_id r /\
      call_state r' = "ended" /\
      hangup_cause r' = Some cause /\
      call_events
        (db (step e (AMI (Hangup uid channel cause causeTxt calleridnum))
               (run trace (start db0 maxAttempts interval duration))).1)
        = call_events (db (run trace (start db0 maxAttempts interval duration))) ++ [ev] /\
      event_type ev = "hangup" /\
      e_call_id ev = call_id r /\
      activeCalls
        (ami (step e (AMI (Hangup uid channel cause causeTxt calleridnum))
                (run trace (start db0 maxAttempts interval duration))).1)
        = delete uid
            (activeCalls (ami (run trace (start db0 maxAttempts interval duration)))) /\
      (step e (AMI (Hangup uid channel cause causeTxt calleridnum))
         (run trace (start db0 maxAttempts interval duration))).2
        = [Log "info" "Call HANGUP"; Log "info" "Call ended"; Emit "hangup"].
Proof.
  intros db0 maxAttempts interval duration trace e uid channel cause causeTxt num call.
  pose proof (run_cache_agrees trace _ (start_cache_agrees db0 maxAttempts interval duration))
    as Hinv.
  generalize dependent (run trace (start db0 maxAttempts interval duration)).
  intros s Hinv Hcall. destruct (Hinv uid call Hcall) as (_ & r & Hr & Hid).
  destruct (updateCallEnded_record e uid cause causeTxt (db s) uid r Hr) as [secs Hended].
  rewrite String.eqb_refl in Hended.
  simpl. unfold handleHangup. rewrite Hcall, Hid.
  unfold updateCallEnded in *. rewrite Hr in *. simpl in *.
  exists r, (set_ended e secs cause causeTxt r). eexists.
  split_and!; try done.
Qed.

(** X16. A ['Begin'] dial event for a call the tracker has in its cache, in
    any state the gateway reaches: the cache entry gets the dialled
    destination (the dial string when the event names none) and the
    destination channel and keeps its id; one ['dial'] event is logged for
    that id; the table of calls is not written, so the record keeps the
    destination it was created with. *)
Theorem dial_begin_updates_the_cache_only :
  forall (db0 : database) (maxAttempts interval duration : Z)
         (trace : list (env * event)) (e : env)
         (uid : string) (dest : option string) (dialstring destchannel : string)
         (call : active_call),
    activeCalls (ami (run trace (start db0 maxAttempts interval duration))) !! uid
      = Some call ->
    exists call' ev,
      activeCalls
        (ami (step e (AMI (Dial uid "Begin" dest dialstring destchannel))
                (run trace (start db0 maxAttempts interval duration))).1) !! uid
        = Some call' /\
      ac_id call' = ac_id call /\
      cd_destination (ac_data call') = js_or dest dialstring /\
      destChannel (ac_data call') = Some destchannel /\
      uniqueId (ac_data call') = uid /\
      calls
        (db (step e (AMI (Dial uid "Begin" dest dialstring destchannel))
               (run trace (start db0 maxAttempts interval duration))).1)
        = calls (db (run trace (start db0 maxAttempts interval duration))) /\
      call_events
        (db (step e (AMI (Dial uid "Begin" dest dialstring destchannel))
               (run trace (start db0 maxAttempts interval duration))).1)
        = call_events (db (run trace (start db0 maxAttempts interval duration))) ++ [ev] /\
      event_type ev = "dial" /\
      ac_id call = Some (e_call_id ev) /\
      (step e (AMI (Dial uid "Begin" dest dialstring destchannel))
         (run trace (start db0 maxAttempts interval duration))).2
        = [Log "debug" "Dial event"; Emit "dial"].
Proof.
  intros db0 maxAttempts interval duration trace e uid dest dialstring destchannel call.
  pose proof (run_cache_agrees trace _ (start_cache_agrees db0 maxAttempts interval duration))
    as Hinv.
  generalize dependent (run trace (start db0 maxAttempts interval duration)).
  intros s Hinv Hcall. destruct (Hinv uid call Hcall) as (Huid & r & Hr & Hid).
  simpl. unfold handleDial. simpl. rewrite Hcall, Hid. simpl.
  eexists. eexists. rewrite lookup_insert_eq. split_and!; try done.
Qed.

End MoreTracker.

(** ** The supervisors over runs *)

Section MoreSupervisor.

Ltac open_supervisor :=
  unfold AMIClient.handle, AMIClient.handleNewChannel, AMIClient.handleNewState,
    AMIClient.handleDial, AMIClient.handleBridge, AMIClient.handleHangup,
    AMIClient.handleDTMF, AMIClient.on_connect, AMIClient.on_error, AMIClient.on_close,
    AMIClient.on_connectionTimeout, AMIClient.on_reconnectTimer, AMIClient.connect,
    AMIClient.scheduleReconnect,
    ARIClient.handle, ARIClient.handleStasisStart, ARIClient.answer_returned,
    ARIClient.playPrompt, ARIClient.handleStasisEnd, ARIClient.handlePlaybackFinished,
    ARIClient.startRecording, ARIClient.handleRecordingFinished,
    ARIClient.connect_returned, ARIClient.on_ws_close, ARIClient.on_ws_error,
    ARIClient.scheduleReconnect, ARIClient.hangupChannel, ARIClient.stopRecording in *.

Ltac split_cases := repeat (simpl in *; case_match); simplify_eq; simpl in *.

Ltac to_arith :=
  repeat match goal with
         | H : (_ && _) = true |- _ => apply andb_true_iff in H as [? ?]
         | H : (_ && _) = false |- _ => apply andb_false_iff in H as [? | ?]
         | H : (_ <? _)%Z = true |- _ => apply Z.ltb_lt in H
         | H : (_ <? _)%Z = false |- _ => apply Z.ltb_ge in H
         | H : (_ <=? _)%Z = true |- _ => apply Z.leb_le in H
         | H : (_ <=? _)%Z = false |- _ => apply Z.leb_gt in H
         end.

(** The counter of a supervisor with a limit stays within it. *)
Lemma ami_handle_attempts e ev c d limit :
  AMIClient.maxReconnectAttempts c = limit ->
  (0 < limit)%Z ->
  (0 <= AMIClient.reconnectAttempts c <= limit)%Z ->
  AMIClient.maxReconnectAttempts (AMIClient.handle e ev c d).1.1 = limit /\
  (0 <= AMIClient.reconnectAttempts (AMIClient.handle e ev c d).1.1 <= limit)%Z.
Proof.
  intros Hmax Hpos Hin. destruct ev; open_supervisor; split_cases; to_arith;
    (split; [done | lia]).
Qed.

Lemma ari_handle_attempts e ev c d limit :
  ARIClient.maxReconnectAttempts c = limit ->
  (0 < limit)%Z ->
  (0 <= ARIClient.reconnectAttempts c <= limit)%Z ->
  ARIClient.maxReconnectAttempts (ARIClient.handle e ev c d).1.1 = limit /\
  (0 <= ARIClient.reconnectAttempts (ARIClient.handle e ev c d).1.1 <= limit)%Z.
Proof.
  intros Hmax Hpos Hin. destruct ev; open_supervisor; split_cases; to_arith;
    (split; [done | lia]).
Qed.

(** X17. With a limit on the reconnect attempts, the attempt counters of
    the two clients never leave the range from 0 to the limit, whatever
    the gateway receives and however connection failures and successes
    alternate. *)
Theorem reconnect_attempts_stay_within_limit :
  forall (db0 : database) (maxAttempts interval duration : Z)
         (trace : list (env * event)),
    (0 < maxAttempts)%Z ->
    (0 <= AMIClient.reconnectAttempts
            (ami (run trace (start db0 maxAttempts interval duration))) <= maxAttempts)%Z /\
    (0 <= ARIClient.reconnectAttempts
            (ari (run trace (start db0 maxAttempts interval duration))) <= maxAttempts)%Z.
Proof.
  intros db0 maxAttempts interval duration trace Hpos.
  assert (AMIClient.maxReconnectAttempts
            (ami (run trace (start db0 maxAttempts interval duration))) = maxAttempts /\
          ARIClient.maxReconnectAttempts
            (ari (run trace (start db0 maxAttempts interval duration))) = maxAttempts /\
          (0 <= AMIClient.reconnectAttempts
                  (ami (run trace (start db0 maxAttempts interval duration)))
             <= maxAttempts)%Z /\
          (0 <= ARIClient.reconnectAttempts
                  (ari (run trace (start db0 maxAttempts interval duration)))
             <= maxAttempts)%Z) as (_ & _ & H1 & H2); [| done].
  induction trace as [|[e ev] trace IH] using rev_ind.
  - simpl. split_and!; try done; lia.
  - rewrite run_snoc. destruct IH as (Ha & Hb & Hc & Hd).
    generalize dependent (run trace (start db0 maxAttempts interval duration)).
    intros s Ha Hb Hc Hd. destruct ev as [a | a | i tid path]; simpl.
    + destruct (ami_handle_attempts e a (ami s) (db s) maxAttempts Ha Hpos Hc) as [H1 H2].
      destruct (AMIClient.handle e a (ami s) (db s)) as [[c d] out]. by simpl in *.
    + destruct (ari_handle_attempts e a (ari s) (db s) maxAttempts Hb Hpos Hd) as [H1 H2].
      destruct (ARIClient.handle e a (ari s) (db s)) as [[c d] out]. by simpl in *.
    + by destruct (AIProcessor.processRecording i tid path (db s)) as [[d o] out].
Qed.

(** Once [shouldReconnect] is off it stays off, and no reconnect timer is
    armed. *)
Lemma ami_handle_stopped e ev c d :
  AMIClient.shouldReconnect c = false ->
  AMIClient.shouldReconnect (AMIClient.handle e ev c d).1.1 = false /\
  Forall (fun o => arms_reconnect o = false) (AMIClient.handle e ev c d).2.
Proof.
  intros Hoff. destruct ev; open_supervisor;
    unfold CallRepository.createCall, CallRepository.insert_call,
      CallRepository.updateCallAnswered, CallRepository.updateCallEnded,
      CallRepository.logCallEvent in *;
    repeat (simpl; rewrite ?Hoff; case_match); simplify_eq; simpl;
    (split; [done | by repeat constructor]).
Qed.

Lemma ari_handle_stopped e ev c d :
  ARIClient.shouldReconnect c = false ->
  ARIClient.shouldReconnect (ARIClient.handle e ev c d).1.1 = false /\
  Forall (fun o => arms_reconnect o = false) (ARIClient.handle e ev c d).2.
Proof.
  intros Hoff. destruct ev; open_supervisor;
    unfold CallRepository.createCall, CallRepository.insert_call,
      TranscriptionRepository.createTranscription in *;
    repeat (simpl; rewrite ?Hoff; case_match); simplify_eq; simpl;
    (split; [done | by repeat constructor]).
Qed.

Lemma processRecording_arms_nothing i id path d :
  Forall (fun o => arms_reconnect o = false) (AIProcessor.processRecording i id path d).2.
Proof.
  unfold AIProcessor.processRecording, TranscriptionRepository.markAsProcessing,
    TranscriptionRepository.completeTranscription,
    TranscriptionRepository.failTranscription.
  destruct (AIProcessor.fault i); simpl; by repeat constructor.
Qed.

Lemma stopped_run_arms_nothing trace s :
  AMIClient.shouldReconnect (ami s) = false ->
  ARIClient.shouldReconnect (ari s) = false ->
  Forall (fun o => arms_reconnect o = false) (outputs_of trace s).
Proof.
  revert s. induction trace as [|[e ev] trace IH]; intros s Ha Hb; simpl; [constructor |].
  apply Forall_app. destruct ev as [a | a | i tid path]; simpl.
  - destruct (ami_handle_stopped e a (ami s) (db s) Ha) as [H1 H2].
    destruct (AMIClient.handle e a (ami s) (db s)) as [[c d] out]. simpl in *.
    split; [done | by apply IH].
  - destruct (ari_handle_stopped e a (ari s) (db s) Hb) as [H1 H2].
    destruct (ARIClient.handle e a (ari s) (db s)) as [[c d] out]. simpl in *.
    split; [done | by apply IH].
  - pose proof (processRecording_arms_nothing i tid path (db s)) as H.
    destruct (AIProcessor.processRecording i tid path (db s)) as [[d o] out]. simpl in *.
    split; [done | by apply IH].
Qed.

(** X18. [disconnect] is final: once both clients have been disconnected,
    nothing the gateway receives afterwards - connection failures,
    timeouts, a reconnect timer that still fires - makes either client arm
    a reconnect timer again. *)
Theorem no_reconnect_after_disconnect :
  forall (s : system) (hangup_ok : string -> bool) (trace : list (env * event)),
    Forall (fun o => arms_reconnect o = false)
      (outputs_of trace
         {| db := db s;
            ami := (AMIClient.disconnect (ami s)).1;
            ari := (ARIShutdown.disconnect hangup_ok (ari s)).1 |}).
Proof.
  intros s hangup_ok trace. by apply stopped_run_arms_nothing.
Qed.


End MoreSupervisor.

(** ** The orchestrator: failures, names and the hand-over to the runner *)

Section MoreOrchestrator.

Import CallRepository TranscriptionRepository ARIClient.

(** X20. A caller who leaves while the call is being answered gets no
    prompt: when the session-end event arrives between the session-start
    event and the return of the answer command, the rest of the start
    handler finds no session, plays nothing and records nothing, logs the
    error and asks for a hangup with reason ['error'] - a hangup that
    fails, the channel being gone, costs one more log record - and
    leaves the index without a session for the channel. *)
Theorem answer_after_session_end_hangs_up :
  forall (e : env) (c : ari_client) (channelId callerNumber callerName : string)
         (playbackId : string) (play_ok hangup_ok : bool),
    wf_sessions (activeChannels c) ->
    map_get channelId
      (activeChannels
         (answer_returned channelId true playbackId play_ok hangup_ok
            (handleStasisEnd channelId
               (handleStasisStart e channelId callerNumber callerName c).1).1).1) = None /\
    (answer_returned channelId true playbackId play_ok hangup_ok
       (handleStasisEnd channelId
          (handleStasisStart e channelId callerNumber callerName c).1).1).2
      = [Log "error" "Error handling Stasis call:"; Log "info" "Hanging up channel";
         HangupCmd channelId "error"] ++
        (if hangup_ok then []
         else [Log "debug" "Error hanging up (channel may already be gone):"]) /\
    activeChannels
      (answer_returned channelId true playbackId play_ok hangup_ok
         (handleStasisEnd channelId
            (handleStasisStart e channelId callerNumber callerName c).1).1).1
      = map_delete channelId (activeChannels c).
Proof.
  intros e c channelId num name playbackId play_ok hangup_ok Hwf.
  set (v := {| s_channel := channelId; s_callerId := num; s_callerName := name;
               startTime := now_ms e; state := "started"; currentPlayback := None;
               pendingRecording := false; recordingName := None |}).
  assert (wf_sessions (map_set channelId v (activeChannels c))) as Hwf1.
  { by apply wf_sessions_set. }
  assert (map_get channelId (map_delete channelId (map_set channelId v (activeChannels c)))
          = None) as Hgone.
  { rewrite map_get_delete by apply Hwf1. by rewrite decide_True. }
  assert (map_delete channelId (map_set channelId v (activeChannels c))
          = map_delete channelId (activeChannels c)) as Hsame.
  { clear. induction (activeChannels c) as [|[k d] m IH]; simpl.
    - by rewrite String.eqb_refl.
    - destruct (String.eqb k channelId) eqn:E; simpl.
      + by rewrite String.eqb_refl.
      + by rewrite E, IH. }
  unfold answer_returned, handleStasisEnd, handleStasisStart, hangupChannel. cbn [fst snd].
  cbn [awaiting_answer activeChannels with_sessions].
  fold v.
  assert (existsb (String.eqb channelId) (awaiting_answer c ++ [channelId]) = true) as ->.
  { apply existsb_eqb_elem, elem_of_app. right. by apply list_elem_of_singleton. }
  cbn [negb]. rewrite Hgone. cbn [fst snd activeChannels with_sessions].
  by rewrite Hgone, Hsame.
Qed.

(** X21. Every hangup command the orchestrator issues has its cause: one
    with reason ['error'] comes from the start handler, for its own
    channel, when the answer or the prompt failed or the session was
    gone; one with reason ['recording_error'] from a record command that
    failed; one with reason ['normal'] from a goodbye that could not be
    played or from the two-second timer that is armed once the goodbye
    has been played.  So a handler whose commands succeed issues no
    hangup command itself, and the timer, when it fires, issues the
    hangup of its channel and changes nothing. *)
Theorem orchestrator_hangups_have_a_cause :
  forall (e : env) (c : ari_client) (d : database),
    (forall (ev : ari_event) (channel reason : string),
       HangupCmd channel reason ∈ (handle e ev c d).2 ->
       (reason = "error" /\
        exists answer_ok playbackId play_ok hangup_ok,
          ev = AnswerReturned channel answer_ok playbackId play_ok hangup_ok /\
          (answer_ok = false \/ play_ok = false \/
           map_get channel (activeChannels c) = None)) \/
       (reason = "recording_error" /\
        exists playbackId hangup_ok, ev = PlaybackFinished playbackId false hangup_ok) \/
       (reason = "normal" /\
        ((exists name hangup_ok, ev = RecordingFinished name false hangup_ok) \/
         (exists hangup_ok, ev = HangupTimer channel hangup_ok)))) /\
    (forall (channel : string) (hangup_ok : bool),
       (handle e (HangupTimer channel hangup_ok) c d).1 = (c, d) /\
       List.filter is_hangup (handle e (HangupTimer channel hangup_ok) c d).2
         = [HangupCmd channel "normal"]).
Proof.
  intros e c d. split.
  - intros ev channel reason.
    destruct ev; unfold handle, handleStasisStart, answer_returned, playPrompt,
      handleStasisEnd, handlePlaybackFinished, startRecording, handleRecordingFinished,
      connect_returned, on_ws_close, on_ws_error, scheduleReconnect, hangupChannel,
      stopRecording, createCall, insert_call, createTranscription;
      repeat (simpl; case_match); simplify_eq; simpl;
      rewrite ?elem_of_cons, ?elem_of_nil; intros; destruct_or?; simplify_eq;
      eauto 15.
  - intros channel hangup_ok. split; [done |].
    unfold handle, hangupChannel. by destruct hangup_ok.
Qed.

Lemma pretty_N_go_no_dash (x : N) (s : string) :
  has_dash s = false -> has_dash (pretty_N_go x s) = false.
Proof.
  revert s. induction (N.lt_wf_0 x) as [x _ IH]; intros s Hs.
  assert (x = 0 \/ 0 < x)%N as [-> | Hpos] by lia.
  - by rewrite pretty_N_go_0.
  - rewrite pretty_N_go_step by done. apply IH; [by apply N.div_lt |].
    simpl. rewrite Hs. unfold pretty_N_char. by repeat case_match.
Qed.

Lemma pretty_clock_no_dash (t : Z) : (0 <= t)%Z -> has_dash (pretty t) = false.
Proof.
  intros Ht. destruct t as [|p|p]; [done | | lia].
  unfold pretty, pretty_Z, pretty, pretty_positive, pretty, pretty_N.
  case_decide; [done |]. by apply pretty_N_go_no_dash.
Qed.

(** Where the last hyphen is tells the two parts of a name apart. *)
Lemma append_nil (s : string) : EmptyString +:+ s = s.
Proof. reflexivity. Qed.

Lemma append_cons (k : Ascii.ascii) (a s : string) : String k a +:+ s = String k (a +:+ s).
Proof. reflexivity. Qed.

Lemma dash_in_the_middle (u y : string) : has_dash (u +:+ "-" +:+ y) = true.
Proof.
  induction u as [|k u IHu]; [done |].
  rewrite append_cons. cbn [has_dash]. rewrite IHu. apply orb_true_r.
Qed.

(** Where the last hyphen is tells the two parts of a name apart. *)
Lemma split_at_last_dash (a b x y : string) :
  has_dash x = false -> has_dash y = false ->
  a +:+ "-" +:+ x = b +:+ "-" +:+ y -> a = b /\ x = y.
Proof.
  intros Hx Hy. revert b. induction a as [|ch a IH]; intros [|ch' b] H;
    rewrite ?append_cons, ?append_nil in H.
  - by simplify_eq.
  - exfalso. injection H as _ Hrest.
    pose proof (dash_in_the_middle b y) as Hd. rewrite ?append_cons, ?append_nil in Hd.
    congruence.
  - exfalso. injection H as _ Hrest.
    pose proof (dash_in_the_middle a x) as Hd. rewrite ?append_cons, ?append_nil in Hd.
    congruence.
  - injection H as -> H. destruct (IH b H) as [-> ->]. done.
Qed.

(** X22. The name [startRecording] gives a recording tells the channel and
    the clock: two recordings get the same name only when they are of the
    same channel and started in the same millisecond (the clock of
    [Date.now()] is not negative). *)
Theorem recording_names_tell_channel_and_clock :
  forall (e e' : env) (channelId channelId' : string),
    (0 <= now_ms e)%Z -> (0 <= now_ms e')%Z ->
    recording_name e channelId = recording_name e' channelId' ->
    channelId = channelId' /\ now_ms e = now_ms e'.
Proof.
  intros e e' ch ch' He He' H. unfold recording_name in H.
  apply (inj (String.app "recording-")) in H.
  apply split_at_last_dash in H as [-> Ht]; [| by apply pretty_clock_no_dash ..].
  split; [done |]. by apply (inj pretty).
Qed.

(** X23. When a recording finishes whose name a session holds,
    [handleRecordingFinished] hands one job to the runner: the call
    record of the session's channel is looked up and, when there is none,
    created in state ['in_stasis'] with destination ['777'] and the
    caller of the session; one transcription job is filed for the id of
    that record, ['pending'], under the next rowid, with the path of the
    recording under the spool directory; and the runner is scheduled,
    through [setImmediate], for exactly that job and path.  A record that
    was there is not written.  The hangup is left to a timer: when the
    goodbye has been played the handler arms the two-second timer and
    issues no hangup command; when the goodbye fails it arms no timer and
    asks for the hangup of the session's channel at once, with reason
    ['normal']. *)
Theorem recording_finished_files_one_pending_job :
  forall (e : env) (name : string) (goodbye_ok hangup_ok : bool) (c : ari_client)
         (d : database) (channelId : string) (data : session),
    scan (holds_recording name) (activeChannels c) = Some (channelId, data) ->
    exists call job,
      getCallByUniqueId channelId
        (handleRecordingFinished e name goodbye_ok hangup_ok c d).1.2 = Some call /\
      (forall r, getCallByUniqueId channelId d = Some r ->
         call = r /\
         calls (handleRecordingFinished e name goodbye_ok hangup_ok c d).1.2 = calls d) /\
      (getCallByUniqueId channelId d = None ->
         call_id call = (calls_seq d + 1)%Z /\
         call_state call = "in_stasis" /\ destination call = "777" /\
         caller_id call = s_callerId data /\ caller_name call = s_callerName data /\
         calls (handleRecordingFinished e name goodbye_ok hangup_ok c d).1.2
           = calls d ++ [call]) /\
      transcriptions (handleRecordingFinished e name goodbye_ok hangup_ok c d).1.2
        = transcriptions d ++ [job] /\
      transcription_id job = (transcriptions_seq d + 1)%Z /\
      t_call_id job = call_id call /\
      transcription_status job = "pending" /\
      recording_path job = "/var/spool/asterisk/recording/" +:+ name +:+ ".wav" /\
      List.filter (fun o => match o with SetImmediate _ _ _ => true | _ => false end)
        (handleRecordingFinished e name goodbye_ok hangup_ok c d).2
        = [SetImmediate "processRecording" (transcription_id job) (recording_path job)] /\
      List.filter is_timer (handleRecordingFinished e name goodbye_ok hangup_ok c d).2
        = (if goodbye_ok then [SetTimeout 2000 "hangupChannel"] else []) /\
      List.filter is_hangup (handleRecordingFinished e name goodbye_ok hangup_ok c d).2
        = (if goodbye_ok then [] else [HangupCmd (s_channel data) "normal"]).
Proof.
  intros e name goodbye_ok hangup_ok c d channelId data Hscan.
  unfold handleRecordingFinished, hangupChannel. rewrite Hscan.
  destruct (getCallByUniqueId channelId d) as [r|] eqn:Hr.
  - exists r. eexists. simpl.
    split_and!; try done.
    + by intros r0 [= <-].
    + by destruct goodbye_ok, hangup_ok.
    + by destruct goodbye_ok, hangup_ok.
    + by destruct goodbye_ok, hangup_ok.
  - unfold createCall, insert_call. cbn [uniqueId].
    rewrite (existsb_find_None _ _ Hr). simpl.
    eexists. eexists. split.
    { unfold getCallByUniqueId in *. simpl. rewrite find_app_None by done.
      simpl. unfold has_unique_id at 1. simpl. by rewrite String.eqb_refl. }
    split_and!; try done.
    + by destruct goodbye_ok, hangup_ok.
    + by destruct goodbye_ok, hangup_ok.
    + by destruct goodbye_ok, hangup_ok.
Qed.

End MoreOrchestrator.

(** ** The further properties at work on sample runs *)

Section MoreSamples.

Import CallRepository CallQueries TranscriptionRepository TranscriptionQueries
  AIProcessor ARIClient.

(** A second call gets the next id. *)
Lemma createCall_then_lookup_witness :
  getCallByUniqueId "abc.2" (db answered_call) = None /\
  exists r,
    getCallByUniqueId "abc.2" (createCall (utc_at 3000) second_call (db answered_call)).1.1
      = Some r /\
    call_id r = 2%Z /\ call_state r = "initiated".
Proof.
  assert (getCallByUniqueId (uniqueId second_call) (db answered_call) = None) as Hnone
    by (vm_compute; reflexivity).
  split; [exact Hnone |].
  destruct (createCall_then_lookup (utc_at 3000) second_call (db answered_call) Hnone)
    as (r & Hget & _ & Hid & _ & _ & _ & _ & Hstate & _).
  exists r. split; [exact Hget |]. split; [exact Hid | exact Hstate].
Defined.

(** A second answered-code event on the answered call. *)
Lemma updateCallAnswered_reports_and_stamps_witness :
  exists r,
    getCallByUniqueId "abc.1" (db answered_call) = Some r /\
    (updateCallAnswered (utc_at 3000) "abc.1" (db answered_call)).1.2 = true /\
    getCallByUniqueId "abc.1" (updateCallAnswered (utc_at 3000) "abc.1" (db answered_call)).1.1
      = Some (set_answered (utc_at 3000) r).
Proof.
  destruct (getCallByUniqueId "abc.1" (db answered_call)) as [r|] eqn:Hr;
    [| vm_compute in Hr; discriminate Hr].
  exists r. split; [reflexivity |].
  destruct (updateCallAnswered_reports_and_stamps (utc_at 3000) "abc.1" (db answered_call))
    as (_ & Hthere & _).
  destruct (Hthere r Hr) as (Hok & Hget & _). split; [exact Hok | exact Hget].
Defined.

(** A state nobody else writes goes into the answered call. *)
Lemma updateCallState_writes_any_state_witness :
  exists r,
    getCallByUniqueId "abc.1" (db answered_call) = Some r /\
    (updateCallState (utc_at 3000) "abc.1" "parked" (db answered_call)).2 = true /\
    call_state (set_call_state (utc_at 3000) "parked" r) = "parked".
Proof.
  destruct (getCallByUniqueId "abc.1" (db answered_call)) as [r|] eqn:Hr;
    [| vm_compute in Hr; discriminate Hr].
  exists r. split; [reflexivity |].
  destruct (updateCallState_writes_any_state (utc_at 3000) "abc.1" "parked" (db answered_call))
    as (_ & Hthere & _).
  destruct (Hthere r Hr) as (Hok & _ & Hstate & _). split; [exact Hok | exact Hstate].
Defined.

(** No call has the id 7. *)
Lemma getCallById_finds_call_and_first_transcription_witness :
  NoDup (map call_id (calls (db answered_call))) /\
  (7%Z ∉ map call_id (calls (db answered_call))) /\
  getCallById 7 (db answered_call) = None.
Proof.
  assert (NoDup (map call_id (calls (db answered_call)))) as Hnd.
  { change (NoDup [1%Z]). apply NoDup_singleton. }
  assert (7%Z ∉ map call_id (calls (db answered_call))) as Hnotin.
  { change (7%Z ∉ [1%Z]). intros Hin. apply list_elem_of_singleton in Hin. discriminate Hin. }
  split; [exact Hnd |]. split; [exact Hnotin |].
  destruct (getCallById_finds_call_and_first_transcription (db answered_call) 7 Hnd)
    as (_ & Hnone).
  exact (Hnone Hnotin).
Defined.

(** An event logged for call 1 does not show among the events of call 2. *)
Lemma logCallEvent_then_getCallEvents_witness :
  (2 <> 1)%Z /\
  getCallEvents 2 (logCallEvent (utc_at 3000) (Some 1%Z) "dial" "Dial" (db answered_call)).1
    = getCallEvents 2 (db answered_call).
Proof.
  assert (2 <> 1)%Z as Hne by discriminate.
  split; [exact Hne |].
  destruct (logCallEvent_then_getCallEvents (utc_at 3000) 1 "dial" "Dial" (db answered_call))
    as (_ & _ & _ & _ & Hother & _).
  exact (Hother 2%Z Hne).
Defined.

(** The statistics of the store with one completed job. *)
Lemma getStatistics_counts_witness :
  transcriptions one_completed_job <> [] /\
  total (getStatistics one_completed_job) = 1%Z.
Proof.
  assert (transcriptions one_completed_job <> []) as Hne.
  { vm_compute. discriminate. }
  split; [exact Hne |].
  destruct (getStatistics_counts one_completed_job) as (_ & Hsome).
  destruct (Hsome Hne) as (Htotal & _). exact Htotal.
Defined.

(** The sample run on the pending sample job. *)
Lemma processRecording_stores_what_it_returns_witness :
  exists job job',
    getTranscriptionById 1 one_pending_job = Some job /\
    getTranscriptionById 1
      (processRecording sample_run 1 "/var/spool/asterisk/recording/recording-c1-9000.wav"
         one_pending_job).1.1 = Some job' /\
    transcription_id job' = 1%Z /\
    processing_completed_at job' = Some (datetime_now (at_end sample_run)).
Proof.
  destruct (getTranscriptionById 1 one_pending_job) as [job|] eqn:Hjob;
    [| vm_compute in Hjob; discriminate Hjob].
  destruct (processRecording_stores_what_it_returns sample_run 1
              "/var/spool/asterisk/recording/recording-c1-9000.wav" one_pending_job job Hjob)
    as (job' & Hget & Hid & _ & _ & _ & Hdone & _).
  exists job, job'. split; [reflexivity |]. split; [exact Hget |].
  split; [exact Hid | exact Hdone].
Defined.

(** The sample run for a job that is not there. *)
Lemma processRecording_of_missing_job_witness :
  getTranscriptionById 9 one_pending_job = None /\
  (processRecording sample_run 9 "/var/spool/asterisk/recording/none.wav"
     one_pending_job).1.1 = one_pending_job.
Proof.
  assert (getTranscriptionById 9 one_pending_job = None) as Hnone
    by (vm_compute; reflexivity).
  split; [exact Hnone |].
  destruct (processRecording_of_missing_job sample_run 9
              "/var/spool/asterisk/recording/none.wav" one_pending_job Hnone) as (Hsame & _).
  exact Hsame.
Defined.

(** From the empty store to the answered call. *)
Lemma call_ids_are_never_reused_witness :
  call_ids_ok (db (start empty_database 0 5000 10)) /\
  call_ids_ok (db answered_call).
Proof.
  assert (call_ids_ok (db (start empty_database 0 5000 10))) as Hok.
  { split; [apply NoDup_nil_2 | apply Forall_nil_2]. }
  split; [exact Hok |].
  destruct (call_ids_are_never_reused (start empty_database 0 5000 10)
              [ (utc_at 1000, AMI (AMIClient.Newchannel (Some "abc.1") "SIP/100-0001" "100"
                                     "Alice" "777"));
                (utc_at 2000, AMI (AMIClient.Newstate "abc.1" "SIP/100-0001" 6 "100")) ]
              Hok) as (Hafter & _).
  exact Hafter.
Defined.

(** One call through the pipeline, from the empty store. *)
Lemma jobs_and_events_refer_to_recorded_calls_witness :
  references_ok empty_database /\
  references_ok (db (run normal_path (start empty_database 0 5000 10))).
Proof.
  assert (references_ok empty_database) as Hok.
  { split; apply Forall_nil_2. }
  split; [exact Hok |].
  exact (jobs_and_events_refer_to_recorded_calls empty_database 0 5000 10 normal_path Hok).
Defined.

Lemma transcription_jobs_stay_well_formed_witness :
  jobs_ok (db (start empty_database 0 5000 10)) /\
  jobs_ok (db (run normal_path (start empty_database 0 5000 10))).
Proof.
  assert (jobs_ok (db (start empty_database 0 5000 10))) as Hok.
  { split; [apply NoDup_nil_2 |]. split; apply Forall_nil_2. }
  split; [exact Hok |].
  destruct (transcription_jobs_stay_well_formed (start empty_database 0 5000 10)
              normal_path Hok) as (Hafter & _).
  exact Hafter.
Defined.

(** The first page of fifty, without filter. *)
Lemma getAllCalls_pages_newest_first_witness :
  (0 <= 50)%Z /\ (0 <= 0)%Z /\
  Sorted started_after (p_calls (getAllCalls 50 0 (fun _ => true) (db answered_call))) /\
  (Z.of_nat (length (p_calls (getAllCalls 50 0 (fun _ => true) (db answered_call)))) <= 50)%Z.
Proof.
  assert (0 <= 50)%Z as Hlimit by (apply Z.leb_le; reflexivity).
  assert (0 <= 0)%Z as Hoffset by (apply Z.leb_le; reflexivity).
  split; [exact Hlimit |]. split; [exact Hoffset |].
  destruct (getAllCalls_pages_newest_first 50 0 (fun _ => true) (db answered_call)
              Hlimit Hoffset) as (Hsorted & Hlen & _).
  split; [exact Hsorted | exact Hlen].
Defined.

(** The hangup of the call the tracker has just seen. *)
Lemma hangup_of_tracked_call_ends_and_evicts_witness :
  exists call,
    AMIClient.activeCalls (ami (run tracked_call (start empty_database 0 5000 10))) !! "abc.1"
      = Some call /\
    AMIClient.activeCalls
      (ami (step (utc_at 4000)
              (AMI (AMIClient.Hangup "abc.1" "SIP/100-0001" "16" "Normal Clearing" "100"))
              (run tracked_call (start empty_database 0 5000 10))).1)
      = delete "abc.1"
          (AMIClient.activeCalls (ami (run tracked_call (start empty_database 0 5000 10)))).
Proof.
  destruct (AMIClient.activeCalls
              (ami (run tracked_call (start empty_database 0 5000 10))) !! "abc.1")
    as [call|] eqn:Hcall; [| vm_compute in Hcall; discriminate Hcall].
  exists call. split; [reflexivity |].
  destruct (hangup_of_tracked_call_ends_and_evicts empty_database 0 5000 10 tracked_call
              (utc_at 4000) "abc.1" "SIP/100-0001" "16" "Normal Clearing" "100" call Hcall)
    as (r & r' & ev & _ & _ & _ & _ & _ & _ & _ & _ & _ & Hcache & _).
  exact Hcache.
Defined.

(** The call the tracker has just seen is dialled on. *)
Lemma dial_begin_updates_the_cache_only_witness :
  exists call,
    AMIClient.activeCalls (ami (run tracked_call (start empty_database 0 5000 10))) !! "abc.1"
      = Some call /\
    calls
      (db (step (utc_at 1500) (AMI (AMIClient.Dial "abc.1" "Begin" None "SIP/200" "SIP/200-0002"))
             (run tracked_call (start empty_database 0 5000 10))).1)
      = calls (db (run tracked_call (start empty_database 0 5000 10))).
Proof.
  destruct (AMIClient.activeCalls
              (ami (run tracked_call (start empty_database 0 5000 10))) !! "abc.1")
    as [call|] eqn:Hcall; [| vm_compute in Hcall; discriminate Hcall].
  exists call. split; [reflexivity |].
  destruct (dial_begin_updates_the_cache_only empty_database 0 5000 10 tracked_call
              (utc_at 1500) "abc.1" None "SIP/200" "SIP/200-0002" call Hcall)
    as (call' & ev & _ & _ & _ & _ & _ & Hcalls & _).
  exact Hcalls.
Defined.

(** Four timeouts in a row against a limit of three. *)
Lemma reconnect_attempts_stay_within_limit_witness :
  (0 < 3)%Z /\
  (0 <= AMIClient.reconnectAttempts
          (ami (run three_timeouts (start empty_database 3 5000 10))) <= 3)%Z.
Proof.
  assert (0 < 3)%Z as Hpos by (apply Z.ltb_lt; reflexivity).
  split; [exact Hpos |].
  destruct (reconnect_attempts_stay_within_limit empty_database 3 5000 10 three_timeouts
              Hpos) as (Hami & _).
  exact Hami.
Defined.

(** The caller of the first call on a fresh client leaves early, and the
    hangup of the channel that is gone fails. *)
Lemma answer_after_session_end_hangs_up_witness :
  wf_sessions (activeChannels (new_client 0 5000 10)) /\
  (answer_returned "c1" true "pb-1" true false
     (handleStasisEnd "c1"
        (handleStasisStart (utc_at 1000) "c1" "100" "Alice" (new_client 0 5000 10)).1).1).2
    = [Log "error" "Error handling Stasis call:"; Log "info" "Hanging up channel";
       HangupCmd "c1" "error";
       Log "debug" "Error hanging up (channel may already be gone):"].
Proof.
  assert (wf_sessions (activeChannels (new_client 0 5000 10))) as Hwf.
  { split; [apply NoDup_nil_2 | apply Forall_nil_2]. }
  split; [exact Hwf |].
  destruct (answer_after_session_end_hangs_up (utc_at 1000) (new_client 0 5000 10)
              "c1" "100" "Alice" "pb-1" true false Hwf) as (_ & Hout & _).
  exact Hout.
Defined.

(** The hangup that ends the sample call comes from the timer. *)
Lemma orchestrator_hangups_have_a_cause_witness :
  HangupCmd "c1" "normal"
    ∈ (handle (utc_at 18000) (HangupTimer "c1" true)
         (ari (run normal_path (start empty_database 0 5000 10)))
         (db (run normal_path (start empty_database 0 5000 10)))).2 /\
  Forall (fun o => is_hangup o = false)
    (outputs_of normal_path (start empty_database 0 5000 10)) /\
  (("normal" = "error" /\
    exists answer_ok playbackId play_ok hangup_ok,
      HangupTimer "c1" true = AnswerReturned "c1" answer_ok playbackId play_ok hangup_ok /\
      (answer_ok = false \/ play_ok = false \/
       map_get "c1"
         (activeChannels (ari (run normal_path (start empty_database 0 5000 10))))
         = None)) \/
   ("normal" = "recording_error" /\
    exists playbackId hangup_ok,
      HangupTimer "c1" true = PlaybackFinished playbackId false hangup_ok) \/
   ("normal" = "normal" /\
    ((exists name hangup_ok, HangupTimer "c1" true = RecordingFinished name false hangup_ok) \/
     (exists hangup_ok, HangupTimer "c1" true = HangupTimer "c1" hangup_ok)))).
Proof.
  assert (HangupCmd "c1" "normal"
            ∈ (handle (utc_at 18000) (HangupTimer "c1" true)
                 (ari (run normal_path (start empty_database 0 5000 10)))
                 (db (run normal_path (start empty_database 0 5000 10)))).2) as Hin.
  { apply list_elem_of_further. apply list_elem_of_here. }
  split; [exact Hin |].
  split; [vm_compute; repeat constructor |].
  destruct (orchestrator_hangups_have_a_cause (utc_at 18000)
              (ari (run normal_path (start empty_database 0 5000 10)))
              (db (run normal_path (start empty_database 0 5000 10)))) as (Hcause & _).
  exact (Hcause (HangupTimer "c1" true) "c1" "normal" Hin).
Defined.

(** Two recordings of one channel started in the same millisecond. *)
Lemma recording_names_tell_channel_and_clock_witness :
  (0 <= now_ms (utc_at 6000))%Z /\
  recording_name (utc_at 6000) "c1" = recording_name (utc_at 6000) "c1" /\
  "c1" = "c1" /\ now_ms (utc_at 6000) = now_ms (utc_at 6000).
Proof.
  assert (0 <= now_ms (utc_at 6000))%Z as Hclock by (apply Z.leb_le; reflexivity).
  split; [exact Hclock |]. split; [reflexivity |].
  exact (recording_names_tell_channel_and_clock (utc_at 6000) (utc_at 6000) "c1" "c1"
           Hclock Hclock eq_refl).
Defined.

(** The recording of the sample session finishes and the goodbye is
    played. *)
Lemma recording_finished_files_one_pending_job_witness :
  exists data call job,
    scan (holds_recording "recording-c1-6000") (activeChannels (ari recording_session))
      = Some ("c1", data) /\
    getCallByUniqueId "c1"
      (handleRecordingFinished (utc_at 16000) "recording-c1-6000" true true
         (ari recording_session) (db recording_session)).1.2 = Some call /\
    transcriptions
      (handleRecordingFinished (utc_at 16000) "recording-c1-6000" true true
         (ari recording_session) (db recording_session)).1.2
      = transcriptions (db recording_session) ++ [job] /\
    transcription_status job = "pending" /\
    List.filter is_timer
      (handleRecordingFinished (utc_at 16000) "recording-c1-6000" true true
         (ari recording_session) (db recording_session)).2
      = [SetTimeout 2000 "hangupChannel"].
Proof.
  destruct (scan (holds_recording "recording-c1-6000")
              (activeChannels (ari recording_session))) as [[k data]|] eqn:Hscan;
    [| vm_compute in Hscan; discriminate Hscan].
  assert (k = "c1") as ->.
  { vm_compute in Hscan. injection Hscan as <- _. reflexivity. }
  destruct (recording_finished_files_one_pending_job (utc_at 16000) "recording-c1-6000"
              true true (ari recording_session) (db recording_session) "c1" data Hscan)
    as (call & job & Hcall & _ & _ & Hjobs & _ & _ & Hstatus & _ & _ & Htimer & _).
  exists data, call, job. split; [reflexivity |]. split; [exact Hcall |].
  split; [exact Hjobs |]. split; [exact Hstatus | exact Htimer].
Defined.

End MoreSamples.
